(** * The slash-command parser of the apps framework

    A shallow embedding of
    [app/components/autocomplete/slash_suggestion/app_command_parser/app_command_parser.ts]:
    the tokenizer [ParsedCommand] (the binding walk [matchBinding] and the
    form scanner [parseForm]) and the orchestrator [AppCommandParser]
    (form cache, call composition, suggestions).

    Conventions of the embedding.
    - A JavaScript string is a [string]; every [ascii] stands for one code
      unit in the range 0..255.  [command[i]] past the end is the empty
      string in the source and [None] here.
    - Objects used as dictionaries ([values], [forms]) are [gmap string _];
      keys are field names and locations, which are taken not to collide
      with the property names every JavaScript object inherits.
    - A message produced by [intl.formatMessage] is kept as the descriptor
      it was made from (identifier, default text, template values); the
      rendering belongs to the host.  Text that comes from elsewhere
      (a server response, a field of the schema) is [Verbatim].
    - The module [app_command_parser_dependencies] is not part of the
      sources at hand; what the parser imports from it is the record
      [Deps] below. *)

From Stdlib Require Import Ascii String.
From stdpp Require Import gmap strings list fin_maps.

Set Warnings "-register-all".

Local Open Scope string_scope.
Local Open Scope list_scope.
Local Open Scope stdpp_scope.

(** ** Strings as the source uses them *)

Definition charAt (s : string) (n : nat) : option ascii := String.get n s.

(** The code units 0..255 that [toLowerCase] changes: A-Z and the
    upper-case letters of the Latin-1 supplement (215 is the multiplication
    sign). *)
Definition toLowerCaseChar (c : ascii) : ascii :=
  let n := nat_of_ascii c in
  if ((65 <=? n)%nat && (n <=? 90)%nat) ||
     ((192 <=? n)%nat && (n <=? 222)%nat && negb (n =? 215)%nat)
  then ascii_of_nat (n + 32) else c.

Fixpoint toLowerCase (s : string) : string :=
  match s with
  | EmptyString => EmptyString
  | String c r => String (toLowerCaseChar c) (toLowerCase r)
  end.

(** [s.startsWith(p)] *)
Definition startsWith (s p : string) : bool := String.prefix p s.

(** [s.endsWith(p)] *)
Definition endsWith (s p : string) : bool :=
  startsWith (String.rev s) (String.rev p).

(** [s += c] *)
Definition push (s : string) (c : ascii) : string := s +:+ String c EmptyString.

(** [s.substring(0, n)] *)
Definition substring_to (n : nat) (s : string) : string := String.substring 0 n s.

(** [s.substring(n)] *)
Definition substring_from (n : nat) (s : string) : string :=
  String.substring n (String.length s - n) s.

(** [s.indexOf(c) !== -1] *)
Fixpoint includesChar (c : ascii) (s : string) : bool :=
  match s with
  | EmptyString => false
  | String d r => if ascii_dec c d then true else includesChar c r
  end.

(** White space in the sense of [trim], among the code units 0..255. *)
Definition isTrimSpace (c : ascii) : bool :=
  Ascii.is_space c || (nat_of_ascii c =? 160)%nat.

(** [s.trim().length === 0] *)
Fixpoint trimIsEmpty (s : string) : bool :=
  match s with
  | EmptyString => true
  | String c r => isTrimSpace c && trimIsEmpty r
  end.

Definition eqb_string (a b : string) : bool := bool_decide (a = b).

Definition isBlank (c : ascii) : bool :=
  bool_decide (c = " "%char) || bool_decide (c = "009"%char).

Definition dquote : ascii := "034"%char.
Definition backtick : ascii := "`"%char.
Definition backslash : ascii := "\"%char.

(** [xs.join(sep)] on strings. *)
Fixpoint join (sep : string) (xs : list string) : string :=
  match xs with
  | [] => ""
  | [x] => x
  | x :: r => x +:+ sep +:+ join sep r
  end.

(** ** The command schema *)

Module AppFieldTypes.
(** Modelled from the spec: the field kinds of [AppFieldTypes], declared in
    the dependencies module: text, boolean, user reference, channel
    reference, static select, dynamic select, markdown display. *)
Inductive t := TEXT | BOOL | USER | CHANNEL | STATIC_SELECT | DYNAMIC_SELECT | MARKDOWN.

#[global] Instance eq_dec : EqDecision t.
Proof. solve_decision. Defined.
End AppFieldTypes.

(** A value of the call: what [AppCallValues] holds and what a field's
    default [value] may be.  [VObj] is an option object
    [{label, value, icon_data}]; [VNative name] is what every object
    inherits under [name] from [Object.prototype]: a function, or under
    [__proto__] the prototype itself. *)
Inductive AppCallValue : Type :=
| VUndef
| VStr (s : string)
| VBool (b : bool)
| VObj (label value : AppCallValue) (icon_data : option string)
| VNative (name : string).

(** ** Messages *)

(** A text shown to the user: given text, a value put into a template, a
    message of [intl.formatMessage], or texts put one after the other. *)
Inductive Message : Type :=
| Verbatim (s : string)
| OfValue (v : AppCallValue)
| Formatted (id defaultMessage : string) (values : list (string * Message))
| Joined (parts : list Message).

(** JavaScript truthiness of a value. *)
Definition truthy (v : AppCallValue) : bool :=
  match v with
  | VUndef => false
  | VStr s => negb (eqb_string s "")
  | VBool b => b
  | VObj _ _ _ => true
  | VNative _ => true
  end.

(** The names of the properties of [Object.prototype].  The values of a
    parse are an object literal, so that each of them is found in the
    values, through the prototype, when the values have no property of
    their own under the name. *)
Definition objectPrototype : list string :=
  ["constructor"; "__defineGetter__"; "__defineSetter__"; "hasOwnProperty";
   "__lookupGetter__"; "__lookupSetter__"; "isPrototypeOf"; "propertyIsEnumerable";
   "toString"; "valueOf"; "__proto__"; "toLocaleString"].

Definition inherited (name : string) : bool := bool_decide (name ∈ objectPrototype).

(** [values[name]]: the property of the values themselves, else the one
    inherited from [Object.prototype], else [undefined].  [__proto__] is
    never a property of the values themselves: what is assigned under
    that name goes to the setter of [Object.prototype], which drops a
    string, and the name reads as the prototype.  (The setter takes an
    object as the new prototype; [expandOptions] assigns one for a user,
    a channel or a dynamic select named [__proto__], and what the values
    inherit from it under [label] and [value] is not modelled.) *)
Definition readValue (values : gmap string AppCallValue) (name : string) : AppCallValue :=
  if bool_decide (name = "__proto__") then VNative name
  else
    match values !! name with
    | Some v => v
    | None => if inherited name then VNative name else VUndef
    end.

(** [name in values]: a property of the values themselves or an
    inherited one. *)
Definition hasProperty (values : gmap string AppCallValue) (name : string) : bool :=
  bool_decide (is_Some (values !! name)) || inherited name.

(** [(v as AppSelectOption).value] and [.label] *)
Definition propValue (v : AppCallValue) : AppCallValue :=
  match v with VObj _ x _ => x | _ => VUndef end.

Definition propLabel (v : AppCallValue) : AppCallValue :=
  match v with VObj l _ _ => l | _ => VUndef end.

Module AppSelectOption.
Record t := mk { label : string; value : string; icon_data : option string }.

Definition toValue (o : t) : AppCallValue :=
  VObj (VStr (label o)) (VStr (value o)) (icon_data o).
End AppSelectOption.

Module AppCall.
Record t := mk { path : string }.
End AppCall.

Module AppField.
(** [label] and [position] are optional in the source; an absent
    [description] or [hint] reads as the empty string wherever it is used,
    an absent [options] as the empty list, an absent [value] as
    [undefined]. *)
Record t := mk {
  name : string;
  type : AppFieldTypes.t;
  is_required : bool;
  readonly : bool;
  value : AppCallValue;
  description : string;
  label : option string;
  hint : string;
  position : option nat;
  options : list AppSelectOption.t
}.
End AppField.

Module AppForm.
(** An absent [fields] behaves as the empty list in every use the parser
    makes of it. *)
Record t := mk {
  fields : list AppField.t;
  call : option AppCall.t
}.
End AppForm.

Module AppBinding.
Inductive t := mk {
  app_id : string;
  label : string;
  description : string;
  hint : string;
  icon : string;
  form : option AppForm.t;
  bindings : list t;
  call : option AppCall.t
}.
End AppBinding.

Module ParseState.
Inductive t :=
| Start | Command | EndCommand | CommandSeparator
| StartParameter | ParameterSeparator
| Flag1 | Flag | FlagValueSeparator
| StartValue | NonspaceValue | QuotedValue | TickValue
| EndValue | EndQuotedValue | EndTickedValue
| Error.

#[global] Instance eq_dec : EqDecision t.
Proof. solve_decision. Defined.

Definition toString (s : t) : string :=
  match s with
  | Start => "Start" | Command => "Command" | EndCommand => "EndCommand"
  | CommandSeparator => "CommandSeparator"
  | StartParameter => "StartParameter" | ParameterSeparator => "ParameterSeparator"
  | Flag1 => "Flag1" | Flag => "Flag" | FlagValueSeparator => "FlagValueSeparator"
  | StartValue => "StartValue" | NonspaceValue => "NonspaceValue"
  | QuotedValue => "QuotedValue" | TickValue => "TickValue"
  | EndValue => "EndValue" | EndQuotedValue => "EndQuotedValue"
  | EndTickedValue => "EndTickedValue"
  | Error => "Error"
  end.
End ParseState.

(** What [getForm] and [fetchForm] resolve to: [{form?, error?}]. *)
Record Fetched := mkFetched {
  fetched_form : option AppForm.t;
  fetched_error : option Message
}.

(** ** The messages of the tokenizer *)

Module Msg.
Definition no_bindings : Message :=
  Formatted "apps.error.parser.no_bindings" "No command bindings." [].

Definition no_slash_start : Message :=
  Formatted "apps.error.parser.no_slash_start" "Command must start with a `/`." [].

Definition unexpected_state (s : ParseState.t) : Message :=
  Formatted "apps.error.parser.unexpected_state"
    "Unreachable: Unexpected state in matchBinding: `{state}`."
    [("state", Verbatim (ParseState.toString s))].

Definition no_match (command : string) : Message :=
  Formatted "apps.error.parser.no_match"
    "`{command}`: No matching command found in this workspace."
    [("command", Verbatim command)].

Definition no_argument_pos_x : Message :=
  Formatted "apps.error.parser.no_argument_pos_x" "Unable to identify argument." [].

Definition unexpected_flag (flagName : string) : Message :=
  Formatted "apps.error.parser.unexpected_flag"
    "Command does not accept flag `{flagName}`."
    [("flagName", Verbatim flagName)].

Definition multiple_equal : Message :=
  Formatted "apps.error.parser.multiple_equal" "Multiple `=` signs are not allowed." [].

Definition unexpected_whitespace : Message :=
  Formatted "apps.error.parser.unexpected_whitespace" "Unreachable: Unexpected whitespace." [].

Definition missing_quote : Message :=
  Formatted "apps.error.parser.missing_quote"
    "Matching double quote expected before end of input." [].

Definition missing_tick : Message :=
  Formatted "apps.error.parser.missing_tick"
    "Matching tick quote expected before end of input." [].

Definition empty_value : Message :=
  Formatted "apps.error.parser.empty_value" "empty values are not allowed" [].

Definition missing_field_value : Message :=
  Formatted "apps.error.parser.missing_field_value" "Field value is missing." [].
End Msg.

(** ** The tokenizer *)

(** One turn of a scanning loop either goes round again, leaves the loop
    ([Done], the statements after the loop follow) or returns from the
    function ([Return]). *)
Inductive Turn (A R : Type) : Type :=
| Again (a : A)
| Done (r : R)
| Return (r : R).
Arguments Again {A R} a.
Arguments Done {A R} r.
Arguments Return {A R} r.

Module ParsedCommand.

Record t := mk {
  state : ParseState.t;
  command : string;
  i : nat;
  incomplete : string;
  incompleteStart : nat;
  binding : option AppBinding.t;
  form : option AppForm.t;
  field : option AppField.t;
  position : nat;
  values : gmap string AppCallValue;
  location : string;
  error : Message
}.

(** [new ParsedCommand(command, formsCache, intl)] *)
Definition new (command : string) : t :=
  mk ParseState.Start command 0 "" 0 None None None 0 ∅ "" (Verbatim "").

Definition with_state (s : ParseState.t) (p : t) : t :=
  mk s (command p) (i p) (incomplete p) (incompleteStart p) (binding p) (form p)
     (field p) (position p) (values p) (location p) (error p).

Definition with_i (n : nat) (p : t) : t :=
  mk (state p) (command p) n (incomplete p) (incompleteStart p) (binding p) (form p)
     (field p) (position p) (values p) (location p) (error p).

Definition with_incomplete (s : string) (p : t) : t :=
  mk (state p) (command p) (i p) s (incompleteStart p) (binding p) (form p)
     (field p) (position p) (values p) (location p) (error p).

Definition with_incompleteStart (n : nat) (p : t) : t :=
  mk (state p) (command p) (i p) (incomplete p) n (binding p) (form p)
     (field p) (position p) (values p) (location p) (error p).

Definition with_binding (b : option AppBinding.t) (p : t) : t :=
  mk (state p) (command p) (i p) (incomplete p) (incompleteStart p) b (form p)
     (field p) (position p) (values p) (location p) (error p).

Definition with_form (f : option AppForm.t) (p : t) : t :=
  mk (state p) (command p) (i p) (incomplete p) (incompleteStart p) (binding p) f
     (field p) (position p) (values p) (location p) (error p).

Definition with_field (f : option AppField.t) (p : t) : t :=
  mk (state p) (command p) (i p) (incomplete p) (incompleteStart p) (binding p) (form p)
     f (position p) (values p) (location p) (error p).

Definition with_position (n : nat) (p : t) : t :=
  mk (state p) (command p) (i p) (incomplete p) (incompleteStart p) (binding p) (form p)
     (field p) n (values p) (location p) (error p).

Definition with_values (v : gmap string AppCallValue) (p : t) : t :=
  mk (state p) (command p) (i p) (incomplete p) (incompleteStart p) (binding p) (form p)
     (field p) (position p) v (location p) (error p).

Definition with_location (l : string) (p : t) : t :=
  mk (state p) (command p) (i p) (incomplete p) (incompleteStart p) (binding p) (form p)
     (field p) (position p) (values p) l (error p).

Definition with_error (e : Message) (p : t) : t :=
  mk (state p) (command p) (i p) (incomplete p) (incompleteStart p) (binding p) (form p)
     (field p) (position p) (values p) (location p) e.

(** [this.values[name] = v] *)
Definition setValue (name : string) (v : AppCallValue) (p : t) : t :=
  with_values (<[name := v]> (values p)) p.

Definition asError (message : Message) (p : t) : t :=
  with_error message (with_state ParseState.Error p).

(** The character under the cursor: [None] is the empty string the source
    reads at the end of the input. *)
Definition current (p : t) : option ascii := charAt (command p) (i p).

(** *** matchBinding *)

(** [bindings.find(b => b.label.toLowerCase() === incomplete.toLowerCase())] *)
Definition findBinding (bindings : list AppBinding.t) (token : string) : option AppBinding.t :=
  List.find (fun b => eqb_string (toLowerCase (AppBinding.label b)) (toLowerCase token)) bindings.

(** One turn of the loop of [matchBinding], on the candidate bindings and
    the cursor. *)
Definition matchBinding_turn (autocompleteMode : bool)
    (bindings : list AppBinding.t) (p : t) : Turn (list AppBinding.t * t) t :=
  let c := current p in
  match state p with
  | ParseState.Start =>
      if bool_decide (c = Some "/"%char)
      then Again (bindings,
                  with_state ParseState.Command
                    (with_incompleteStart (S (i p))
                       (with_incomplete "" (with_i (S (i p)) p))))
      else Return (asError Msg.no_slash_start p)
  | ParseState.Command =>
      match c with
      | None =>
          if autocompleteMode then Done p
          else Again (bindings, with_state ParseState.EndCommand p)
      | Some ch =>
          if isBlank ch then Again (bindings, with_state ParseState.EndCommand p)
          else Again (bindings, with_i (S (i p)) (with_incomplete (push (incomplete p) ch) p))
      end
  | ParseState.EndCommand =>
      match findBinding bindings (incomplete p) with
      | None => Done p
      | Some b =>
          Again (AppBinding.bindings b,
                 with_state ParseState.CommandSeparator
                   (with_location (location p +:+ "/" +:+ AppBinding.label b)
                      (with_binding (Some b) p)))
      end
  | ParseState.CommandSeparator =>
      match c with
      | None =>
          Done (with_state ParseState.Command
                  (with_incompleteStart (i p) (with_incomplete "" p)))
      | Some ch =>
          if isBlank ch then Again (bindings, with_i (S (i p)) p)
          else Again (bindings,
                      with_state ParseState.Command
                        (with_incompleteStart (i p) (with_incomplete "" p)))
      end
  | s => Return (asError (Msg.unexpected_state s) p)
  end.

Fixpoint matchBinding_loop (fuel : nat) (autocompleteMode : bool)
    (bindings : list AppBinding.t) (p : t) : option (Turn (list AppBinding.t * t) t) :=
  match fuel with
  | O => None
  | S n =>
      match matchBinding_turn autocompleteMode bindings p with
      | Again (bs, p') => matchBinding_loop n autocompleteMode bs p'
      | r => Some r
      end
  end.

(** Turns that suffice for the loop: every turn consumes a character or
    moves along Command, EndCommand, CommandSeparator (see
    [matchBinding_loop_total]). *)
Definition matchBinding_fuel (p : t) : nat :=
  4 * (String.length (command p) - i p) + 5.

Section FormsCache.
(** The [formsCache] the constructor receives: [getForm], which may change
    the state [St] of its owner. *)
Context {St : Type}.
Variable getForm : string → AppBinding.t → St → option Fetched * St.

(** The statements of [matchBinding] after the loop. *)
Definition matchBinding_finish (p : t) (st : St) : t * St :=
  match binding p with
  | None => (asError (Msg.no_match (command p)) p, st)
  | Some b =>
      let p1 := with_form (AppBinding.form b) p in
      match form p1 with
      | Some _ => (p1, st)
      | None =>
          let '(fetched, st') := getForm (location p1) b st in
          match fetched ≫= fetched_error with
          | Some e => (asError e p1, st')
          | None => (with_form (fetched ≫= fetched_form) p1, st')
          end
      end
  end.

Definition matchBinding (commandBindings : list AppBinding.t) (autocompleteMode : bool)
    (p : t) (st : St) : t * St :=
  if bool_decide (commandBindings = [])
  then (asError Msg.no_bindings p, st)
  else
    match matchBinding_loop (matchBinding_fuel p) autocompleteMode commandBindings p with
    | Some (Done p') => matchBinding_finish p' st
    | Some (Return p') => (p', st)
    | Some (Again (_, p')) => (p', st)
    | None => (p, st)
    end.

End FormsCache.

(** *** parseForm *)

(** The local variables of [parseForm] next to the cursor. *)
Record Scan := mkScan { flagEqualsUsed : bool; escaped : bool }.

(** [fields.filter(f => f.type !== MARKDOWN && !f.readonly)] *)
Definition parseableFields (fields : list AppField.t) : list AppField.t :=
  List.filter
    (fun f => negb (bool_decide (AppField.type f = AppFieldTypes.MARKDOWN))
              && negb (AppField.readonly f))
    fields.

(** [fields.find(f => f.position === position)] *)
Definition findPositional (fields : list AppField.t) (position : nat) : option AppField.t :=
  List.find (fun f => bool_decide (AppField.position f = Some position)) fields.

(** [fields.find(f => f.label?.toLowerCase() === incomplete.toLowerCase())] *)
Definition findFlag (fields : list AppField.t) (token : string) : option AppField.t :=
  List.find
    (fun f => match AppField.label f with
              | Some l => eqb_string (toLowerCase l) (toLowerCase token)
              | None => false
              end)
    fields.

(** The test of the boolean special case on the accumulated token:
    not a prefix of true or false when completing, not one of the two
    words otherwise. *)
Definition notBooleanToken (autocompleteMode : bool) (token : string) : bool :=
  if autocompleteMode
  then negb (startsWith "true" token) && negb (startsWith "false" token)
  else negb (eqb_string token "true") && negb (eqb_string token "false").

Definition isBool (f : AppField.t) : bool :=
  bool_decide (AppField.type f = AppFieldTypes.BOOL).

(** The end of a flag name: the flag is looked up among the fields. *)
Definition endOfFlag (fields : list AppField.t) (sc : Scan) (p : t) : Turn (Scan * t) t :=
  match findFlag fields (incomplete p) with
  | None => Return (asError (Msg.unexpected_flag (incomplete p)) p)
  | Some f =>
      Again (sc, with_incomplete ""
                   (with_field (Some f) (with_state ParseState.FlagValueSeparator p)))
  end.

(** The end of a value, whatever its delimiters. *)
Definition endOfValue (autocompleteMode : bool) (sc : Scan) (p : t) : Turn (Scan * t) t :=
  match field p with
  | None => Return (asError Msg.missing_field_value p)
  | Some f =>
      if isBool f && notBooleanToken autocompleteMode (incomplete p)
      then Again (sc, with_state ParseState.StartParameter
                        (setValue (AppField.name f) (VStr "true")
                           (with_i (incompleteStart p) p)))
      else if autocompleteMode && bool_decide (current p = None)
      then Return p
      else
        let p1 := with_incompleteStart (i p)
                    (with_incomplete ""
                       (setValue (AppField.name f) (VStr (incomplete p)) p)) in
        if bool_decide (current p = None) then Return p1
        else Again (sc, with_state ParseState.ParameterSeparator p1)
  end.

(** One turn of the loop of [parseForm].  The switch of the source has no
    case for the states of [matchBinding] nor for Error: there the loop
    goes round without a change. *)
Definition parseForm_turn (autocompleteMode : bool) (fields : list AppField.t)
    (sc : Scan) (p : t) : Turn (Scan * t) t :=
  let c := current p in
  match state p with
  | ParseState.StartParameter =>
      match c with
      | None => Return p
      | Some ch =>
          if bool_decide (ch = "-"%char)
          then Again (sc, with_i (S (i p)) (with_state ParseState.Flag1 p))
          else
            let p1 := with_position (S (position p)) p in
            match findPositional fields (position p1) with
            | None => Return (asError Msg.no_argument_pos_x p1)
            | Some f => Again (sc, with_state ParseState.StartValue (with_field (Some f) p1))
            end
      end
  | ParseState.ParameterSeparator =>
      let p1 := with_incompleteStart (i p) p in
      match c with
      | None => Return (with_state ParseState.StartParameter p1)
      | Some ch =>
          if isBlank ch then Again (sc, with_i (S (i p)) p1)
          else Again (sc, with_state ParseState.StartParameter p1)
      end
  | ParseState.Flag1 =>
      let p1 := if bool_decide (c = Some "-"%char) then with_i (S (i p)) p else p in
      Again (mkScan false (escaped sc),
             with_incompleteStart (i p1)
               (with_incomplete "" (with_state ParseState.Flag p1)))
  | ParseState.Flag =>
      match c with
      | None => if autocompleteMode then Return p else endOfFlag fields sc p
      | Some ch =>
          if isBlank ch || bool_decide (ch = "="%char) then endOfFlag fields sc p
          else Again (sc, with_i (S (i p)) (with_incomplete (push (incomplete p) ch) p))
      end
  | ParseState.FlagValueSeparator =>
      let p1 := with_incompleteStart (i p) p in
      match c with
      | None =>
          if autocompleteMode then Return p1
          else Again (sc, with_state ParseState.StartValue p1)
      | Some ch =>
          if isBlank ch then Again (sc, with_i (S (i p)) p1)
          else if bool_decide (ch = "="%char)
          then if flagEqualsUsed sc then Return (asError Msg.multiple_equal p1)
               else Again (mkScan true (escaped sc), with_i (S (i p)) p1)
          else Again (sc, with_state ParseState.StartValue p1)
      end
  | ParseState.StartValue =>
      let p1 := with_incompleteStart (i p) (with_incomplete "" p) in
      match c with
      | None => Again (sc, with_state ParseState.NonspaceValue p1)
      | Some ch =>
          if bool_decide (ch = dquote)
          then Again (sc, with_i (S (i p)) (with_state ParseState.QuotedValue p1))
          else if bool_decide (ch = backtick)
          then Again (sc, with_i (S (i p)) (with_state ParseState.TickValue p1))
          else if isBlank ch
          then Return (asError Msg.unexpected_whitespace p1)
          else Again (sc, with_state ParseState.NonspaceValue p1)
      end
  | ParseState.NonspaceValue =>
      match c with
      | None => Again (sc, with_state ParseState.EndValue p)
      | Some ch =>
          if isBlank ch then Again (sc, with_state ParseState.EndValue p)
          else Again (sc, with_i (S (i p)) (with_incomplete (push (incomplete p) ch) p))
      end
  | ParseState.QuotedValue =>
      match c with
      | None =>
          if autocompleteMode then Return p else Return (asError Msg.missing_quote p)
      | Some ch =>
          if bool_decide (ch = dquote)
          then if bool_decide (S (incompleteStart p) = i p)
               then Return (asError Msg.empty_value p)
               else Again (sc, with_state ParseState.EndQuotedValue (with_i (S (i p)) p))
          else if bool_decide (ch = backslash)
          then Again (mkScan (flagEqualsUsed sc) true, with_i (S (i p)) p)
          else Again (mkScan (flagEqualsUsed sc) false,
                      with_i (S (i p)) (with_incomplete (push (incomplete p) ch) p))
      end
  | ParseState.TickValue =>
      match c with
      | None =>
          if autocompleteMode then Return p else Return (asError Msg.missing_tick p)
      | Some ch =>
          if bool_decide (ch = backtick)
          then if bool_decide (S (incompleteStart p) = i p)
               then Return (asError Msg.empty_value p)
               else Again (sc, with_state ParseState.EndTickedValue (with_i (S (i p)) p))
          else Again (sc, with_i (S (i p)) (with_incomplete (push (incomplete p) ch) p))
      end
  | ParseState.EndTickedValue
  | ParseState.EndQuotedValue
  | ParseState.EndValue => endOfValue autocompleteMode sc p
  | _ => Again (sc, p)
  end.

Fixpoint parseForm_loop (fuel : nat) (autocompleteMode : bool) (fields : list AppField.t)
    (sc : Scan) (p : t) : option t :=
  match fuel with
  | O => None
  | S n =>
      match parseForm_turn autocompleteMode fields sc p with
      | Again (sc', p') => parseForm_loop n autocompleteMode fields sc' p'
      | Done r | Return r => Some r
      end
  end.

(** A bound on the turns of the loop ([parseForm_loop_total]).  The cursor
    only moves back when a boolean field hands its token over to the next
    parameter; what follows is a flag, which starts further right, or a
    positional parameter, of which there are no more than the largest
    [position] of the form. *)
Definition maxPosition (fields : list AppField.t) : nat :=
  foldr (fun f m => Nat.max (default 0 (AppField.position f)) m) 0 fields.

Definition restartIndex (p : t) : nat :=
  match state p with
  | ParseState.NonspaceValue | ParseState.QuotedValue | ParseState.TickValue
  | ParseState.EndValue | ParseState.EndQuotedValue | ParseState.EndTickedValue =>
      incompleteStart p
  | _ => i p
  end.

Definition inParameter (p : t) : nat :=
  match state p with
  | ParseState.StartParameter | ParseState.ParameterSeparator => 0
  | _ => 1
  end.

Definition stateRank (s : ParseState.t) : nat :=
  match s with
  | ParseState.ParameterSeparator => 8
  | ParseState.StartParameter => 7
  | ParseState.Flag1 => 6
  | ParseState.Flag => 5
  | ParseState.FlagValueSeparator => 4
  | ParseState.StartValue => 3
  | ParseState.NonspaceValue | ParseState.QuotedValue | ParseState.TickValue => 2
  | ParseState.EndValue | ParseState.EndQuotedValue | ParseState.EndTickedValue => 1
  | _ => 0
  end.

Definition parseForm_rank (fields : list AppField.t) (p : t) : nat :=
  (String.length (command p) - restartIndex p) * (maxPosition fields + 2)
  + (maxPosition fields + 1 - position p) + inParameter p.

Definition parseForm_local (p : t) : nat :=
  (String.length (command p) - i p) + stateRank (state p).

Definition parseForm_fuel (fields : list AppField.t) (p : t) : nat :=
  parseForm_rank fields p * (String.length (command p) + 9) + parseForm_local p + 1.

Definition parseForm (autocompleteMode : bool) (p : t) : t :=
  match form p with
  | None => p
  | Some frm =>
      if bool_decide (state p = ParseState.Error) then p
      else
        let fields := parseableFields (AppForm.fields frm) in
        let p0 := with_i (incompleteStart p) (with_state ParseState.StartParameter p) in
        default p0
          (parseForm_loop (parseForm_fuel fields p0) autocompleteMode fields
             (mkScan false false) p0)
  end.

End ParsedCommand.

(** ** What the parser imports *)

Record UserProfile := mkUser { user_id : string; username : string }.

Record Channel := mkChannel {
  channel_id : string;
  channel_name : string;
  display_name : string;
  team_id : string
}.

(** The result of dispatching a fetch: [{error}] or [{data}]. *)
Inductive DispatchResult (A : Type) : Type :=
| DispatchError
| DispatchData (data : A).
Arguments DispatchError {A}.
Arguments DispatchData {A} data.

Module AppCallTypes.
Inductive t := SUBMIT | FORM | LOOKUP.
End AppCallTypes.

Module AppCallResponseTypes.
(** [Other] is a response kind the parser does not know. *)
Inductive t := OK | FORM | NAVIGATE | Other (kind : string).

Definition toString (k : t) : string :=
  match k with OK => "ok" | FORM => "form" | NAVIGATE => "navigate" | Other s => s end.
End AppCallResponseTypes.

Module AppCallResponse.
(** An absent [error] reads as the empty string, absent [items] as the
    empty list. *)
Record t := mk {
  type : AppCallResponseTypes.t;
  error : string;
  form : option AppForm.t;
  items : list AppSelectOption.t
}.
End AppCallResponse.

Module AppContext.
Record t := mk {
  app_id : string;
  root_id : string;
  channel_id : option string;
  team_id : option string
}.
End AppContext.

Module AppCallRequest.
Record t := mk {
  call : AppCall.t;
  context : AppContext.t;
  values : option (gmap string AppCallValue);
  raw_command : option string;
  selected_field : option string;
  query : option string
}.
End AppCallRequest.

(** Modelled from the spec: [createCallRequest] of the dependencies module,
    which bundles the call target, the execution context and, when given,
    the value map and the command text. *)
Definition createCallRequest (call : AppCall.t) (context : AppContext.t)
    (values : option (gmap string AppCallValue)) (rawCommand : option string)
    : AppCallRequest.t :=
  AppCallRequest.mk call context values rawCommand None None.

(** What [doAppCall] resolves to: [{error}] or [{data}]. *)
Inductive DoAppCallResult : Type :=
| CallError (response : AppCallResponse.t)
| CallData (response : AppCallResponse.t).

Record AutocompleteSuggestion := mkSuggestion {
  Complete : string;
  Suggestion : Message;
  Hint : Message;
  Description : Message;
  IconData : string
}.

(** The collaborators of [app_command_parser_dependencies].  The selectors
    are read against the state of the store; the fetches are the outcome of
    dispatching the action.  [doAppCall] may answer by what was dispatched
    before. *)
Record Deps := mkDeps {
  getAppsBindings : list AppBinding.t;
  selectChannel : AppCallValue → option Channel;
  getChannel : AppCallValue → DispatchResult Channel;
  selectChannelByName : AppCallValue → option Channel;
  getChannelByNameAndTeamName : string → AppCallValue → DispatchResult (option Channel);
  getCurrentTeamId : string;
  getCurrentTeamName : string;
  selectUser : AppCallValue → option UserProfile;
  getUser : AppCallValue → DispatchResult UserProfile;
  selectUserByUsername : AppCallValue → option UserProfile;
  getUserByUsername : AppCallValue → DispatchResult UserProfile;
  doAppCall : list (AppCallRequest.t * AppCallTypes.t) →
              AppCallRequest.t → AppCallTypes.t → DoAppCallResult;
  getExecuteSuggestion : ParsedCommand.t → option AutocompleteSuggestion;
  EXECUTE_CURRENT_COMMAND_ITEM_ID : string;
  parserErrorMessage : Message → string → nat → Message
}.

(** ** The messages of the orchestrator *)

Module AppMsg.
Definition unknown : Message :=
  Formatted "apps.error.unknown" "Unknown error." [].

Definition unexpected_type (k : AppCallResponseTypes.t) : Message :=
  Formatted "apps.error.responses.unexpected_type"
    "App response type was not expected. Response type: {type}"
    [("type", Verbatim (AppCallResponseTypes.toString k))].

Definition unknown_type (k : AppCallResponseTypes.t) : Message :=
  Formatted "apps.error.responses.unknown_type"
    "App response type not supported. Response type: {type}."
    [("type", Verbatim (AppCallResponseTypes.toString k))].

Definition field_missing (fieldName : string) : Message :=
  Formatted "apps.error.command.field_missing"
    "Required fields missing: `{fieldName}`."
    [("fieldName", Verbatim fieldName)].

Definition missing_binding : Message :=
  Formatted "apps.error.parser.missing_binding" "Missing command bindings." [].

Definition missing_call : Message :=
  Formatted "apps.error.parser.missing_call" "Missing binding call." [].

Definition unknown_option (fieldName : string) (option : AppCallValue) : Message :=
  Formatted "apps.error.command.unknown_option"
    "Unknown option for field `{fieldName}`: `{option}`."
    [("fieldName", Verbatim fieldName); ("option", OfValue option)].

Definition unknown_user (fieldName : string) (option : AppCallValue) : Message :=
  Formatted "apps.error.command.unknown_user"
    "Unknown user for field `{fieldName}`: `{option}`."
    [("fieldName", Verbatim fieldName); ("option", OfValue option)].

Definition unknown_channel (fieldName : string) (option : AppCallValue) : Message :=
  Formatted "apps.error.command.unknown_channel"
    "Unknown channel for field `{fieldName}`: `{option}`."
    [("fieldName", Verbatim fieldName); ("option", OfValue option)].

Definition no_suggestion : Message :=
  Formatted "apps.suggestion.no_suggestion" "No matching suggestions." [].

Definition parser_error : Message :=
  Formatted "apps.suggestion.errors.parser_error" "Parsing error" [].

Definition no_static : Message :=
  Formatted "apps.suggestion.no_static" "No matching options." [].

Definition no_dynamic : Message :=
  Formatted "apps.suggestion.no_dynamic" "No data was returned for dynamic suggestions" [].

Definition unexpected_error : Message :=
  Formatted "apps.error.parser.unexpected_error" "Unexpected error." [].

Definition error_preparing_request (errorMessage : Message) : Message :=
  Formatted "apps.error.lookup.error_preparing_request"
    "Error preparing lookup request: {errorMessage}"
    [("errorMessage", errorMessage)].

Definition apps_error (error : Message) : Message :=
  Formatted "apps.error" "Error: {error}" [("error", error)].

Definition dynamic_error : Message :=
  Formatted "apps.suggestion.dynamic.error" "Dynamic select error" [].
End AppMsg.

(** ** The orchestrator *)

Definition newline : string := String "010"%char EmptyString.

(** [{call, errorMessage}] *)
Record CallResult := mkCallResult {
  call : option AppCallRequest.t;
  errorMessage : option Message
}.

(** [errors[name] = message] on an object whose keys are read back in the
    order they were first set. *)
Fixpoint setError (name : string) (message : Message)
    (errors : list (string * Message)) : list (string * Message) :=
  match errors with
  | [] => [(name, message)]
  | (k, m) :: r =>
      if eqb_string k name then (k, message) :: r else (k, m) :: setError name message r
  end.

(** [v[0] === c ? v.substr(1) : v] on a value taken for a string. *)
Definition stripLeading (c : ascii) (v : AppCallValue) : AppCallValue :=
  match v with
  | VStr (String d r) => if bool_decide (d = c) then VStr r else v
  | _ => v
  end.

(** [label || name] *)
Definition labelOrName (f : AppField.t) : string :=
  match AppField.label f with
  | Some l => if eqb_string l "" then AppField.name f else l
  | None => AppField.name f
  end.

Module AppCommandParser.

(** The fields of an instance, and next to them the calls dispatched so
    far through [doAppCall], oldest first. *)
Record t := mk {
  forms : gmap string AppForm.t;
  channelID : string;
  rootPostID : string;
  dispatched : list (AppCallRequest.t * AppCallTypes.t)
}.

Definition new (channelID rootPostID : string) : t := mk ∅ channelID rootPostID [].

Definition with_forms (f : gmap string AppForm.t) (st : t) : t :=
  mk f (channelID st) (rootPostID st) (dispatched st).

Definition with_dispatched (d : list (AppCallRequest.t * AppCallTypes.t)) (st : t) : t :=
  mk (forms st) (channelID st) (rootPostID st) d.

Definition setChannelContext (channel root : string) (st : t) : t :=
  mk (forms st) channel root (dispatched st).

Section WithDeps.
Variable deps : Deps.

Definition getCommandBindings : list AppBinding.t := getAppsBindings deps.

(** [store.dispatch(doAppCall(request, type, intl))] *)
Definition dispatchCall (request : AppCallRequest.t) (type : AppCallTypes.t) (st : t)
    : DoAppCallResult * t :=
  (doAppCall deps (dispatched st) request type,
   with_dispatched (dispatched st ++ [(request, type)]) st).

Definition getAppContext (appID : string) (st : t) : AppContext.t :=
  match selectChannel deps (VStr (channelID st)) with
  | None => AppContext.mk appID (rootPostID st) None None
  | Some channel =>
      AppContext.mk appID (rootPostID st) (Some (channel_id channel))
        (Some (if eqb_string (team_id channel) "" then getCurrentTeamId deps
               else team_id channel))
  end.

(** [fetchForm] retrieves the form of a binding whatever the cache holds. *)
Definition fetchForm (binding : AppBinding.t) (st : t) : option Fetched * t :=
  match AppBinding.call binding with
  | None => (None, st)
  | Some c =>
      let payload := createCallRequest c (getAppContext (AppBinding.app_id binding) st) None None in
      let '(res, st') := dispatchCall payload AppCallTypes.FORM st in
      match res with
      | CallError errorResponse =>
          (Some (mkFetched None
                   (Some (if eqb_string (AppCallResponse.error errorResponse) ""
                          then AppMsg.unknown
                          else Verbatim (AppCallResponse.error errorResponse)))), st')
      | CallData callResponse =>
          match AppCallResponse.type callResponse with
          | AppCallResponseTypes.FORM =>
              (Some (mkFetched (AppCallResponse.form callResponse) None), st')
          | AppCallResponseTypes.NAVIGATE | AppCallResponseTypes.OK =>
              (Some (mkFetched None
                       (Some (AppMsg.unexpected_type (AppCallResponse.type callResponse)))), st')
          | AppCallResponseTypes.Other _ =>
              (Some (mkFetched None
                       (Some (AppMsg.unknown_type (AppCallResponse.type callResponse)))), st')
          end
      end
  end.

Definition getForm (location : string) (binding : AppBinding.t) (st : t)
    : option Fetched * t :=
  match forms st !! location with
  | Some form => (Some (mkFetched (Some form) None), st)
  | None =>
      let '(fetched, st') := fetchForm binding st in
      match fetched ≫= fetched_form with
      | Some form => (fetched, with_forms (<[location := form]> (forms st')) st')
      | None => (fetched, st')
      end
  end.

(** *** Default and read-only values

    Every field is looked at in turn, in the order of the form, up to the
    point where it waits for a fetch; the fetched users and channels are
    written afterwards, here in the order of the fields. *)
Inductive PendingDefault : Type :=
| DefaultUser (name : string) (result : DispatchResult UserProfile)
| DefaultChannel (name : string) (result : DispatchResult Channel).

Definition defaultValue_start (f : AppField.t)
    (acc : gmap string AppCallValue * list PendingDefault)
    : gmap string AppCallValue * list PendingDefault :=
  let '(values, pending) := acc in
  let name := AppField.name f in
  if negb (truthy (AppField.value f)) then acc
  else if negb (AppField.readonly f) || hasProperty values name then acc
  else
    match AppField.type f with
    | AppFieldTypes.TEXT => (<[name := AppField.value f]> values, pending)
    | AppFieldTypes.BOOL => (<[name := VStr "true"]> values, pending)
    | AppFieldTypes.USER =>
        let userID := propValue (AppField.value f) in
        match selectUser deps userID with
        | Some user => (<[name := VStr (username user)]> values, pending)
        | None => (values, pending ++ [DefaultUser name (getUser deps userID)])
        end
    | AppFieldTypes.CHANNEL =>
        let channelID := propLabel (AppField.value f) in
        match selectChannel deps channelID with
        | Some channel => (<[name := VStr (channel_name channel)]> values, pending)
        | None => (values, pending ++ [DefaultChannel name (getChannel deps channelID)])
        end
    | AppFieldTypes.STATIC_SELECT | AppFieldTypes.DYNAMIC_SELECT =>
        (<[name := propValue (AppField.value f)]> values, pending)
    | AppFieldTypes.MARKDOWN => acc
    end.

Definition defaultValue_resume (values : gmap string AppCallValue) (pd : PendingDefault)
    : gmap string AppCallValue :=
  match pd with
  | DefaultUser name (DispatchData user) => <[name := VStr (username user)]> values
  | DefaultChannel name (DispatchData channel) => <[name := VStr (channel_name channel)]> values
  | _ => values
  end.

Definition defaultValues (fields : list AppField.t) (values : gmap string AppCallValue)
    : gmap string AppCallValue :=
  let '(values', pending) := foldl (fun acc f => defaultValue_start f acc) (values, []) fields in
  foldl defaultValue_resume values' pending.

Definition addDefaultAndReadOnlyValues (parsed : ParsedCommand.t) : ParsedCommand.t :=
  match ParsedCommand.form parsed with
  | None => parsed
  | Some form =>
      ParsedCommand.with_values
        (defaultValues (AppForm.fields form) (ParsedCommand.values parsed)) parsed
  end.

(** [getMissingFields] collects the required fields that were not supplied. *)
Definition getMissingFields (parsed : ParsedCommand.t) : list AppField.t :=
  match ParsedCommand.form parsed with
  | None => []
  | Some form =>
      List.filter
        (fun field => AppField.is_required field
                      && negb (truthy (readValue (ParsedCommand.values parsed)
                                         (AppField.name field))))
        (AppForm.fields form)
  end.

(** *** Expansion of the values

    As for the defaults: the fields in turn up to a fetch, then the
    fetched users and channels in the order of the fields. *)
Inductive PendingOption : Type :=
| OptionUser (name : string) (result : DispatchResult UserProfile)
| OptionChannel (name : string) (result : DispatchResult (option Channel)).

Definition userOption (user : UserProfile) : AppCallValue :=
  VObj (VStr (username user)) (VStr (user_id user)) None.

Definition channelOption (channel : option Channel) : AppCallValue :=
  match channel with
  | Some ch => VObj (VStr (display_name ch)) (VStr (channel_id ch)) None
  | None => VObj VUndef VUndef None
  end.

Definition expandOption_start (f : AppField.t)
    (acc : gmap string AppCallValue * list (string * Message) * list PendingOption)
    : gmap string AppCallValue * list (string * Message) * list PendingOption :=
  let '(values, errors, pending) := acc in
  let name := AppField.name f in
  let v := readValue values name in
  if negb (truthy v) then acc
  else
    match AppField.type f with
    | AppFieldTypes.DYNAMIC_SELECT =>
        (<[name := VObj (VStr "") v None]> values, errors, pending)
    | AppFieldTypes.STATIC_SELECT =>
        match List.find
                (fun o => match v with
                          | VStr s => eqb_string (AppSelectOption.value o) s
                          | _ => false
                          end)
                (AppField.options f) with
        | None => (values, setError name (AppMsg.unknown_option name v) errors, pending)
        | Some option => (<[name := AppSelectOption.toValue option]> values, errors, pending)
        end
    | AppFieldTypes.USER =>
        let userName := stripLeading "@"%char v in
        match selectUserByUsername deps userName with
        | Some user => (<[name := userOption user]> values, errors, pending)
        | None => (values, errors, pending ++ [OptionUser name (getUserByUsername deps userName)])
        end
    | AppFieldTypes.CHANNEL =>
        let channelName := stripLeading "~"%char v in
        match selectChannelByName deps channelName with
        | Some channel => (<[name := channelOption (Some channel)]> values, errors, pending)
        | None =>
            (values, errors,
             pending ++ [OptionChannel name
                           (getChannelByNameAndTeamName deps (getCurrentTeamName deps) channelName)])
        end
    | _ => acc
    end.

Definition expandOption_resume
    (acc : gmap string AppCallValue * list (string * Message)) (pd : PendingOption)
    : gmap string AppCallValue * list (string * Message) :=
  let '(values, errors) := acc in
  match pd with
  | OptionUser name DispatchError =>
      (values, setError name (AppMsg.unknown_user name (readValue values name)) errors)
  | OptionUser name (DispatchData user) => (<[name := userOption user]> values, errors)
  | OptionChannel name DispatchError =>
      (values, setError name (AppMsg.unknown_channel name (readValue values name)) errors)
  | OptionChannel name (DispatchData channel) =>
      (<[name := channelOption channel]> values, errors)
  end.

(** [expandOptions] changes the values of [parsed] in place and reports the
    errors of the fields, each followed by a line break. *)
Definition expandOptions (parsed : ParsedCommand.t) : option Message * ParsedCommand.t :=
  match ParsedCommand.form parsed with
  | None => (None, parsed)
  | Some form =>
      let '(values1, errors1, pending) :=
        foldl (fun acc f => expandOption_start f acc)
              (ParsedCommand.values parsed, [], []) (AppForm.fields form) in
      let '(values2, errors2) := foldl expandOption_resume (values1, errors1) pending in
      let parsed' := ParsedCommand.with_values values2 parsed in
      match errors2 with
      | [] => (None, parsed')
      | _ =>
          (Some (Joined (concat (List.map (fun e => [snd e; Verbatim newline]) errors2))),
           parsed')
      end
  end.

(** [composeCallFromParsed] creates the form submission call. *)
Definition composeCallFromParsed (parsed : ParsedCommand.t) (st : t)
    : CallResult * ParsedCommand.t :=
  match ParsedCommand.binding parsed with
  | None => (mkCallResult None (Some AppMsg.missing_binding), parsed)
  | Some binding =>
      match
        match ParsedCommand.form parsed ≫= AppForm.call with
        | Some c => Some c
        | None => AppBinding.call binding
        end
      with
      | None => (mkCallResult None (Some AppMsg.missing_call), parsed)
      | Some c =>
          let '(err, parsed') := expandOptions parsed in
          match err with
          | Some e => (mkCallResult None (Some e), parsed')
          | None =>
              let context := getAppContext (AppBinding.app_id binding) st in
              (mkCallResult
                 (Some (createCallRequest c context
                          (Some (ParsedCommand.values parsed'))
                          (Some (ParsedCommand.command parsed'))))
                 None,
               parsed')
          end
      end
  end.

(** [composeCallFromCommand] creates the form submission call.  The
    bindings of the store are a list, so the guard on their absence at the
    head of the source is never taken. *)
Definition composeCallFromCommand (command : string) (st : t) : CallResult * t :=
  let '(parsed1, st1) :=
    ParsedCommand.matchBinding getForm getCommandBindings false
      (ParsedCommand.new command) st in
  let parsed2 := ParsedCommand.parseForm false parsed1 in
  if bool_decide (ParsedCommand.state parsed2 = ParseState.Error)
  then (mkCallResult None
          (Some (parserErrorMessage deps (ParsedCommand.error parsed2)
                   (ParsedCommand.command parsed2) (ParsedCommand.i parsed2))), st1)
  else
    let parsed3 := addDefaultAndReadOnlyValues parsed2 in
    match getMissingFields parsed3 with
    | [] => (fst (composeCallFromParsed parsed3 st1), st1)
    | missing =>
        let missingStr := join ", " (List.map (fun f => default "" (AppField.label f)) missing) in
        (mkCallResult None (Some (AppMsg.field_missing missingStr)), st1)
    end.

(** [base[0] !== '/' ? '/' + base : base] *)
Definition withSlash (base : string) : string :=
  match base with
  | String c _ => if bool_decide (c = "/"%char) then base else String "/"%char base
  | EmptyString => String "/"%char base
  end.

(** [isAppCommand] determines if subcommand or form suggestions need to be
    returned. *)
Definition isAppCommand (pretext : string) : bool :=
  let command := toLowerCase pretext in
  existsb
    (fun binding =>
       let base := AppBinding.label binding in
       if eqb_string base "" then false
       else startsWith command (withSlash base +:+ " "))
    getCommandBindings.

(** [getSuggestionsBase] returns the suggestions for the base commands:
    the bindings whose label, with its slash, begins with what was typed. *)
Definition getSuggestionsBase (pretext : string) : list AutocompleteSuggestion :=
  let command := toLowerCase pretext in
  foldl
    (fun result binding =>
       let base := AppBinding.label binding in
       if eqb_string base "" then result
       else if startsWith (withSlash base) command
       then result ++ [mkSuggestion (AppBinding.label binding) (Verbatim (withSlash base))
                         (Verbatim (AppBinding.hint binding))
                         (Verbatim (AppBinding.description binding))
                         (AppBinding.icon binding)]
       else result)
    [] getCommandBindings.

(** *** Suggestions *)

Definition bindingIcon (parsed : ParsedCommand.t) : string :=
  match ParsedCommand.binding parsed with
  | Some b => AppBinding.icon b
  | None => ""
  end.

Definition getNoMatchingSuggestion : list AutocompleteSuggestion :=
  [mkSuggestion "" (Verbatim "") AppMsg.no_suggestion (Verbatim "") "error"].

Definition getErrorSuggestion (parsed : ParsedCommand.t) : list AutocompleteSuggestion :=
  [mkSuggestion "" (Verbatim "") AppMsg.parser_error (ParsedCommand.error parsed) "error"].

(** [decorateSuggestionComplete] puts the text of the command in front of
    the completion of a suggestion. *)
Definition decorateSuggestionComplete (parsed : ParsedCommand.t)
    (choice : AutocompleteSuggestion) : AutocompleteSuggestion :=
  if negb (eqb_string (Complete choice) "")
     && endsWith (Complete choice) (EXECUTE_CURRENT_COMMAND_ITEM_ID deps)
  then choice
  else
    let goBackSpace := if eqb_string (Complete choice) "" then 1 else 0 in
    let complete :=
      substring_to (ParsedCommand.incompleteStart parsed - goBackSpace)
        (ParsedCommand.command parsed) +:+ Complete choice in
    mkSuggestion (substring_from 1 complete) (Suggestion choice) (Hint choice)
      (Description choice) (IconData choice).

(** [getCommandSuggestions] returns suggestions for the name of a
    subcommand. *)
Definition getCommandSuggestions (parsed : ParsedCommand.t) : list AutocompleteSuggestion :=
  match ParsedCommand.binding parsed with
  | None => []
  | Some binding =>
      List.map
        (fun b => mkSuggestion (AppBinding.label b) (Verbatim (AppBinding.label b))
                    (Verbatim (AppBinding.hint b)) (Verbatim (AppBinding.description b))
                    (AppBinding.icon b))
        (List.filter
           (fun b => startsWith (toLowerCase (AppBinding.label b))
                       (toLowerCase (ParsedCommand.incomplete parsed)))
           (AppBinding.bindings binding))
  end.

(** The dashes already typed in front of the flag name: none, one or two
    of the two dashes are left to complete. *)
Definition flagPrefix (parsed : ParsedCommand.t) : string :=
  let start := ParsedCommand.incompleteStart parsed in
  let dashAt k :=
    (0 <? k)%nat && bool_decide (charAt (ParsedCommand.command parsed) k = Some "-"%char) in
  if (1 <=? start)%nat && dashAt (start - 1)
  then if (2 <=? start)%nat && dashAt (start - 2) then "" else "-"
  else "--".

(** The filter of [getFlagNameSuggestions]. *)
Definition flagApplicable (parsed : ParsedCommand.t) (field : AppField.t) : bool :=
  match AppField.label field with
  | Some l =>
      negb (eqb_string l "")
      && startsWith (toLowerCase l) (toLowerCase (ParsedCommand.incomplete parsed))
      && negb (truthy (readValue (ParsedCommand.values parsed) (AppField.name field)))
  | None => false
  end.

(** [getFlagNameSuggestions] returns suggestions for flag names. *)
Definition getFlagNameSuggestions (parsed : ParsedCommand.t) : list AutocompleteSuggestion :=
  match ParsedCommand.form parsed with
  | None => []
  | Some form =>
      let prefix := flagPrefix parsed in
      List.map
        (fun f => mkSuggestion (prefix +:+ labelOrName f)
                    (Verbatim ("--" +:+ labelOrName f))
                    (Verbatim (AppField.hint f)) (Verbatim (AppField.description f))
                    (bindingIcon parsed))
        (List.filter (flagApplicable parsed) (AppForm.fields form))
  end.

Definition isMultiword (value : string) : bool :=
  includesChar " "%char value || includesChar "009"%char value.

(** [delimiter + complete + delimiter], and a multiword value between
    ticks when there is no delimiter. *)
Definition delimited (delimiter : option ascii) (value : string) : string :=
  match delimiter with
  | Some d => String d (push value d)
  | None => if isMultiword value then String backtick (push value backtick) else value
  end.

Definition getStaticSelectSuggestions (parsed : ParsedCommand.t) (f : AppField.t)
    (delimiter : option ascii) : list AutocompleteSuggestion :=
  let opts :=
    List.filter
      (fun opt => startsWith (toLowerCase (AppSelectOption.label opt))
                    (toLowerCase (ParsedCommand.incomplete parsed)))
      (AppField.options f) in
  match opts with
  | [] => [mkSuggestion "" (Verbatim "") AppMsg.no_static (Verbatim "") "error"]
  | _ =>
      List.map
        (fun opt =>
           mkSuggestion (delimited delimiter (AppSelectOption.value opt))
             (Verbatim (AppSelectOption.label opt))
             (Verbatim (AppField.hint f)) (Verbatim (AppField.description f))
             (match AppSelectOption.icon_data opt with
              | Some ic => if eqb_string ic "" then bindingIcon parsed else ic
              | None => bindingIcon parsed
              end))
        opts
  end.

Definition makeDynamicSelectSuggestionError (message : Message) : list AutocompleteSuggestion :=
  [mkSuggestion "" AppMsg.dynamic_error (Verbatim "") (AppMsg.apps_error message) "error"].

(** [getDynamicSelectSuggestions] fetches suggestions from the server. *)
Definition getDynamicSelectSuggestions (parsed : ParsedCommand.t) (f : AppField.t)
    (delimiter : option ascii) (st : t)
    : list AutocompleteSuggestion * ParsedCommand.t * t :=
  let '(composed, parsed') := composeCallFromParsed parsed st in
  match call composed with
  | None =>
      (makeDynamicSelectSuggestionError
         (AppMsg.error_preparing_request (default (Verbatim "") (errorMessage composed))),
       parsed', st)
  | Some c =>
      let request :=
        AppCallRequest.mk (AppCallRequest.call c) (AppCallRequest.context c)
          (AppCallRequest.values c) (AppCallRequest.raw_command c)
          (Some (AppField.name f)) (Some (ParsedCommand.incomplete parsed')) in
      let '(res, st') := dispatchCall request AppCallTypes.LOOKUP st in
      match res with
      | CallError errorResponse =>
          (makeDynamicSelectSuggestionError
             (if eqb_string (AppCallResponse.error errorResponse) "" then AppMsg.unknown
              else Verbatim (AppCallResponse.error errorResponse)),
           parsed', st')
      | CallData callResponse =>
          match AppCallResponse.type callResponse with
          | AppCallResponseTypes.OK =>
              match AppCallResponse.items callResponse with
              | [] =>
                  ([mkSuggestion "" (Verbatim "") AppMsg.no_static AppMsg.no_dynamic ""],
                   parsed', st')
              | items =>
                  (List.map
                     (fun s =>
                        mkSuggestion (delimited delimiter (AppSelectOption.value s))
                          (Verbatim (AppSelectOption.value s)) (Verbatim "")
                          (Verbatim (AppSelectOption.label s))
                          (match AppSelectOption.icon_data s with
                           | Some ic => if eqb_string ic "" then bindingIcon parsed' else ic
                           | None => bindingIcon parsed'
                           end))
                     items,
                   parsed', st')
              end
          | AppCallResponseTypes.NAVIGATE | AppCallResponseTypes.FORM =>
              (makeDynamicSelectSuggestionError
                 (AppMsg.unexpected_type (AppCallResponse.type callResponse)), parsed', st')
          | AppCallResponseTypes.Other _ =>
              (makeDynamicSelectSuggestionError
                 (AppMsg.unknown_type (AppCallResponse.type callResponse)), parsed', st')
          end
      end
  end.

(** A hint while the user has not started typing, nothing afterwards. *)
Definition getUserSuggestions (parsed : ParsedCommand.t) (f : AppField.t)
    : list AutocompleteSuggestion :=
  if trimIsEmpty (ParsedCommand.incomplete parsed)
  then [mkSuggestion "" (Verbatim "")
          (Verbatim (if eqb_string (AppField.hint f) "" then "@username" else AppField.hint f))
          (Verbatim (AppField.description f)) (bindingIcon parsed)]
  else [].

Definition getChannelSuggestions (parsed : ParsedCommand.t) (f : AppField.t)
    : list AutocompleteSuggestion :=
  if trimIsEmpty (ParsedCommand.incomplete parsed)
  then [mkSuggestion "" (Verbatim "")
          (Verbatim (if eqb_string (AppField.hint f) "" then "~channelname" else AppField.hint f))
          (Verbatim (AppField.description f)) (bindingIcon parsed)]
  else [].

Definition getBooleanSuggestions (parsed : ParsedCommand.t) (f : AppField.t)
    : list AutocompleteSuggestion :=
  let one word :=
    if startsWith word (ParsedCommand.incomplete parsed)
    then [mkSuggestion word (Verbatim word) (Verbatim (AppField.hint f))
            (Verbatim (AppField.description f)) (bindingIcon parsed)]
    else [] in
  one "true" ++ one "false".

(** [getValueSuggestions] gets suggestions for the value of a positional or
    flag field. *)
Definition getValueSuggestions (parsed : ParsedCommand.t) (delimiter : option ascii) (st : t)
    : list AutocompleteSuggestion * ParsedCommand.t * t :=
  match ParsedCommand.field parsed with
  | None => ([], parsed, st)
  | Some f =>
      match AppField.type f with
      | AppFieldTypes.USER => (getUserSuggestions parsed f, parsed, st)
      | AppFieldTypes.CHANNEL => (getChannelSuggestions parsed f, parsed, st)
      | AppFieldTypes.BOOL => (getBooleanSuggestions parsed f, parsed, st)
      | AppFieldTypes.DYNAMIC_SELECT => getDynamicSelectSuggestions parsed f delimiter st
      | AppFieldTypes.STATIC_SELECT => (getStaticSelectSuggestions parsed f delimiter, parsed, st)
      | AppFieldTypes.TEXT | AppFieldTypes.MARKDOWN =>
          let incomplete := ParsedCommand.incomplete parsed in
          let complete :=
            match delimiter with
            | Some d => if eqb_string incomplete "" then incomplete else String d (push incomplete d)
            | None => incomplete
            end in
          let d := String (default dquote delimiter) EmptyString in
          ([mkSuggestion complete
              (Verbatim (labelOrName f +:+ ": " +:+ d +:+ incomplete +:+ d))
              (Verbatim "") (Verbatim (AppField.description f)) (bindingIcon parsed)],
           parsed, st)
      end
  end.

(** [getParameterSuggestions] computes suggestions for positional argument
    values, flag names, and flag argument values. *)
Definition getParameterSuggestions (parsed : ParsedCommand.t) (st : t)
    : list AutocompleteSuggestion * ParsedCommand.t * t :=
  match ParsedCommand.state parsed with
  | ParseState.StartParameter =>
      match ParsedCommand.form parsed ≫=
            (fun form => ParsedCommand.findPositional (AppForm.fields form)
                           (ParsedCommand.position parsed + 1)) with
      | Some positional =>
          getValueSuggestions (ParsedCommand.with_field (Some positional) parsed) None st
      | None => (getFlagNameSuggestions parsed, parsed, st)
      end
  | ParseState.Flag => (getFlagNameSuggestions parsed, parsed, st)
  | ParseState.EndValue | ParseState.FlagValueSeparator | ParseState.NonspaceValue =>
      getValueSuggestions parsed None st
  | ParseState.EndQuotedValue | ParseState.QuotedValue =>
      getValueSuggestions parsed (Some dquote) st
  | ParseState.EndTickedValue | ParseState.TickValue =>
      getValueSuggestions parsed (Some backtick) st
  | _ => ([], parsed, st)
  end.

Definition executableStates : list ParseState.t :=
  [ParseState.EndCommand; ParseState.CommandSeparator; ParseState.StartParameter;
   ParseState.ParameterSeparator; ParseState.EndValue].

(** [form?.call || binding?.call || binding?.form?.call] is defined. *)
Definition hasCall (parsed : ParsedCommand.t) : bool :=
  bool_decide (is_Some (ParsedCommand.form parsed ≫= AppForm.call))
  || bool_decide (is_Some (ParsedCommand.binding parsed ≫= AppBinding.call))
  || bool_decide (is_Some ((ParsedCommand.binding parsed ≫= AppBinding.form) ≫= AppForm.call)).

Definition hasRequired (parsed : ParsedCommand.t) : bool :=
  match getMissingFields parsed with [] => true | _ => false end.

Definition hasValue (parsed : ParsedCommand.t) : bool :=
  negb (bool_decide (ParsedCommand.state parsed = ParseState.EndValue))
  || match ParsedCommand.field parsed with
     | Some f =>
         match readValue (ParsedCommand.values parsed) (AppField.name f) with
         | VUndef => false
         | _ => true
         end
     | None => false
     end.

(** The current field is a user or a channel reference. *)
Definition awaitsMention (parsed : ParsedCommand.t) : bool :=
  match ParsedCommand.field parsed with
  | Some f =>
      bool_decide (AppField.type f = AppFieldTypes.USER)
      || bool_decide (AppField.type f = AppFieldTypes.CHANNEL)
  | None => false
  end.

Definition executable (parsed : ParsedCommand.t) : bool :=
  bool_decide (ParsedCommand.state parsed ∈ executableStates)
  && hasCall parsed && hasRequired parsed && hasValue parsed.

(** The tokenizer part of [getSuggestions]: the suggestions gathered before
    the execute and the placeholder suggestions are considered, and the
    cursor they were gathered from. *)
Definition gatherSuggestions (pretext : string) (st : t)
    : list AutocompleteSuggestion * ParsedCommand.t * t :=
  let '(parsed1, st1) :=
    ParsedCommand.matchBinding getForm getCommandBindings true
      (ParsedCommand.new pretext) st in
  let suggestions1 :=
    if bool_decide (ParsedCommand.state parsed1 = ParseState.Error)
    then getErrorSuggestion parsed1 else [] in
  let suggestions2 :=
    if bool_decide (ParsedCommand.state parsed1 = ParseState.Command)
    then getCommandSuggestions parsed1 else suggestions1 in
  if bool_decide (is_Some (ParsedCommand.form parsed1))
     || negb (eqb_string (ParsedCommand.incomplete parsed1) "")
  then
    let parsed2 := ParsedCommand.parseForm true parsed1 in
    let suggestions3 :=
      if bool_decide (ParsedCommand.state parsed2 = ParseState.Error)
      then getErrorSuggestion parsed2 else suggestions2 in
    let '(argSuggestions, parsed3, st3) := getParameterSuggestions parsed2 st1 in
    (suggestions3 ++ argSuggestions, parsed3, st3)
  else (suggestions2, parsed1, st1).

(** [getSuggestions] returns suggestions for subcommands and form
    arguments.  The bindings of the store are a list, so the guard on
    their absence at the head of the source is never taken. *)
Definition getSuggestions (pretext : string) (st : t) : list AutocompleteSuggestion * t :=
  let '(suggestions, parsed, st') := gatherSuggestions pretext st in
  let suggestions' :=
    if executable parsed
    then match getExecuteSuggestion deps parsed with
         | Some execute => execute :: suggestions
         | None => suggestions
         end
    else if bool_decide (suggestions = []) && negb (awaitsMention parsed)
    then getNoMatchingSuggestion
    else suggestions in
  (List.map (decorateSuggestionComplete parsed) suggestions', st').

End WithDeps.
End AppCommandParser.

(** ** Runs of the two loops *)

(** The cursor of [matchBinding] gets from one turn of its loop to a later
    one. *)
Inductive walkReaches (autocompleteMode : bool)
    : list AppBinding.t * ParsedCommand.t → list AppBinding.t * ParsedCommand.t → Prop :=
| walk_here x : walkReaches autocompleteMode x x
| walk_turn bs p x y :
    ParsedCommand.matchBinding_turn autocompleteMode bs p = Again x →
    walkReaches autocompleteMode x y →
    walkReaches autocompleteMode (bs, p) y.

(** The same for the loop of [parseForm]. *)
Inductive scanReaches (autocompleteMode : bool) (fields : list AppField.t)
    : ParsedCommand.Scan * ParsedCommand.t → ParsedCommand.Scan * ParsedCommand.t → Prop :=
| scan_here x : scanReaches autocompleteMode fields x x
| scan_turn sc p x y :
    ParsedCommand.parseForm_turn autocompleteMode fields sc p = Again x →
    scanReaches autocompleteMode fields x y →
    scanReaches autocompleteMode fields (sc, p) y.

(** The cursor [parseForm] starts its loop from. *)
Definition parseForm_start (p : ParsedCommand.t) : ParsedCommand.t :=
  ParsedCommand.with_i (ParsedCommand.incompleteStart p)
    (ParsedCommand.with_state ParseState.StartParameter p).

(** What decreases along the loop of [matchBinding]: the characters left,
    and within one character the way through Command, EndCommand and
    CommandSeparator. *)
Definition walkRank (p : ParsedCommand.t) : nat :=
  match ParsedCommand.state p with
  | ParseState.Start => 3
  | ParseState.Command =>
      match ParsedCommand.current p with
      | Some ch => if isBlank ch then 3 else 0
      | None => 3
      end
  | ParseState.EndCommand => 2
  | ParseState.CommandSeparator => 1
  | _ => 0
  end.

Definition walkMeasure (p : ParsedCommand.t) : nat :=
  4 * (String.length (ParsedCommand.command p) - ParsedCommand.i p) + walkRank p.

(** The states of the loop of [matchBinding] past the slash. *)
Definition walking (s : ParseState.t) : bool :=
  match s with
  | ParseState.Command | ParseState.EndCommand | ParseState.CommandSeparator => true
  | _ => false
  end.

(** The states the loop of [parseForm] moves through, and those among
    them in which a value is being read. *)
Definition scanState (s : ParseState.t) : bool :=
  match s with
  | ParseState.Start | ParseState.Command | ParseState.EndCommand
  | ParseState.CommandSeparator | ParseState.Error => false
  | _ => true
  end.

Definition inValue (s : ParseState.t) : bool :=
  match s with
  | ParseState.NonspaceValue | ParseState.QuotedValue | ParseState.TickValue
  | ParseState.EndValue | ParseState.EndQuotedValue | ParseState.EndTickedValue => true
  | _ => false
  end.

(** What holds of the cursor all along the loop of [parseForm]: while a
    value is read the cursor is not left of the start of the value. *)
Definition scanInvariant (p : ParsedCommand.t) : Prop :=
  scanState (ParsedCommand.state p) = true
  ∧ (inValue (ParsedCommand.state p) = true →
     (ParsedCommand.incompleteStart p ≤ ParsedCommand.i p)%nat).

(** What a quoted value keeps of the text between its quotes: the
    backslashes are passed over. *)
Fixpoint dropBackslashes (s : string) : string :=
  match s with
  | EmptyString => EmptyString
  | String c r =>
      if bool_decide (c = backslash) then dropBackslashes r
      else String c (dropBackslashes r)
  end.

(** ** A sample schema

    A store without users and channels whose server answers every call
    with an error, and a command [cmd] with a form. *)
Module Sample.

Definition depsWith (bindings : list AppBinding.t) (answer : DoAppCallResult) : Deps :=
  mkDeps bindings
    (fun _ => None) (fun _ => DispatchError) (fun _ => None) (fun _ _ => DispatchError)
    "team" "teamname"
    (fun _ => None) (fun _ => DispatchError) (fun _ => None) (fun _ => DispatchError)
    (fun _ _ _ => answer)
    (fun _ => None) "_execute_current_command" (fun m _ _ => m).

Definition deps (bindings : list AppBinding.t) : Deps :=
  depsWith bindings (CallError (AppCallResponse.mk AppCallResponseTypes.OK "" None [])).

Definition parser : AppCommandParser.t := AppCommandParser.new "channel" "".

Definition field (name : string) (type : AppFieldTypes.t) (position : option nat)
    (is_required : bool) : AppField.t :=
  AppField.mk name type is_required false VUndef "" (Some name) "" position [].

Definition cmd (fields : list AppField.t) : AppBinding.t :=
  AppBinding.mk "app" "cmd" "" "" ""
    (Some (AppForm.mk fields (Some (AppCall.mk "/cmd")))) [] None.

(** A command without a form of its own: the form is fetched. *)
Definition remote : AppBinding.t :=
  AppBinding.mk "app" "remote" "" "" "" None [] (Some (AppCall.mk "/remote")).

(** The form of [cmd]. *)
Definition form (fields : list AppField.t) : AppForm.t :=
  AppForm.mk fields (Some (AppCall.mk "/cmd")).

(** A text at position 1; a boolean flag and a text flag. *)
Definition positional : list AppField.t := [field "msg" AppFieldTypes.TEXT (Some 1) false].

Definition flags : list AppField.t :=
  [field "done" AppFieldTypes.BOOL None false; field "user" AppFieldTypes.TEXT None false].

(** The cursor after [matchBinding], with [cmd] as the only command. *)
Definition matched (fields : list AppField.t) (autocompleteMode : bool) (command : string)
    : ParsedCommand.t :=
  (ParsedCommand.matchBinding (AppCommandParser.getForm (deps []))
     [cmd fields] autocompleteMode (ParsedCommand.new command) parser).1.

(** [quoted d s] is the text [s] between two delimiters [d]. *)
Definition quoted (d : ascii) (s : string) : string := String d (push s d).

(** A command whose double quote is not closed. *)
Definition unclosed : string := "/cmd " +:+ String dquote "abc".

(** The command [/cmd] followed by a double quote, the letter a, a
    backslash and a double quote: the one double quote after the opening
    one comes after a backslash. *)
Definition escaped : string :=
  "/cmd " +:+ String dquote ("a" +:+ String backslash (String dquote "")).

(** A flag whose value is a backslash between double quotes, then the two
    dashes of a further flag. *)
Definition emptied : string :=
  "/cmd --user " +:+ quoted dquote (String backslash "") +:+ " --".

(** A binding without a label. *)
Definition unlabelled : AppBinding.t := AppBinding.mk "app" "" "" "" "" None [] None.

(** A user at position 1. *)
Definition mention : list AppField.t := [field "who" AppFieldTypes.USER (Some 1) false].

(** A single text flag. *)
Definition single : list AppField.t := [field "user" AppFieldTypes.TEXT None false].

(** A required text flag. *)
Definition required : list AppField.t := [field "summary" AppFieldTypes.TEXT None true].

(** A required text flag under a name that every object inherits. *)
Definition inheritedName : list AppField.t :=
  [field "toString" AppFieldTypes.TEXT None true].

(** Two required text flags, a text flag that is not required between
    them. *)
Definition requiredPair : list AppField.t :=
  [field "first" AppFieldTypes.TEXT None true;
   field "note" AppFieldTypes.TEXT None false;
   field "second" AppFieldTypes.TEXT None true].

(** A server that answers every call with the form of [cmd]. *)
Definition serving : Deps :=
  depsWith [remote]
    (CallData (AppCallResponse.mk AppCallResponseTypes.FORM "" (Some (form positional)) [])).


(** The cursor after one dash and the first letter of a flag have been
    typed. *)
Definition dashed : ParsedCommand.t :=
  ParsedCommand.parseForm true (matched flags true "/cmd -u").

(** A command whose label has an upper-case letter. *)
Definition jira : AppBinding.t :=
  AppBinding.mk "app" "Jira" "" "" "" (Some (form positional)) [] None.

(** A flag to choose a colour, with red as the only option. *)
Definition choice : list AppField.t :=
  [AppField.mk "color" AppFieldTypes.STATIC_SELECT false false VUndef "" (Some "color") "" None
     [AppSelectOption.mk "Red" "red" None]].

(** A text at position 1, a text flag and a boolean flag. *)
Definition mixed : list AppField.t :=
  [field "msg" AppFieldTypes.TEXT (Some 1) false; field "user" AppFieldTypes.TEXT None false;
   field "done" AppFieldTypes.BOOL None false].


(** A command with a sub-command that has the form [mixed]. *)
Definition leaf : AppBinding.t :=
  AppBinding.mk "app" "create" "" "" "" (Some (form mixed)) [] None.

Definition tree : AppBinding.t := AppBinding.mk "app" "issue" "" "" "" None [leaf] None.

(** A read-only text with a default value. *)
Definition preset : AppField.t :=
  AppField.mk "team" AppFieldTypes.TEXT false true (VStr "core") "" (Some "team") "" None [].

End Sample.

(** ** What is done with one parser, one call after the other *)

Inductive Operation : Type :=
| GetForm (location : string) (binding : AppBinding.t)
| ComposeCallFromCommand (command : string)
| GetSuggestions (pretext : string)
| SetChannelContext (channelID rootPostID : string).

Definition perform (deps : Deps) (st : AppCommandParser.t) (op : Operation)
    : AppCommandParser.t :=
  match op with
  | GetForm location binding => (AppCommandParser.getForm deps location binding st).2
  | ComposeCallFromCommand command => (AppCommandParser.composeCallFromCommand deps command st).2
  | GetSuggestions pretext => (AppCommandParser.getSuggestions deps pretext st).2
  | SetChannelContext channelID rootPostID =>
      AppCommandParser.setChannelContext channelID rootPostID st
  end.

Definition session (deps : Deps) (ops : list Operation) (st : AppCommandParser.t)
    : AppCommandParser.t :=
  foldl (perform deps) st ops.

(** ** The claims as worded, where the code is compared with them *)

(** The lower-cased pretext starts with the label of some binding, with a
    slash in front if the label has none, and a space. *)
Definition startsWithSomeLabel (bindings : list AppBinding.t) (pretext : string) : Prop :=
  ∃ b, b ∈ bindings
       ∧ startsWith (toLowerCase pretext) (AppCommandParser.withSlash (AppBinding.label b) +:+ " ")
         = true.

(** The suggestion [getFlagNameSuggestions] makes of a field. *)
Definition flagSuggestion (parsed : ParsedCommand.t) (f : AppField.t) : AutocompleteSuggestion :=
  mkSuggestion (AppCommandParser.flagPrefix parsed +:+ labelOrName f)
    (Verbatim ("--" +:+ labelOrName f))
    (Verbatim (AppField.hint f)) (Verbatim (AppField.description f))
    (AppCommandParser.bindingIcon parsed).

(** ** Paths of bindings and slices of the command *)

(** [s.substring(a, b)] for [a] not beyond [b] *)
Definition substring_between (a b : nat) (s : string) : string :=
  String.substring a (b - a) s.

(** A chain of bindings: the first is among [bindings], each further one
    among the sub-bindings of the one before. *)
Inductive bindingPath : list AppBinding.t → list AppBinding.t → Prop :=
| path_end bindings : bindingPath bindings []
| path_step bindings b rest :
    b ∈ bindings →
    bindingPath (AppBinding.bindings b) rest →
    bindingPath bindings (b :: rest).

(** The labels of a chain, each after a slash. *)
Definition pathLocation (path : list AppBinding.t) : string :=
  foldl (fun acc b => acc +:+ "/" +:+ AppBinding.label b) "" path.

(** The bindings a further token is looked up in, once a chain is
    matched. *)
Definition candidatesAfter (bindings : list AppBinding.t) (path : list AppBinding.t)
    : list AppBinding.t :=
  match last path with
  | Some b => AppBinding.bindings b
  | None => bindings
  end.

(** The cursor along the loop of [matchBinding]: the token read so far is
    the text from [incompleteStart] to [i]. *)
Definition walkToken (command : string) (p : ParsedCommand.t) : Prop :=
  ParsedCommand.command p = command
  ∧ match ParsedCommand.state p with
    | ParseState.Start =>
        ParsedCommand.i p = 0 ∧ ParsedCommand.incompleteStart p = 0
        ∧ ParsedCommand.incomplete p = ""
    | ParseState.Command | ParseState.EndCommand =>
        (ParsedCommand.incompleteStart p ≤ ParsedCommand.i p)%nat
        ∧ (ParsedCommand.i p ≤ String.length command)%nat
        ∧ ParsedCommand.incomplete p
          = substring_between (ParsedCommand.incompleteStart p) (ParsedCommand.i p) command
    | ParseState.CommandSeparator => (ParsedCommand.i p ≤ String.length command)%nat
    | _ => False
    end.

Definition tokenRead (command : string) (r : ParsedCommand.t) : Prop :=
  ParsedCommand.command r = command
  ∧ (ParsedCommand.incompleteStart r ≤ ParsedCommand.i r)%nat
  ∧ (ParsedCommand.i r ≤ String.length command)%nat
  ∧ ParsedCommand.incomplete r
    = substring_between (ParsedCommand.incompleteStart r) (ParsedCommand.i r) command
  ∧ ParsedCommand.state r
    ∈ [ParseState.Command; ParseState.EndCommand; ParseState.Error].

(** The cursor over the command in lower case: the text read and the
    token are in lower case, the rest is the same. *)
Definition lowerCased (p : ParsedCommand.t) : ParsedCommand.t :=
  ParsedCommand.mk (ParsedCommand.state p) (toLowerCase (ParsedCommand.command p))
    (ParsedCommand.i p) (toLowerCase (ParsedCommand.incomplete p))
    (ParsedCommand.incompleteStart p) (ParsedCommand.binding p) (ParsedCommand.form p)
    (ParsedCommand.field p) (ParsedCommand.position p) (ParsedCommand.values p)
    (ParsedCommand.location p) (ParsedCommand.error p).

(** The states of [parseForm] in which the field of the parameter at hand
    has been found. *)
Definition fieldKnown (s : ParseState.t) : bool :=
  match s with
  | ParseState.FlagValueSeparator | ParseState.StartValue
  | ParseState.NonspaceValue | ParseState.QuotedValue | ParseState.TickValue
  | ParseState.EndValue | ParseState.EndQuotedValue | ParseState.EndTickedValue => true
  | _ => false
  end.

(** What [parseForm] keeps of the cursor [p] it starts from, along its
    loop: the command, the binding, the form and the location; the values
    under the names that are not names of the fields it parses; and the
    field at hand is one of these fields. *)
Definition scanFrame (fields : list AppField.t) (p q : ParsedCommand.t) : Prop :=
  ParsedCommand.command q = ParsedCommand.command p
  ∧ ParsedCommand.binding q = ParsedCommand.binding p
  ∧ ParsedCommand.form q = ParsedCommand.form p
  ∧ ParsedCommand.location q = ParsedCommand.location p
  ∧ (∀ k, k ∉ List.map AppField.name fields →
       ParsedCommand.values q !! k = ParsedCommand.values p !! k)
  ∧ (fieldKnown (ParsedCommand.state q) = true →
     ∃ f, ParsedCommand.field q = Some f ∧ f ∈ fields).

(** ** The text under the cursor *)

(** What is left of the command from the cursor on. *)
Definition remaining (p : ParsedCommand.t) : string :=
  substring_from (ParsedCommand.i p) (ParsedCommand.command p).

(** Every character of [s] passes [test]. *)
Fixpoint allChars (test : ascii → bool) (s : string) : bool :=
  match s with
  | EmptyString => true
  | String c r => test c && allChars test r
  end.

(** The cursor after the characters of [read] have been passed over and
    those of [token] added to [incomplete]. *)
Definition advanced (read token : string) (p : ParsedCommand.t) : ParsedCommand.t :=
  ParsedCommand.with_i (ParsedCommand.i p + String.length read)
    (ParsedCommand.with_incomplete (ParsedCommand.incomplete p +:+ token) p).

(** The characters of a flag name, of a value without delimiters, and of
    a value between two delimiters [d]. *)
Definition flagChar (c : ascii) : bool :=
  negb (isBlank c || bool_decide (c = "="%char)).

Definition valueChar (c : ascii) : bool := negb (isBlank c).


(** The state after the closing delimiter [d]. *)
Definition closedState (d : ascii) : ParseState.t :=
  if bool_decide (d = dquote) then ParseState.EndQuotedValue else ParseState.EndTickedValue.

(** What is kept of the text between two delimiters [d]. *)
Definition content (d : ascii) (v : string) : string :=
  if bool_decide (d = dquote) then dropBackslashes v else v.

(** The cursor [q] at the start of a value, after the value [v] between
    two delimiters [d] has been read. *)
Definition closedValue (d : ascii) (v : string) (q : ParsedCommand.t) : ParsedCommand.t :=
  ParsedCommand.with_state (closedState d)
    (ParsedCommand.with_i (ParsedCommand.i q + String.length v + 2)
       (ParsedCommand.with_incomplete (content d v)
          (ParsedCommand.with_incompleteStart (ParsedCommand.i q) q))).

(** The cursor [q] at the end of a value, after the value has been bound
    to the field [f]. *)
Definition boundValue (f : AppField.t) (q : ParsedCommand.t) : ParsedCommand.t :=
  ParsedCommand.with_incompleteStart (ParsedCommand.i q)
    (ParsedCommand.with_incomplete ""
       (ParsedCommand.setValue (AppField.name f) (VStr (ParsedCommand.incomplete q)) q)).

(** The cursor [q] at the start of a parameter, after the dashes and the
    name of a flag ([read] characters in all) have been read. *)
Definition flagRead (read : nat) (name : string) (q : ParsedCommand.t) : ParsedCommand.t :=
  ParsedCommand.with_i (ParsedCommand.i q + read)
    (ParsedCommand.with_incomplete name
       (ParsedCommand.with_incompleteStart (ParsedCommand.i q + read - String.length name)
          (ParsedCommand.with_state ParseState.Flag q))).

(** The cursor [q] at the start of a parameter, after a flag of the field
    [f] and the separator that follows it ([read] characters in all) have
    been read: the value starts here. *)
Definition flagSelected (f : AppField.t) (read : nat) (q : ParsedCommand.t) : ParsedCommand.t :=
  ParsedCommand.with_state ParseState.StartValue
    (ParsedCommand.with_incompleteStart (ParsedCommand.i q + read)
       (ParsedCommand.with_i (ParsedCommand.i q + read)
          (ParsedCommand.with_incomplete ""
             (ParsedCommand.with_field (Some f) q)))).

(** What may stand between a flag and its value: blanks, with at most one
    equals sign among them. *)
Definition separator (sep : string) : Prop :=
  ∃ before after,
    allChars isBlank before = true ∧ allChars isBlank after = true
    ∧ (sep = before ∨ sep = before +:+ String "="%char after).

(** The cursor [q] at the start of a value, after the value [token]
    without delimiters has been read. *)
Definition plainValue (token : string) (q : ParsedCommand.t) : ParsedCommand.t :=
  ParsedCommand.with_state ParseState.EndValue
    (ParsedCommand.with_i (ParsedCommand.i q + String.length token)
       (ParsedCommand.with_incomplete token
          (ParsedCommand.with_incompleteStart (ParsedCommand.i q) q))).

(** The field a fetched default is written to. *)
Definition defaultName (pd : AppCommandParser.PendingDefault) : string :=
  match pd with
  | AppCommandParser.DefaultUser name _ | AppCommandParser.DefaultChannel name _ => name
  end.

(** [k] is the name of a read-only field of [fields] that has a default
    value. *)
Definition hasDefault (fields : list AppField.t) (k : string) : Prop :=
  ∃ f, f ∈ fields ∧ AppField.name f = k ∧ AppField.readonly f = true
       ∧ truthy (AppField.value f) = true.

(** The values under way in [addDefaultAndReadOnlyValues], against those
    it started from: what was there is there, and what differs is under
    the name of a read-only field with a default. *)
Definition defaultsOnly (fields : list AppField.t) (orig values : gmap string AppCallValue)
    : Prop :=
  (∀ k v, orig !! k = Some v → values !! k = Some v)
  ∧ (∀ k, values !! k ≠ orig !! k → hasDefault fields k).

(** ** The base commands *)

(** The suggestion [getSuggestionsBase] makes of a binding, and its test
    of the binding against the text typed, in lower case. *)
Definition baseSuggestion (b : AppBinding.t) : AutocompleteSuggestion :=
  mkSuggestion (AppBinding.label b) (Verbatim (AppCommandParser.withSlash (AppBinding.label b)))
    (Verbatim (AppBinding.hint b)) (Verbatim (AppBinding.description b)) (AppBinding.icon b).

Definition offeredAsBase (command : string) (b : AppBinding.t) : bool :=
  negb (eqb_string (AppBinding.label b) "")
  && startsWith (AppCommandParser.withSlash (AppBinding.label b)) command.

(** ** Arguments and the command line written from them *)














(** ** Completions of values as typed texts *)



(** ** Commands written from words *)

(** A word: not empty and without a blank. *)
Definition isWord (w : string) : bool := negb (eqb_string w "") && allChars valueChar w.

(** The words, one blank between two of them. *)
Fixpoint joinWords (words : list string) : string :=
  match words with
  | [] => ""
  | w :: rest =>
      w +:+
      match rest with
      | [] => ""
      | _ :: _ => " " +:+ joinWords rest
      end
  end.

(** The chain of bindings the words name one after the other: each word
    is the label, upper and lower case aside, of the first such binding
    among those the chain has come to. *)
Fixpoint walkWords (bindings : list AppBinding.t) (words : list string)
    : option (list AppBinding.t) :=
  match words with
  | [] => Some []
  | w :: rest =>
      match ParsedCommand.findBinding bindings w with
      | Some b => cons b <$> walkWords (AppBinding.bindings b) rest
      | None => None
      end
  end.

(** The state [matchBinding] ends in after the words of a chain, with the
    word [w] after them and [more] after that word: Command when there is
    no further word, or when the word ends the command that is being
    completed; EndCommand when the word has been looked up in vain. *)
Definition wordState (autocompleteMode : bool) (w more : string) : ParseState.t :=
  if eqb_string w "" || autocompleteMode && eqb_string more ""
  then ParseState.Command else ParseState.EndCommand.


(** The fields that are missing, in the words of C8: the fields of the
    form, in its order, with [is_required] set and no value, or an empty
    or false one, to be read under their name. *)
Fixpoint requiredWithoutValue (values : gmap string AppCallValue) (fields : list AppField.t)
    : list AppField.t :=
  match fields with
  | [] => []
  | f :: rest =>
      if AppField.is_required f
      then if truthy (readValue values (AppField.name f))
           then requiredWithoutValue values rest
           else f :: requiredWithoutValue values rest
      else requiredWithoutValue values rest
  end.

(** Texts written one after the other, a comma and a blank between each
    two of them. *)
Fixpoint commaJoined (texts : list string) : string :=
  match texts with
  | [] => ""
  | t :: rest => if bool_decide (rest = []) then t else t +:+ ", " +:+ commaJoined rest
  end.

(** Bring the updates of a cursor to a record again. *)
Ltac cursor :=
  unfold ParsedCommand.asError, ParsedCommand.setValue, ParsedCommand.with_state,
    ParsedCommand.with_i, ParsedCommand.with_incomplete, ParsedCommand.with_incompleteStart,
    ParsedCommand.with_binding, ParsedCommand.with_form, ParsedCommand.with_field,
    ParsedCommand.with_position, ParsedCommand.with_values, ParsedCommand.with_location,
    ParsedCommand.with_error in *;
  simpl in *.

(** The same in the goal alone, and by need: nothing is unfolded but the
    updates, nothing reduced but the projections. *)
Ltac cursor_fields :=
  cbn [ParsedCommand.asError ParsedCommand.setValue ParsedCommand.with_state
       ParsedCommand.with_i ParsedCommand.with_incomplete ParsedCommand.with_incompleteStart
       ParsedCommand.with_binding ParsedCommand.with_form ParsedCommand.with_field
       ParsedCommand.with_position ParsedCommand.with_values ParsedCommand.with_location
       ParsedCommand.with_error
       ParsedCommand.state ParsedCommand.command ParsedCommand.i ParsedCommand.incomplete
       ParsedCommand.incompleteStart ParsedCommand.binding ParsedCommand.form
       ParsedCommand.field ParsedCommand.position ParsedCommand.values
       ParsedCommand.location ParsedCommand.error].

Tactic Notation "cursor_fields" "in" hyp(H) :=
  cbn [ParsedCommand.asError ParsedCommand.setValue ParsedCommand.with_state
       ParsedCommand.with_i ParsedCommand.with_incomplete ParsedCommand.with_incompleteStart
       ParsedCommand.with_binding ParsedCommand.with_form ParsedCommand.with_field
       ParsedCommand.with_position ParsedCommand.with_values ParsedCommand.with_location
       ParsedCommand.with_error
       ParsedCommand.state ParsedCommand.command ParsedCommand.i ParsedCommand.incomplete
       ParsedCommand.incompleteStart ParsedCommand.binding ParsedCommand.form
       ParsedCommand.field ParsedCommand.position ParsedCommand.values
       ParsedCommand.location ParsedCommand.error] in H.

(** ** Reading the values *)

(** A value of the values themselves that is true is read as true: under
    [__proto__] the prototype is read, which is true as well. *)
Lemma readValue_own (values : gmap string AppCallValue) (name : string) (v : AppCallValue) :
  values !! name = Some v → truthy v = true → truthy (readValue values name) = true.
Proof. intros Hv Ht. unfold readValue. case_bool_decide; [done|]. by rewrite Hv. Qed.

(** Under a name that [Object.prototype] does not have the values
    themselves are read. *)
Lemma readValue_plain (values : gmap string AppCallValue) (name : string) :
  inherited name = false → readValue values name = default VUndef (values !! name).
Proof.
  unfold readValue. intros Hname. case_bool_decide as Hp.
  - subst name. by vm_compute in Hname.
  - destruct (values !! name); [done|]. by rewrite Hname.
Qed.

(** Under a name of [Object.prototype], values that have no property of
    their own there read as true. *)
Lemma readValue_inherited (values : gmap string AppCallValue) (name : string) :
  inherited name = true → values !! name = None → readValue values name = VNative name.
Proof.
  unfold readValue. intros Hname Hnone. case_bool_decide; [done|]. by rewrite Hnone, Hname.
Qed.

Lemma readValue_insert (values : gmap string AppCallValue) (name k : string)
    (v : AppCallValue) :
  readValue (<[name := v]> values) k
  = if decide (k = name ∧ k ≠ "__proto__") then v else readValue values k.
Proof.
  unfold readValue. case_bool_decide as Hp.
  - rewrite decide_False; [done|]. by intros [_ ?].
  - destruct (decide (k = name)) as [->|Hne].
    + rewrite lookup_insert_eq. by rewrite decide_True.
    + rewrite lookup_insert_ne by done. rewrite decide_False; [done|]. by intros [? _].
Qed.

(** ** Strings *)

Lemma charAt_lt (s : string) (n : nat) (c : ascii) :
  charAt s n = Some c → n < String.length s.
Proof.
  unfold charAt. revert n.
  induction s as [|a s IH]; intros [|n] H; simpl in *; try discriminate; try lia.
  apply IH in H. lia.
Qed.

Lemma charAt_None (s : string) (n : nat) :
  charAt s n = None ↔ (String.length s ≤ n)%nat.
Proof.
  unfold charAt. revert n.
  induction s as [|a s IH]; intros [|n]; simpl; split; intros H;
    try done; try lia.
  - apply IH in H. lia.
  - apply IH. lia.
Qed.

(** ** The loop of matchBinding ends *)

Lemma walkRank_le (p : ParsedCommand.t) : (walkRank p ≤ 3)%nat.
Proof.
  unfold walkRank. destruct (ParsedCommand.state p); try lia.
  destruct (ParsedCommand.current p) as [ch|]; [destruct (isBlank ch)|]; lia.
Qed.

Lemma walk_turn_decreases (auto : bool) bs p bs' p' :
  ParsedCommand.matchBinding_turn auto bs p = Again (bs', p') →
  walkMeasure p' < walkMeasure p.
Proof.
  unfold ParsedCommand.matchBinding_turn, walkMeasure.
  destruct p as [s cmd n inc st b f fld pos vs loc err]; simpl.
  unfold ParsedCommand.current; simpl.
  destruct s; simpl; try discriminate.
  - (* Start *)
    case_bool_decide as Hc; [|discriminate].
    intros [= <- <-]. apply charAt_lt in Hc.
    pose proof (walkRank_le
      (ParsedCommand.mk ParseState.Command cmd (S n) "" (S n) b f fld pos vs loc err)).
    cursor. unfold walkRank at 2. simpl. lia.
  - (* Command *)
    destruct (charAt cmd n) as [ch|] eqn:Hc.
    + destruct (isBlank ch) eqn:Hb; intros [= <- <-]; cursor.
      * unfold walkRank; simpl. unfold ParsedCommand.current; simpl.
        rewrite Hc, Hb. lia.
      * apply charAt_lt in Hc as Hlt.
        pose proof (walkRank_le
          (ParsedCommand.mk ParseState.Command cmd (S n) (push inc ch) st b f fld pos vs loc err)).
        unfold walkRank at 2; simpl. unfold ParsedCommand.current; simpl.
        rewrite Hc, Hb. lia.
    + destruct auto; [discriminate|]. intros [= <- <-]; cursor.
      unfold walkRank; simpl. unfold ParsedCommand.current; simpl. rewrite Hc. lia.
  - (* EndCommand *)
    destruct (ParsedCommand.findBinding bs inc); [|discriminate].
    intros [= <- <-]; cursor. unfold walkRank; simpl. lia.
  - (* CommandSeparator *)
    destruct (charAt cmd n) as [ch|] eqn:Hc; [|discriminate].
    destruct (isBlank ch) eqn:Hb; intros [= <- <-]; cursor.
    + apply charAt_lt in Hc. unfold walkRank; simpl. lia.
    + unfold walkRank; simpl. unfold ParsedCommand.current; simpl.
      rewrite Hc, Hb. lia.
Qed.

Lemma matchBinding_loop_ends (auto : bool) n bs p :
  walkMeasure p < n →
  ∃ r, ParsedCommand.matchBinding_loop n auto bs p = Some r ∧ ∀ x, r ≠ Again x.
Proof.
  revert bs p. induction n as [|n IH]; intros bs p Hn; [lia|].
  simpl. destruct (ParsedCommand.matchBinding_turn auto bs p) as [[bs' p']|r|r] eqn:Ht.
  - apply IH. apply walk_turn_decreases in Ht. lia.
  - eexists; split; [done|]. intros x; discriminate.
  - eexists; split; [done|]. intros x; discriminate.
Qed.

Lemma matchBinding_loop_total (auto : bool) bs p :
  ∃ r, ParsedCommand.matchBinding_loop (ParsedCommand.matchBinding_fuel p) auto bs p = Some r
       ∧ ∀ x, r ≠ Again x.
Proof.
  apply matchBinding_loop_ends. unfold ParsedCommand.matchBinding_fuel, walkMeasure.
  pose proof (walkRank_le p). lia.
Qed.

Lemma matchBinding_loop_mono (auto : bool) n m bs p r :
  ParsedCommand.matchBinding_loop n auto bs p = Some r → (n ≤ m)%nat →
  ParsedCommand.matchBinding_loop m auto bs p = Some r.
Proof.
  revert m bs p. induction n as [|n IH]; intros m bs p H Hle; [discriminate|].
  destruct m as [|m]; [lia|]. simpl in *.
  destruct (ParsedCommand.matchBinding_turn auto bs p) as [[bs' p']|?|?]; try done.
  apply IH; [done|lia].
Qed.

Lemma matchBinding_loop_det (auto : bool) n m bs p r r' :
  ParsedCommand.matchBinding_loop n auto bs p = Some r →
  ParsedCommand.matchBinding_loop m auto bs p = Some r' → r = r'.
Proof.
  intros H1 H2.
  apply (matchBinding_loop_mono _ _ (n `max` m)) in H1; [|lia].
  apply (matchBinding_loop_mono _ _ (n `max` m)) in H2; [|lia].
  congruence.
Qed.

(** A loop that reaches a later turn ends as the loop started there. *)
Lemma walkReaches_loop (auto : bool) x y :
  walkReaches auto x y →
  ∀ n r, ParsedCommand.matchBinding_loop n auto y.1 y.2 = Some r →
  ∃ m, ParsedCommand.matchBinding_loop m auto x.1 x.2 = Some r.
Proof.
  induction 1 as [x|bs p x y Ht _ IH]; intros n r Hr; [eauto|].
  destruct (IH n r Hr) as [m Hm]. exists (S m). simpl. rewrite Ht.
  destruct x; done.
Qed.

Lemma walk_turn_command (auto : bool) bs p bs' p' :
  ParsedCommand.matchBinding_turn auto bs p = Again (bs', p') →
  ParsedCommand.command p' = ParsedCommand.command p.
Proof.
  unfold ParsedCommand.matchBinding_turn. intros H.
  repeat case_match; simplify_eq; cursor; done.
Qed.

Lemma walkReaches_command (auto : bool) x y :
  walkReaches auto x y → ParsedCommand.command y.2 = ParsedCommand.command x.2.
Proof.
  induction 1 as [x|bs p [bs' p'] y Ht _ IH]; [done|].
  simpl in *. rewrite IH. by eapply walk_turn_command.
Qed.

(** [matchBinding] is its loop, then the statements after the loop. *)
Lemma matchBinding_unfold {St : Type} (getForm : string → AppBinding.t → St → option Fetched * St)
    bs (auto : bool) p st :
  bs ≠ [] →
  ∃ r, (∃ n, ParsedCommand.matchBinding_loop n auto bs p = Some r)
       ∧ ParsedCommand.matchBinding getForm bs auto p st =
           match r with
           | Done p' => ParsedCommand.matchBinding_finish getForm p' st
           | Return p' => (p', st)
           | Again _ => (p, st)
           end.
Proof.
  intros Hbs. destruct (matchBinding_loop_total auto bs p) as (r & Hr & Hna).
  exists r. split; [eauto|].
  unfold ParsedCommand.matchBinding. rewrite bool_decide_eq_false_2 by done.
  rewrite Hr. destruct r as [[? ?]|?|?]; try done. by destruct (Hna (l, t)).
Qed.

(** The errors of [getForm] are those of the fetch, none of them the
    message of an unmatched command. *)
Lemma getForm_error_not_no_match deps location b st e command :
  (AppCommandParser.getForm deps location b st).1 ≫= fetched_error = Some e →
  e ≠ Msg.no_match command.
Proof.
  unfold AppCommandParser.getForm, AppCommandParser.fetchForm, AppCommandParser.dispatchCall.
  intros H Heq. subst e. revert H.
  repeat (case_match; simplify_eq/=); try done.
Qed.

(** C5, as amended.  For every input that does not start with a slash and
    every list of bindings that is not empty, [matchBinding] returns, in
    either mode, the cursor in the Error state with the message that a
    command must start with a slash.  With the empty list of bindings it
    returns, for every input, whether it starts with a slash or not, the
    cursor it was given in the Error state with the message that there
    are no bindings: nothing of the input is read and the forms cache is
    left as it was. *)
Theorem matchBinding_no_slash {St : Type}
    (getForm : string → AppBinding.t → St → option Fetched * St)
    (command : string) (bindings : list AppBinding.t) (auto : bool) (st : St) :
  let r := ParsedCommand.matchBinding getForm bindings auto (ParsedCommand.new command) st in
  (bindings ≠ [] →
   charAt command 0 ≠ Some "/"%char →
   r = (ParsedCommand.asError Msg.no_slash_start (ParsedCommand.new command), st)
   ∧ ParsedCommand.state r.1 = ParseState.Error
   ∧ ParsedCommand.error r.1 = Msg.no_slash_start)
  ∧ (bindings = [] →
     r = (ParsedCommand.asError Msg.no_bindings (ParsedCommand.new command), st)
     ∧ ParsedCommand.state r.1 = ParseState.Error
     ∧ ParsedCommand.error r.1 = Msg.no_bindings
     ∧ ParsedCommand.i r.1 = 0).
Proof.
  intros r. subst r. split.
  - intros Hbs Hc.
    assert (ParsedCommand.matchBinding getForm bindings auto (ParsedCommand.new command) st =
            (ParsedCommand.asError Msg.no_slash_start (ParsedCommand.new command), st)) as ->.
    { unfold ParsedCommand.matchBinding. rewrite bool_decide_eq_false_2 by done.
      unfold ParsedCommand.matchBinding_fuel. rewrite Nat.add_comm. simpl.
      unfold ParsedCommand.matchBinding_turn, ParsedCommand.current. simpl.
      by rewrite bool_decide_eq_false_2. }
    done.
  - intros ->. done.
Qed.

Lemma matchBinding_no_slash_witness :
  ParsedCommand.state
    (ParsedCommand.matchBinding (AppCommandParser.getForm (Sample.deps []))
       [Sample.cmd []] true (ParsedCommand.new "hello") Sample.parser).1
  = ParseState.Error
  ∧ ParsedCommand.error
      (ParsedCommand.matchBinding (AppCommandParser.getForm (Sample.deps []))
         [] true (ParsedCommand.new "/cmd") Sample.parser).1
    = Msg.no_bindings.
Proof.
  split.
  - refine (proj1 (proj2 (proj1 (matchBinding_no_slash
                                   (AppCommandParser.getForm (Sample.deps []))
                                   "hello" [Sample.cmd []] true Sample.parser) _ _))).
    + discriminate.
    + vm_compute. discriminate.
  - exact (proj1 (proj2 (proj2 (proj2 (matchBinding_no_slash
                                          (AppCommandParser.getForm (Sample.deps []))
                                          "/cmd" [] true Sample.parser) eq_refl)))).
Defined.

(** C5, as stated, fails on the empty list of bindings: the input does not
    start with a slash and the message is the one for missing bindings. *)
Lemma matchBinding_no_slash_empty_bindings :
  charAt "hello" 0 ≠ Some "/"%char
  ∧ ParsedCommand.error
      (ParsedCommand.matchBinding (AppCommandParser.getForm (Sample.deps []))
         [] false (ParsedCommand.new "hello") Sample.parser).1
    = Msg.no_bindings
  ∧ ParsedCommand.error
      (ParsedCommand.matchBinding (AppCommandParser.getForm (Sample.deps []))
         [] false (ParsedCommand.new "hello") Sample.parser).1
    ≠ Msg.no_slash_start.
Proof. vm_compute. split; [|split]; [discriminate|reflexivity|discriminate]. Qed.

(** Past the slash the loop stays in Command, EndCommand and
    CommandSeparator and leaves through its end, in a state that is not
    Error. *)
Lemma matchBinding_loop_walks (auto : bool) n bs p r :
  walking (ParsedCommand.state p) = true →
  ParsedCommand.matchBinding_loop n auto bs p = Some r →
  ∃ p', r = Done p'
        ∧ ParsedCommand.command p' = ParsedCommand.command p
        ∧ ParsedCommand.state p' ≠ ParseState.Error.
Proof.
  revert bs p. induction n as [|n IH]; intros bs p Hw Hr; [done|].
  simpl in Hr.
  destruct (ParsedCommand.matchBinding_turn auto bs p) as [[bs' p']|q|q] eqn:Ht.
  - pose proof (walk_turn_command _ _ _ _ _ Ht) as Hcmd.
    destruct (IH bs' p') as (p'' & -> & Hc & Hs); [|done|].
    + unfold ParsedCommand.matchBinding_turn in Ht.
      destruct (ParsedCommand.state p) eqn:Hst; try discriminate Hw;
        repeat case_match; simplify_eq; cursor_fields; rewrite ?Hst; done.
    + exists p''. by rewrite Hc, Hcmd.
  - simplify_eq. exists q. unfold ParsedCommand.matchBinding_turn in Ht.
    destruct (ParsedCommand.state p) eqn:Hst; try discriminate Hw;
      repeat case_match; simplify_eq; cursor_fields; rewrite ?Hst; by repeat split.
  - unfold ParsedCommand.matchBinding_turn in Ht.
    destruct (ParsedCommand.state p) eqn:Hst; try discriminate Hw;
      repeat case_match; simplify_eq.
Qed.

(** What the statements after the loop keep of the cursor. *)
Lemma matchBinding_finish_keeps deps p st :
  let r := (ParsedCommand.matchBinding_finish (AppCommandParser.getForm deps) p st).1 in
  ParsedCommand.binding r = ParsedCommand.binding p
  ∧ ParsedCommand.i r = ParsedCommand.i p
  ∧ ParsedCommand.incomplete r = ParsedCommand.incomplete p
  ∧ ParsedCommand.incompleteStart r = ParsedCommand.incompleteStart p.
Proof.
  unfold ParsedCommand.matchBinding_finish.
  repeat case_match; simplify_eq/=; done.
Qed.

(** What they return. *)
Lemma matchBinding_finish_result deps p st :
  ParsedCommand.state p ≠ ParseState.Error →
  let r := (ParsedCommand.matchBinding_finish (AppCommandParser.getForm deps) p st).1 in
  (ParsedCommand.state r = ParseState.Error
   ∧ ParsedCommand.error r = Msg.no_match (ParsedCommand.command p)
   ↔ ParsedCommand.binding p = None)
  ∧ (∀ b frm, ParsedCommand.binding p = Some b → AppBinding.form b = Some frm →
       ParsedCommand.state r = ParsedCommand.state p ∧ ParsedCommand.form r = Some frm)
  ∧ (∀ b, ParsedCommand.binding p = Some b → ParsedCommand.state r = ParseState.Error →
       AppBinding.form b = None
       ∧ (AppCommandParser.getForm deps (ParsedCommand.location p) b st).1 ≫= fetched_error
         = Some (ParsedCommand.error r)).
Proof.
  intros Hs r. subst r. unfold ParsedCommand.matchBinding_finish.
  destruct (ParsedCommand.binding p) as [b|] eqn:Hb; [|by cursor].
  cursor_fields.
  destruct (AppBinding.form b) as [frm|] eqn:Hf; simpl.
  - repeat split; try done; try (by intros [? ?]); intros; simplify_eq; done.
  - destruct (AppCommandParser.getForm deps (ParsedCommand.location p) b st)
      as [fetched st'] eqn:Hg.
    assert (∀ e, fetched ≫= fetched_error = Some e → e ≠ Msg.no_match (ParsedCommand.command p))
      as Hne.
    { intros e He.
      eapply (getForm_error_not_no_match deps (ParsedCommand.location p) b st e).
      by rewrite Hg. }
    destruct (fetched ≫= fetched_error) as [e|] eqn:He; simpl.
    + repeat split; try done; try (intros; simplify_eq; congruence).
      * intros [_ Herr]. by destruct (Hne e).
      * intros; simplify_eq. by rewrite Hg.
    + repeat split; try done; try (intros; simplify_eq; congruence).
      by intros [? ?].
Qed.

(** C2, as amended.  When the loop of [matchBinding] comes to the end of a
    token that equals, case aside, no label among the candidate bindings,
    the loop stops there: it leaves in the EndCommand state, not in Error,
    with the cursor as it is, so that the binding matched last is kept and
    the token stays where [parseForm] reads on.  For an input that starts
    with a slash and a list of bindings that is not empty, [matchBinding]
    returns the message of an unmatched command exactly when no binding
    was matched; with a binding that has a form of its own it returns
    without an error, and an error it returns with a binding matched is
    the one of fetching the form. *)
Theorem matchBinding_unmatched_token :
  (∀ (deps : Deps) (st : AppCommandParser.t) (commandBindings : list AppBinding.t)
     (auto : bool) (command : string) (candidates : list AppBinding.t) (p : ParsedCommand.t),
     commandBindings ≠ [] →
     walkReaches auto (commandBindings, ParsedCommand.new command) (candidates, p) →
     ParsedCommand.state p = ParseState.EndCommand →
     ParsedCommand.findBinding candidates (ParsedCommand.incomplete p) = None →
     let r := (ParsedCommand.matchBinding (AppCommandParser.getForm deps) commandBindings auto
                 (ParsedCommand.new command) st).1 in
     (∃ n, ParsedCommand.matchBinding_loop n auto commandBindings (ParsedCommand.new command)
           = Some (Done p))
     ∧ ParsedCommand.binding r = ParsedCommand.binding p
     ∧ ParsedCommand.i r = ParsedCommand.i p
     ∧ ParsedCommand.incomplete r = ParsedCommand.incomplete p
     ∧ ParsedCommand.incompleteStart r = ParsedCommand.incompleteStart p)
  ∧ (∀ (deps : Deps) (st : AppCommandParser.t) (commandBindings : list AppBinding.t)
       (auto : bool) (command : string),
       commandBindings ≠ [] →
       charAt command 0 = Some "/"%char →
       let r := (ParsedCommand.matchBinding (AppCommandParser.getForm deps) commandBindings auto
                   (ParsedCommand.new command) st).1 in
       (ParsedCommand.state r = ParseState.Error
        ∧ ParsedCommand.error r = Msg.no_match command
        ↔ ParsedCommand.binding r = None)
       ∧ (∀ b frm, ParsedCommand.binding r = Some b → AppBinding.form b = Some frm →
            ParsedCommand.state r ≠ ParseState.Error ∧ ParsedCommand.form r = Some frm)
       ∧ (∀ b, ParsedCommand.binding r = Some b →
            ParsedCommand.state r = ParseState.Error →
            AppBinding.form b = None
            ∧ ∃ location, (AppCommandParser.getForm deps location b st).1 ≫= fetched_error
                          = Some (ParsedCommand.error r))).
Proof.
  split.
  - intros deps st commandBindings auto command candidates p Hbs Hreach Hs Hfind r.
    assert (ParsedCommand.matchBinding_loop 1 auto candidates p = Some (Done p)) as Hlast.
    { simpl. unfold ParsedCommand.matchBinding_turn. by rewrite Hs, Hfind. }
    destruct (walkReaches_loop _ _ _ Hreach 1 _ Hlast) as [m Hm]. simpl in Hm.
    destruct (matchBinding_unfold (AppCommandParser.getForm deps) commandBindings auto
                (ParsedCommand.new command) st Hbs) as (r0 & [n Hn] & Heq).
    pose proof (matchBinding_loop_det _ _ _ _ _ _ _ Hn Hm) as ->.
    subst r. rewrite Heq. split; [eauto|]. apply matchBinding_finish_keeps.
  - intros deps st commandBindings auto command Hbs Hslash r.
    destruct (matchBinding_unfold (AppCommandParser.getForm deps) commandBindings auto
                (ParsedCommand.new command) st Hbs) as (r0 & [n Hn] & Heq).
    destruct n as [|n]; [done|]. simpl in Hn.
    unfold ParsedCommand.matchBinding_turn, ParsedCommand.current in Hn. simpl in Hn.
    rewrite Hslash in Hn. rewrite bool_decide_eq_true_2 in Hn by done.
    apply matchBinding_loop_walks in Hn as (p' & -> & Hcmd & Hs); [|done].
    cbn in Hcmd.
    subst r. rewrite Heq.
    destruct (matchBinding_finish_keeps deps p' st) as (Hb & _).
    destruct (matchBinding_finish_result deps p' st Hs) as (Hiff & Hform & Herr).
    rewrite Hb, <- Hcmd. split; [done|]. split.
    + intros b frm Hbp Hf. destruct (Hform b frm Hbp Hf) as [Hst ?].
      split; [by rewrite Hst|done].
    + intros b Hbp Hst. destruct (Herr b Hbp Hst) as [? ?]. eauto.
Qed.

Lemma matchBinding_unmatched_token_witness :
  let r := (ParsedCommand.matchBinding (AppCommandParser.getForm (Sample.deps []))
              [Sample.cmd []] false (ParsedCommand.new "/cmd bogus") Sample.parser).1 in
  ParsedCommand.binding r = Some (Sample.cmd [])
  ∧ ParsedCommand.incomplete r = "bogus"
  ∧ ParsedCommand.incompleteStart r = 5
  ∧ ParsedCommand.state r ≠ ParseState.Error.
Proof.
  intros r.
  edestruct (proj1 matchBinding_unmatched_token (Sample.deps []) Sample.parser
               [Sample.cmd []] false "/cmd bogus")
    as (_ & Hb & _ & Hinc & Hstart).
  - discriminate.
  - repeat (eapply walk_turn; [vm_compute; reflexivity|]). apply walk_here.
  - reflexivity.
  - reflexivity.
  - fold r in Hb, Hinc, Hstart.
    rewrite Hinc, Hstart.
    split; [by rewrite Hb|]. do 2 (split; [reflexivity|]).
    eapply (proj2 matchBinding_unmatched_token (Sample.deps []) Sample.parser
              [Sample.cmd []] false "/cmd bogus" ltac:(discriminate) eq_refl).
    + fold r. by rewrite Hb.
    + reflexivity.
Defined.

(** C2, as stated, fails on an input without a slash: no binding was
    matched, and the message is not the one of an unmatched command. *)
Lemma matchBinding_no_match_without_walk :
  let r := (ParsedCommand.matchBinding (AppCommandParser.getForm (Sample.deps []))
              [Sample.cmd []] false (ParsedCommand.new "hello") Sample.parser).1 in
  ParsedCommand.binding r = None
  ∧ ParsedCommand.state r = ParseState.Error
  ∧ ParsedCommand.error r ≠ Msg.no_match "hello".
Proof. vm_compute. split; [reflexivity|]. split; [reflexivity|discriminate]. Qed.

(** ** The loop of parseForm ends *)

Lemma findPositional_le (fields : list AppField.t) (n : nat) (f : AppField.t) :
  ParsedCommand.findPositional fields n = Some f →
  (n ≤ ParsedCommand.maxPosition fields)%nat.
Proof.
  unfold ParsedCommand.findPositional.
  induction fields as [|g fields IH]; simpl; [done|].
  case_bool_decide as Hg.
  - intros _. rewrite Hg. simpl. lia.
  - intros H. apply IH in H. lia.
Qed.

Lemma parseForm_local_le (p : ParsedCommand.t) :
  (ParsedCommand.parseForm_local p ≤ String.length (ParsedCommand.command p) + 8)%nat.
Proof.
  unfold ParsedCommand.parseForm_local.
  destruct (ParsedCommand.state p); simpl; lia.
Qed.

Ltac scan_facts :=
  repeat match goal with
         | H : charAt _ _ = Some _ |- _ => apply charAt_lt in H
         | H : ParsedCommand.findPositional _ _ = Some _ |- _ => apply findPositional_le in H
         end.

Lemma scan_turn_decreases (auto : bool) fields sc p sc' p' :
  scanInvariant p →
  ParsedCommand.parseForm_turn auto fields sc p = Again (sc', p') →
  scanInvariant p'
  ∧ ParsedCommand.command p' = ParsedCommand.command p
  ∧ (ParsedCommand.parseForm_rank fields p' < ParsedCommand.parseForm_rank fields p
     ∨ ParsedCommand.parseForm_rank fields p' = ParsedCommand.parseForm_rank fields p
       ∧ ParsedCommand.parseForm_local p' < ParsedCommand.parseForm_local p).
Proof.
  intros [Hst Hinv] Ht.
  destruct p as [s cmd n inc st0 b f fld pos vs loc err].
  unfold ParsedCommand.parseForm_turn, ParsedCommand.endOfFlag, ParsedCommand.endOfValue,
    ParsedCommand.current in Ht.
  cursor.
  destruct s; simpl in *; try discriminate;
    repeat (case_match; simplify_eq/=); try discriminate;
    scan_facts;
    unfold scanInvariant, ParsedCommand.parseForm_rank, ParsedCommand.parseForm_local,
      ParsedCommand.restartIndex, ParsedCommand.inParameter, ParsedCommand.stateRank;
    cursor;
    (split; [split; [done|intros; try done; try lia]|]);
    (split; [done|]);
    try specialize (Hinv eq_refl);
    nia.
Qed.

Lemma parseForm_loop_ends (auto : bool) fields n sc p :
  scanInvariant p →
  (ParsedCommand.parseForm_fuel fields p ≤ n)%nat →
  ∃ r, ParsedCommand.parseForm_loop n auto fields sc p = Some r.
Proof.
  revert sc p. induction n as [|n IH]; intros sc p Hinv Hn.
  { unfold ParsedCommand.parseForm_fuel in Hn. lia. }
  simpl. destruct (ParsedCommand.parseForm_turn auto fields sc p) as [[sc' p']|r|r] eqn:Ht;
    [|eauto..].
  destruct (scan_turn_decreases _ _ _ _ _ _ Hinv Ht) as (Hinv' & Hcmd & Hdec).
  apply IH; [done|].
  pose proof (parseForm_local_le p').
  unfold ParsedCommand.parseForm_fuel in *. rewrite Hcmd in *.
  destruct Hdec as [Hlt|[Heq Hlt]]; [nia|]. rewrite Heq. lia.
Qed.

Lemma parseForm_loop_mono (auto : bool) fields n m sc p r :
  ParsedCommand.parseForm_loop n auto fields sc p = Some r → (n ≤ m)%nat →
  ParsedCommand.parseForm_loop m auto fields sc p = Some r.
Proof.
  revert m sc p. induction n as [|n IH]; intros m sc p H Hle; [discriminate|].
  destruct m as [|m]; [lia|]. simpl in *.
  destruct (ParsedCommand.parseForm_turn auto fields sc p) as [[sc' p']|?|?]; try done.
  apply IH; [done|lia].
Qed.

Lemma parseForm_loop_det (auto : bool) fields n m sc p r r' :
  ParsedCommand.parseForm_loop n auto fields sc p = Some r →
  ParsedCommand.parseForm_loop m auto fields sc p = Some r' → r = r'.
Proof.
  intros H1 H2.
  apply (parseForm_loop_mono _ _ _ (n `max` m)) in H1; [|lia].
  apply (parseForm_loop_mono _ _ _ (n `max` m)) in H2; [|lia].
  congruence.
Qed.

Lemma scanReaches_loop (auto : bool) fields x y :
  scanReaches auto fields x y →
  ∀ n r, ParsedCommand.parseForm_loop n auto fields y.1 y.2 = Some r →
  ∃ m, ParsedCommand.parseForm_loop m auto fields x.1 x.2 = Some r.
Proof.
  induction 1 as [x|sc p x y Ht _ IH]; intros n r Hr; [eauto|].
  destruct (IH n r Hr) as [m Hm]. exists (S m). simpl. rewrite Ht.
  destruct x; done.
Qed.

Lemma scanReaches_trans (auto : bool) fields x y z :
  scanReaches auto fields x y → scanReaches auto fields y z → scanReaches auto fields x z.
Proof.
  induction 1 as [x|sc p x y Ht _ IH]; [done|].
  intros Hz. eapply scan_turn; eauto.
Qed.

(** [parseForm] is its loop, and the loop returns: for a cursor with a
    form that is not in the Error state the scan has a result, the one
    [parseForm] gives. *)
Lemma parseForm_unfold (auto : bool) p frm :
  ParsedCommand.form p = Some frm →
  ParsedCommand.state p ≠ ParseState.Error →
  ∃ n, ParsedCommand.parseForm_loop n auto (ParsedCommand.parseableFields (AppForm.fields frm))
         (ParsedCommand.mkScan false false) (parseForm_start p)
       = Some (ParsedCommand.parseForm auto p).
Proof.
  intros Hf Hs. unfold ParsedCommand.parseForm. rewrite Hf.
  rewrite bool_decide_eq_false_2 by done. fold (parseForm_start p).
  destruct (parseForm_loop_ends auto (ParsedCommand.parseableFields (AppForm.fields frm))
              (ParsedCommand.parseForm_fuel (ParsedCommand.parseableFields (AppForm.fields frm))
                 (parseForm_start p))
              (ParsedCommand.mkScan false false) (parseForm_start p)) as [r Hr].
  - split; [done|]. unfold parseForm_start. cursor. done.
  - done.
  - eexists. rewrite Hr. done.
Qed.

(** The result of [parseForm] is that of its loop from any turn the loop
    comes to. *)
Lemma parseForm_from (auto : bool) p frm sc q n r :
  ParsedCommand.form p = Some frm →
  ParsedCommand.state p ≠ ParseState.Error →
  scanReaches auto (ParsedCommand.parseableFields (AppForm.fields frm))
    (ParsedCommand.mkScan false false, parseForm_start p) (sc, q) →
  ParsedCommand.parseForm_loop n auto (ParsedCommand.parseableFields (AppForm.fields frm)) sc q
    = Some r →
  ParsedCommand.parseForm auto p = r.
Proof.
  intros Hf Hs Hreach Hr.
  destruct (parseForm_unfold auto p frm Hf Hs) as [k Hk].
  destruct (scanReaches_loop _ _ _ _ Hreach n r Hr) as [m Hm]. simpl in Hm.
  eapply parseForm_loop_det; eauto.
Qed.

Lemma parseForm_loop_again (auto : bool) fields n sc p sc' p' :
  ParsedCommand.parseForm_turn auto fields sc p = Again (sc', p') →
  ParsedCommand.parseForm_loop (S n) auto fields sc p
  = ParsedCommand.parseForm_loop n auto fields sc' p'.
Proof. intros H. simpl. by rewrite H. Qed.

Lemma parseForm_loop_return (auto : bool) fields n sc p r :
  ParsedCommand.parseForm_turn auto fields sc p = Return r →
  ParsedCommand.parseForm_loop (S n) auto fields sc p = Some r.
Proof. intros H. simpl. by rewrite H. Qed.






(** ** Quoted and ticked values *)

Lemma app_cons (d : ascii) (a b : string) : String d a +:+ b = String d (a +:+ b).
Proof. reflexivity. Qed.

Lemma app_empty_l (b : string) : "" +:+ b = b.
Proof. reflexivity. Qed.

Lemma push_app (a b : string) (c : ascii) : push a c +:+ b = a +:+ String c b.
Proof.
  unfold push. induction a as [|d a IH]; [done|].
  by rewrite !app_cons, IH.
Qed.

Lemma app_empty_r (a : string) : a +:+ "" = a.
Proof. induction a as [|d a IH]; [done|]. by rewrite app_cons, IH. Qed.

Lemma substring_from_cons (s : string) (n : nat) (c : ascii) :
  charAt s n = Some c → substring_from n s = String c (substring_from (S n) s).
Proof.
  unfold charAt, substring_from. revert n.
  induction s as [|a s IH]; intros [|n] H; simpl in *; try discriminate.
  - simplify_eq. f_equal. rewrite Nat.sub_0_r. clear. induction s; simpl; [done|].
    by f_equal.
  - rewrite (IH n H). done.
Qed.

Lemma substring_from_end (s : string) (n : nat) :
  charAt s n = None → substring_from n s = "".
Proof.
  intros H. apply charAt_None in H. unfold substring_from.
  replace (String.length s - n) with 0 by lia.
  clear H. revert n. induction s as [|a s IH]; intros [|n]; simpl; try done.
Qed.

(** A double quote that is not closed: the scan runs to the end of the
    input and collects what follows, the backslashes aside. *)
Lemma quoted_scan_unclosed (auto : bool) fields m :
  ∀ sc p,
    ParsedCommand.state p = ParseState.QuotedValue →
    String.length (ParsedCommand.command p) - ParsedCommand.i p = m →
    (∀ k, (ParsedCommand.i p ≤ k)%nat → charAt (ParsedCommand.command p) k ≠ Some dquote) →
    ∃ r, ParsedCommand.parseForm_loop (S m) auto fields sc p
         = Some (if auto then r else ParsedCommand.asError Msg.missing_quote r)
       ∧ ParsedCommand.state r = ParseState.QuotedValue
       ∧ ParsedCommand.error r = ParsedCommand.error p
       ∧ ParsedCommand.incompleteStart r = ParsedCommand.incompleteStart p
       ∧ ParsedCommand.incomplete r
         = ParsedCommand.incomplete p
           +:+ dropBackslashes (substring_from (ParsedCommand.i p) (ParsedCommand.command p)).
Proof.
  induction m as [|m IH]; intros sc p Hs Hm Hq.
  - exists p. assert (charAt (ParsedCommand.command p) (ParsedCommand.i p) = None) as Hc.
    { apply charAt_None. lia. }
    split.
    { apply parseForm_loop_return. unfold ParsedCommand.parseForm_turn, ParsedCommand.current.
      rewrite Hs, Hc. by destruct auto. }
    rewrite (substring_from_end _ _ Hc). simpl. by rewrite app_empty_r.
  - destruct (charAt (ParsedCommand.command p) (ParsedCommand.i p)) as [ch|] eqn:Hc;
      [|apply charAt_None in Hc; lia].
    assert (ch ≠ dquote) as Hch.
    { intros ->. by apply (Hq (ParsedCommand.i p)). }
    destruct (bool_decide (ch = backslash)) eqn:Hb.
    + edestruct (IH (ParsedCommand.mkScan (ParsedCommand.flagEqualsUsed sc) true)
                   (ParsedCommand.with_i (S (ParsedCommand.i p)) p))
        as (r & Hr & Hrs & Hre & Hrst & Hri).
      { by cursor. } { cursor. lia. } { cursor. intros k Hk. apply Hq. lia. }
      exists r. split.
      * rewrite <- Hr. apply parseForm_loop_again.
        unfold ParsedCommand.parseForm_turn, ParsedCommand.current.
        rewrite Hs, Hc. rewrite bool_decide_eq_false_2 by done. by rewrite Hb.
      * rewrite (substring_from_cons _ _ _ Hc). cbn [dropBackslashes]. rewrite Hb.
        by cursor.
    + edestruct (IH (ParsedCommand.mkScan (ParsedCommand.flagEqualsUsed sc) false)
                   (ParsedCommand.with_i (S (ParsedCommand.i p))
                      (ParsedCommand.with_incomplete (push (ParsedCommand.incomplete p) ch) p)))
        as (r & Hr & Hrs & Hre & Hrst & Hri).
      { by cursor. } { cursor. lia. } { cursor. intros k Hk. apply Hq. lia. }
      exists r. split.
      * rewrite <- Hr. apply parseForm_loop_again.
        unfold ParsedCommand.parseForm_turn, ParsedCommand.current.
        rewrite Hs, Hc. rewrite bool_decide_eq_false_2 by done. by rewrite Hb.
      * rewrite (substring_from_cons _ _ _ Hc). cbn [dropBackslashes]. rewrite Hb.
        cursor. by rewrite Hri, push_app.
Qed.

(** The same for a tick, where every character is kept. *)
Lemma ticked_scan_unclosed (auto : bool) fields m :
  ∀ sc p,
    ParsedCommand.state p = ParseState.TickValue →
    String.length (ParsedCommand.command p) - ParsedCommand.i p = m →
    (∀ k, (ParsedCommand.i p ≤ k)%nat → charAt (ParsedCommand.command p) k ≠ Some backtick) →
    ∃ r, ParsedCommand.parseForm_loop (S m) auto fields sc p
         = Some (if auto then r else ParsedCommand.asError Msg.missing_tick r)
       ∧ ParsedCommand.state r = ParseState.TickValue
       ∧ ParsedCommand.error r = ParsedCommand.error p
       ∧ ParsedCommand.incompleteStart r = ParsedCommand.incompleteStart p
       ∧ ParsedCommand.incomplete r
         = ParsedCommand.incomplete p
           +:+ substring_from (ParsedCommand.i p) (ParsedCommand.command p).
Proof.
  induction m as [|m IH]; intros sc p Hs Hm Hq.
  - exists p. assert (charAt (ParsedCommand.command p) (ParsedCommand.i p) = None) as Hc.
    { apply charAt_None. lia. }
    split.
    { apply parseForm_loop_return. unfold ParsedCommand.parseForm_turn, ParsedCommand.current.
      rewrite Hs, Hc. by destruct auto. }
    rewrite (substring_from_end _ _ Hc). by rewrite app_empty_r.
  - destruct (charAt (ParsedCommand.command p) (ParsedCommand.i p)) as [ch|] eqn:Hc;
      [|apply charAt_None in Hc; lia].
    assert (ch ≠ backtick) as Hch.
    { intros ->. by apply (Hq (ParsedCommand.i p)). }
    edestruct (IH sc (ParsedCommand.with_i (S (ParsedCommand.i p))
                        (ParsedCommand.with_incomplete (push (ParsedCommand.incomplete p) ch) p)))
      as (r & Hr & Hrs & Hre & Hrst & Hri).
    { by cursor. } { cursor. lia. } { cursor. intros k Hk. apply Hq. lia. }
    exists r. split.
    + rewrite <- Hr. apply parseForm_loop_again.
      unfold ParsedCommand.parseForm_turn, ParsedCommand.current.
      rewrite Hs, Hc. by rewrite bool_decide_eq_false_2.
    + rewrite (substring_from_cons _ _ _ Hc). cursor. by rewrite Hri, push_app.
Qed.

(** The part of C4 that the code keeps.  In every parse that comes to the
    start of a value which opens with a double quote or a tick that does
    not occur again before the end of the input: when not completing, [parseForm] ends in the Error state with
    the message of the missing quote, or tick; when completing it returns
    in the state of the open value, not in Error, and [incomplete] holds
    what was typed after the delimiter (for a double quote, the
    backslashes aside). *)
Theorem unterminated_value (auto : bool) (p : ParsedCommand.t) (frm : AppForm.t)
    (sc : ParsedCommand.Scan) (q : ParsedCommand.t) (d : ascii) :
  let fields := ParsedCommand.parseableFields (AppForm.fields frm) in
  let r := ParsedCommand.parseForm auto p in
  let typed := substring_from (S (ParsedCommand.i q)) (ParsedCommand.command q) in
  ParsedCommand.form p = Some frm →
  ParsedCommand.state p ≠ ParseState.Error →
  scanReaches auto fields (ParsedCommand.mkScan false false, parseForm_start p) (sc, q) →
  ParsedCommand.state q = ParseState.StartValue →
  d = dquote ∨ d = backtick →
  charAt (ParsedCommand.command q) (ParsedCommand.i q) = Some d →
  (∀ k, ParsedCommand.i q < k → charAt (ParsedCommand.command q) k ≠ Some d) →
  if auto
  then ParsedCommand.state r
         = (if bool_decide (d = dquote) then ParseState.QuotedValue else ParseState.TickValue)
       ∧ ParsedCommand.state r ≠ ParseState.Error
       ∧ ParsedCommand.incomplete r
         = (if bool_decide (d = dquote) then dropBackslashes typed else typed)
       ∧ ParsedCommand.incompleteStart r = ParsedCommand.i q
  else ParsedCommand.state r = ParseState.Error
       ∧ ParsedCommand.error r
         = (if bool_decide (d = dquote) then Msg.missing_quote else Msg.missing_tick).
Proof.
  intros fields r typed Hf Hs Hreach Hq Hd Hc Hopen.
  set (q0 := ParsedCommand.with_incompleteStart (ParsedCommand.i q)
               (ParsedCommand.with_incomplete "" q)).
  destruct Hd as [-> | ->].
  - set (q1 := ParsedCommand.with_i (S (ParsedCommand.i q))
                 (ParsedCommand.with_state ParseState.QuotedValue q0)).
    assert (ParsedCommand.parseForm_turn auto fields sc q = Again (sc, q1)) as Hturn.
    { unfold ParsedCommand.parseForm_turn, ParsedCommand.current. by rewrite Hq, Hc. }
    destruct (quoted_scan_unclosed auto fields
                (String.length (ParsedCommand.command q1) - ParsedCommand.i q1) sc q1)
      as (r' & Hr & Hrs & Hre & Hrst & Hri); [done|done|..].
    { subst q1 q0. cursor. intros k Hk. apply Hopen. lia. }
    rewrite <- (parseForm_loop_again _ _ _ _ _ _ _ Hturn) in Hr.
    apply (parseForm_from auto p frm sc q _ _ Hf Hs Hreach) in Hr. fold r in Hr.
    rewrite Hr. subst q1 q0. cursor.
    destruct auto; cursor.
    + rewrite Hrs, Hri, Hrst. by rewrite app_empty_l.
    + done.
  - set (q1 := ParsedCommand.with_i (S (ParsedCommand.i q))
                 (ParsedCommand.with_state ParseState.TickValue q0)).
    assert (ParsedCommand.parseForm_turn auto fields sc q = Again (sc, q1)) as Hturn.
    { unfold ParsedCommand.parseForm_turn, ParsedCommand.current. by rewrite Hq, Hc. }
    destruct (ticked_scan_unclosed auto fields
                (String.length (ParsedCommand.command q1) - ParsedCommand.i q1) sc q1)
      as (r' & Hr & Hrs & Hre & Hrst & Hri); [done|done|..].
    { subst q1 q0. cursor. intros k Hk. apply Hopen. lia. }
    rewrite <- (parseForm_loop_again _ _ _ _ _ _ _ Hturn) in Hr.
    apply (parseForm_from auto p frm sc q _ _ Hf Hs Hreach) in Hr. fold r in Hr.
    rewrite Hr. subst q1 q0. cursor.
    destruct auto; cursor.
    + rewrite Hrs, Hri, Hrst. by rewrite app_empty_l.
    + done.
Qed.

Lemma no_char_after (d : ascii) (s : string) (n : nat) :
  includesChar d (substring_from n s) = false →
  ∀ k, (n ≤ k)%nat → charAt s k ≠ Some d.
Proof.
  intros Hnone k Hk Hc.
  remember (k - n) as m eqn:Hm. revert n Hnone Hk Hm.
  induction m as [|m IH]; intros n Hnone Hk Hm.
  - assert (k = n) as -> by lia.
    rewrite (substring_from_cons _ _ _ Hc) in Hnone. simpl in Hnone.
    by destruct (ascii_dec d d).
  - destruct (charAt s n) as [c|] eqn:Hn.
    + rewrite (substring_from_cons _ _ _ Hn) in Hnone. simpl in Hnone.
      destruct (ascii_dec d c); [done|].
      apply (IH (S n)); [done|lia|lia].
    + apply charAt_None in Hn. apply charAt_lt in Hc. lia.
Qed.

Lemma unterminated_value_witness :
  (ParsedCommand.state
     (ParsedCommand.parseForm false (Sample.matched Sample.positional false Sample.unclosed))
   = ParseState.Error
   ∧ ParsedCommand.error
       (ParsedCommand.parseForm false (Sample.matched Sample.positional false Sample.unclosed))
     = Msg.missing_quote)
  ∧ (ParsedCommand.state
       (ParsedCommand.parseForm true (Sample.matched Sample.positional true Sample.unclosed))
     = ParseState.QuotedValue
     ∧ ParsedCommand.incomplete
         (ParsedCommand.parseForm true (Sample.matched Sample.positional true Sample.unclosed))
       = "abc").
Proof.
  assert (∀ k, 5 < k → charAt Sample.unclosed k ≠ Some dquote) as Hopen.
  { intros k Hk. apply (no_char_after dquote _ 6); [vm_compute; reflexivity|lia]. }
  split.
  - eassert (scanReaches false
               (ParsedCommand.parseableFields (AppForm.fields (Sample.form Sample.positional)))
               (ParsedCommand.mkScan false false,
                parseForm_start (Sample.matched Sample.positional false Sample.unclosed))
               (_, _)) as Hreach.
    { eapply scan_turn; [vm_compute; reflexivity|]. apply scan_here. }
    refine (unterminated_value false _ (Sample.form Sample.positional) _ _ dquote
              _ _ Hreach eq_refl (or_introl eq_refl) eq_refl Hopen).
    + vm_compute; reflexivity.
    + vm_compute; discriminate.
  - eassert (scanReaches true
               (ParsedCommand.parseableFields (AppForm.fields (Sample.form Sample.positional)))
               (ParsedCommand.mkScan false false,
                parseForm_start (Sample.matched Sample.positional true Sample.unclosed))
               (_, _)) as Hreach.
    { eapply scan_turn; [vm_compute; reflexivity|]. apply scan_here. }
    destruct (unterminated_value true
                (Sample.matched Sample.positional true Sample.unclosed)
                (Sample.form Sample.positional) _ _ dquote
                ltac:(vm_compute; reflexivity) ltac:(vm_compute; discriminate)
                Hreach eq_refl (or_introl eq_refl) eq_refl Hopen) as (H1 & _ & H2 & _).
    split; [exact H1|exact H2].
Defined.

(** C4, where the code leaves it.  The claim counts a value as open as long
    as no delimiter closes it, and a double quote behind a backslash does
    not close one.  The code passes over the backslash and then takes the
    double quote as the end of the value.  On the command [/cmd] followed
    by a double quote, the letter a, a backslash and a double quote, with
    a text field at position 1: when not completing [parseForm] does not
    end in Error; it binds the letter a to the field and stops at the end
    of the command; when completing it returns behind the double quote,
    in the state of a closed value, with the letter a alone held back. *)
Theorem escaped_quote_closes_value :
  let r := ParsedCommand.parseForm false
             (Sample.matched Sample.positional false Sample.escaped) in
  let r' := ParsedCommand.parseForm true
              (Sample.matched Sample.positional true Sample.escaped) in
  String.substring 5 4 Sample.escaped
  = String dquote (String "a" (String backslash (String dquote "")))
  ∧ String.length Sample.escaped = 9
  ∧ ParsedCommand.state r ≠ ParseState.Error
  ∧ ParsedCommand.error r ≠ Msg.missing_quote
  ∧ ParsedCommand.values r = {[ "msg" := VStr "a" ]}
  ∧ ParsedCommand.i r = 9
  ∧ ParsedCommand.state r' = ParseState.EndQuotedValue
  ∧ ParsedCommand.state r' ≠ ParseState.QuotedValue
  ∧ ParsedCommand.incomplete r' = "a"
  ∧ ParsedCommand.i r' = 9.
Proof. vm_compute. split_and!; done. Qed.



(** ** isAppCommand *)

(** C9, as amended.  [isAppCommand] is true exactly when the lower-cased
    pretext starts with the label of some binding whose label is not
    empty, with a slash in front if the label has none, followed by a
    space. *)
Theorem isAppCommand_iff (deps : Deps) (pretext : string) :
  AppCommandParser.isAppCommand deps pretext = true
  ↔ ∃ b, b ∈ getAppsBindings deps
         ∧ AppBinding.label b ≠ ""
         ∧ startsWith (toLowerCase pretext)
             (AppCommandParser.withSlash (AppBinding.label b) +:+ " ") = true.
Proof.
  unfold AppCommandParser.isAppCommand, AppCommandParser.getCommandBindings.
  rewrite existsb_exists. split.
  - intros (b & Hin & Hb). exists b. apply list_elem_of_In in Hin.
    unfold eqb_string in Hb. case_bool_decide; [done|]. done.
  - intros (b & Hin & Hne & Hb). exists b. apply list_elem_of_In in Hin.
    split; [done|]. unfold eqb_string. by rewrite bool_decide_eq_false_2.
Qed.

(** C9, as stated, fails on a binding whose label is empty: the pretext
    starts with the slash put in front of the label and a space, and
    [isAppCommand] is false. *)
Lemma isAppCommand_empty_label :
  startsWithSomeLabel (getAppsBindings (Sample.deps [Sample.unlabelled])) "/ x"
  ∧ AppCommandParser.isAppCommand (Sample.deps [Sample.unlabelled]) "/ x" = false.
Proof.
  split; [|vm_compute; reflexivity].
  exists Sample.unlabelled. split; [apply list_elem_of_here|vm_compute; reflexivity].
Qed.

(** ** Flag names *)

(** C10, as amended.  Every suggestion of [getFlagNameSuggestions] is made
    of a field of the form that has a label, not empty, whose lower-cased
    form starts with the lower-cased partial token, and for which
    [values] holds no value or an empty one; a field for which [values]
    holds a value that is not empty does not pass the filter, so the flag
    of a field that was given such a value is not suggested again. *)
Theorem getFlagNameSuggestions_applicable (parsed : ParsedCommand.t) :
  (∀ s, s ∈ AppCommandParser.getFlagNameSuggestions parsed →
     ∃ frm f l,
       ParsedCommand.form parsed = Some frm
       ∧ f ∈ AppForm.fields frm
       ∧ s = flagSuggestion parsed f
       ∧ AppField.label f = Some l ∧ l ≠ ""
       ∧ startsWith (toLowerCase l) (toLowerCase (ParsedCommand.incomplete parsed)) = true
       ∧ truthy (readValue (ParsedCommand.values parsed) (AppField.name f)) = false)
  ∧ (∀ g token, ParsedCommand.values parsed !! AppField.name g = Some (VStr token) →
       token ≠ "" → AppCommandParser.flagApplicable parsed g = false).
Proof.
  split.
  - intros s. unfold AppCommandParser.getFlagNameSuggestions.
    destruct (ParsedCommand.form parsed) as [frm|]; [|by intros ?%elem_of_nil].
    intros Hs. apply list_elem_of_fmap in Hs as (f & -> & Hf).
    apply list_elem_of_In, filter_In in Hf as [Hin%list_elem_of_In Happ].
    unfold AppCommandParser.flagApplicable in Happ.
    destruct (AppField.label f) as [l|] eqn:Hl; [|done].
    rewrite !andb_true_iff, !negb_true_iff in Happ.
    destruct Happ as [[Hne Hpre] Hval].
    exists frm, f, l. repeat split; try done.
    unfold eqb_string in Hne. by apply bool_decide_eq_false in Hne.
  - intros g token Hg Hne. unfold AppCommandParser.flagApplicable.
    destruct (AppField.label g); [|done].
    rewrite (readValue_own _ _ _ Hg).
    + simpl. by rewrite andb_false_r.
    + simpl. unfold eqb_string. by rewrite bool_decide_eq_false_2.
Qed.

Lemma getFlagNameSuggestions_applicable_witness :
  (∃ f, f ∈ Sample.flags
        ∧ truthy (readValue
                    (ParsedCommand.values
                       (ParsedCommand.parseForm true
                          (Sample.matched Sample.flags true "/cmd --do")))
                    (AppField.name f)) = false)
  ∧ AppCommandParser.flagApplicable
      (ParsedCommand.parseForm true (Sample.matched Sample.flags true "/cmd --user bob --"))
      (Sample.field "user" AppFieldTypes.TEXT None false) = false.
Proof.
  split.
  - destruct (proj1 (getFlagNameSuggestions_applicable
                (ParsedCommand.parseForm true (Sample.matched Sample.flags true "/cmd --do")))
                (flagSuggestion
                   (ParsedCommand.parseForm true (Sample.matched Sample.flags true "/cmd --do"))
                   (Sample.field "done" AppFieldTypes.BOOL None false)))
      as (frm & f & l & Hfrm & Hin & _ & _ & _ & _ & Hv).
    + vm_compute. apply list_elem_of_here.
    + exists f. assert (frm = Sample.form Sample.flags) as ->.
      { vm_compute in Hfrm. by injection Hfrm as <-. }
      split; [exact Hin|exact Hv].
  - apply (proj2 (getFlagNameSuggestions_applicable _) _ "bob").
    + vm_compute. reflexivity.
    + discriminate.
Defined.

(** C10, as stated, fails when the value recorded for a field is the empty
    text: after the flag was given a backslash between double quotes,
    [values] holds the empty text for the field and the flag is suggested
    again. *)
Lemma getFlagNameSuggestions_after_empty_value :
  let parsed := ParsedCommand.parseForm true (Sample.matched Sample.flags true Sample.emptied) in
  ParsedCommand.values parsed !! "user" = Some (VStr "")
  ∧ flagSuggestion parsed (Sample.field "user" AppFieldTypes.TEXT None false)
    ∈ AppCommandParser.getFlagNameSuggestions parsed.
Proof.
  vm_compute. split; [reflexivity|]. apply list_elem_of_further, list_elem_of_here.
Qed.

(** ** The cache of forms *)

Lemma fetchForm_forms deps b st :
  AppCommandParser.forms (AppCommandParser.fetchForm deps b st).2 = AppCommandParser.forms st.
Proof.
  unfold AppCommandParser.fetchForm, AppCommandParser.dispatchCall.
  repeat case_match; simplify_eq/=; done.
Qed.

Lemma fetchForm_dispatched deps b st c :
  AppBinding.call b = Some c →
  AppCommandParser.dispatched (AppCommandParser.fetchForm deps b st).2
  = AppCommandParser.dispatched st
    ++ [(createCallRequest c (AppCommandParser.getAppContext deps (AppBinding.app_id b) st)
           None None, AppCallTypes.FORM)].
Proof.
  intros Hc. unfold AppCommandParser.fetchForm, AppCommandParser.dispatchCall. rewrite Hc.
  repeat case_match; simplify_eq/=; done.
Qed.

Lemma getForm_cached deps location b st form :
  AppCommandParser.forms st !! location = Some form →
  AppCommandParser.getForm deps location b st = (Some (mkFetched (Some form) None), st).
Proof. intros H. unfold AppCommandParser.getForm. by rewrite H. Qed.

Lemma getForm_fetched deps location b st :
  AppCommandParser.forms st !! location = None →
  (AppCommandParser.getForm deps location b st).1 = (AppCommandParser.fetchForm deps b st).1
  ∧ AppCommandParser.dispatched (AppCommandParser.getForm deps location b st).2
    = AppCommandParser.dispatched (AppCommandParser.fetchForm deps b st).2
  ∧ AppCommandParser.forms (AppCommandParser.getForm deps location b st).2
    = match (AppCommandParser.fetchForm deps b st).1 ≫= fetched_form with
      | Some form => <[location := form]> (AppCommandParser.forms st)
      | None => AppCommandParser.forms st
      end.
Proof.
  intros H. unfold AppCommandParser.getForm. rewrite H.
  pose proof (fetchForm_forms deps b st) as Hforms.
  destruct (AppCommandParser.fetchForm deps b st) as [fetched st'] eqn:Hfetch. simpl in *.
  destruct (fetched ≫= fetched_form); simpl; by rewrite ?Hforms.
Qed.

(** The cache only grows. *)
Lemma getForm_forms_grow deps location b st :
  AppCommandParser.forms st ⊆ AppCommandParser.forms (AppCommandParser.getForm deps location b st).2.
Proof.
  destruct (AppCommandParser.forms st !! location) as [form|] eqn:H.
  - by rewrite (getForm_cached _ _ _ _ _ H).
  - destruct (getForm_fetched deps location b st H) as (_ & _ & ->).
    destruct (_ ≫= fetched_form); [by apply insert_subseteq|done].
Qed.

Lemma matchBinding_forms_grow deps bs (auto : bool) p st :
  AppCommandParser.forms st
  ⊆ AppCommandParser.forms
      (ParsedCommand.matchBinding (AppCommandParser.getForm deps) bs auto p st).2.
Proof.
  unfold ParsedCommand.matchBinding, ParsedCommand.matchBinding_finish.
  pose proof (getForm_forms_grow deps) as Hg.
  repeat case_match; simplify_eq/=; try done.
  all: match goal with
       | H : AppCommandParser.getForm _ ?l ?b ?s0 = (_, ?s) |- _ =>
           specialize (Hg l b s0); by rewrite H in Hg
       end.
Qed.

Lemma getValueSuggestions_forms deps parsed d st :
  AppCommandParser.forms (AppCommandParser.getValueSuggestions deps parsed d st).2
  = AppCommandParser.forms st.
Proof.
  unfold AppCommandParser.getValueSuggestions, AppCommandParser.getDynamicSelectSuggestions,
    AppCommandParser.dispatchCall.
  repeat case_match; simplify_eq/=; done.
Qed.

Lemma getParameterSuggestions_forms deps parsed st :
  AppCommandParser.forms (AppCommandParser.getParameterSuggestions deps parsed st).2
  = AppCommandParser.forms st.
Proof.
  unfold AppCommandParser.getParameterSuggestions.
  repeat case_match; simplify_eq/=; try done; apply getValueSuggestions_forms.
Qed.

Lemma perform_forms_grow deps st op :
  AppCommandParser.forms st ⊆ AppCommandParser.forms (perform deps st op).
Proof.
  destruct op as [location b|command|pretext|c r]; simpl.
  - apply getForm_forms_grow.
  - unfold AppCommandParser.composeCallFromCommand.
    pose proof (matchBinding_forms_grow deps (AppCommandParser.getCommandBindings deps) false
                  (ParsedCommand.new command) st) as Hm.
    destruct (ParsedCommand.matchBinding _ _ _ _ _) as [parsed1 st1].
    repeat case_match; simplify_eq/=; done.
  - unfold AppCommandParser.getSuggestions, AppCommandParser.gatherSuggestions.
    pose proof (matchBinding_forms_grow deps (AppCommandParser.getCommandBindings deps) true
                  (ParsedCommand.new pretext) st) as Hm.
    destruct (ParsedCommand.matchBinding _ _ _ _ _) as [parsed1 st1]. simpl in Hm.
    destruct (bool_decide _ || negb _); simpl; [|done].
    pose proof (getParameterSuggestions_forms deps (ParsedCommand.parseForm true parsed1) st1)
      as Hp.
    destruct (AppCommandParser.getParameterSuggestions _ _ _) as [[? ?] st3].
    simpl in *. by rewrite Hp.
  - done.
Qed.

Lemma session_forms_grow deps ops st :
  AppCommandParser.forms st ⊆ AppCommandParser.forms (session deps ops st).
Proof.
  revert st. induction ops as [|op ops IH]; intros st; simpl; [done|].
  etrans; [apply perform_forms_grow|apply IH].
Qed.

(** C7.  [getForm] answers from the cache, without a fetch and without a
    change, when the cache holds a form for the location; otherwise its
    answer is that of [fetchForm], and the cache gains the location only
    when the answer holds a form.  A form once returned for a location is
    returned again, without a fetch, whatever is done with the parser in
    between; after an answer without a form the location is still not in
    the cache and the next call fetches again, dispatching the call of the
    binding. *)
Theorem getForm_memoizes_success_only (deps : Deps) (st : AppCommandParser.t)
    (location : string) (binding : AppBinding.t) :
  let fetched := (AppCommandParser.getForm deps location binding st).1 in
  let st1 := (AppCommandParser.getForm deps location binding st).2 in
  (∀ form, AppCommandParser.forms st !! location = Some form →
     fetched = Some (mkFetched (Some form) None) ∧ st1 = st)
  ∧ (AppCommandParser.forms st !! location = None →
       fetched = (AppCommandParser.fetchForm deps binding st).1
       ∧ AppCommandParser.dispatched st1
         = AppCommandParser.dispatched (AppCommandParser.fetchForm deps binding st).2
       ∧ AppCommandParser.forms st1
         = match fetched ≫= fetched_form with
           | Some form => <[location := form]> (AppCommandParser.forms st)
           | None => AppCommandParser.forms st
           end)
  ∧ (∀ form, fetched ≫= fetched_form = Some form →
       ∀ ops binding',
         AppCommandParser.getForm deps location binding' (session deps ops st1)
         = (Some (mkFetched (Some form) None), session deps ops st1))
  ∧ (AppCommandParser.forms st !! location = None →
     fetched ≫= fetched_form = None →
     AppCommandParser.forms st1 !! location = None
     ∧ ∀ binding',
         (AppCommandParser.getForm deps location binding' st1).1
         = (AppCommandParser.fetchForm deps binding' st1).1
         ∧ ∀ c, AppBinding.call binding' = Some c →
             AppCommandParser.dispatched (AppCommandParser.getForm deps location binding' st1).2
             = AppCommandParser.dispatched st1
               ++ [(createCallRequest c
                      (AppCommandParser.getAppContext deps (AppBinding.app_id binding') st1)
                      None None, AppCallTypes.FORM)]).
Proof.
  intros fetched st1.
  assert (∀ form, fetched ≫= fetched_form = Some form →
                  AppCommandParser.forms st1 !! location = Some form) as Hkept.
  { intros form Hform. subst fetched st1.
    destruct (AppCommandParser.forms st !! location) as [form'|] eqn:Hc.
    - rewrite (getForm_cached _ _ _ _ _ Hc) in *. simpl in *. by simplify_eq.
    - destruct (getForm_fetched deps location binding st Hc) as (Hf & _ & ->).
      rewrite <- Hf, Hform. apply lookup_insert_eq. }
  split; [|split; [|split]].
  - intros form Hc. subst fetched st1. by rewrite (getForm_cached _ _ _ _ _ Hc).
  - intros Hc. subst fetched st1.
    destruct (getForm_fetched deps location binding st Hc) as (Hf & Hd & Hforms).
    by rewrite Hforms, Hf.
  - intros form Hform ops binding'. apply getForm_cached.
    eapply lookup_weaken; [by apply Hkept|apply session_forms_grow].
  - intros Hc Hnone.
    assert (AppCommandParser.forms st1 !! location = None) as Hc1.
    { subst fetched st1.
      destruct (getForm_fetched deps location binding st Hc) as (Hf & _ & ->).
      rewrite <- Hf, Hnone. done. }
    split; [done|]. intros binding'.
    destruct (getForm_fetched deps location binding' st1 Hc1) as (Hf & Hd & _).
    split; [done|]. intros c Hcall. rewrite Hd. by apply fetchForm_dispatched.
Qed.

Lemma getForm_memoizes_success_only_witness :
  (let st1 := (AppCommandParser.getForm Sample.serving "/remote" Sample.remote Sample.parser).2 in
   let st2 := session Sample.serving [GetSuggestions "/remote x"; GetForm "/other" Sample.remote]
                st1 in
   AppCommandParser.getForm Sample.serving "/remote" Sample.remote st2
   = (Some (mkFetched (Some (Sample.form Sample.positional)) None), st2))
  ∧ (let st1 := (AppCommandParser.getForm (Sample.deps []) "/remote" Sample.remote
                   Sample.parser).2 in
     length (AppCommandParser.dispatched st1) = 1
     ∧ length (AppCommandParser.dispatched
                 (AppCommandParser.getForm (Sample.deps []) "/remote" Sample.remote st1).2) = 2).
Proof.
  split.
  - apply (proj1 (proj2 (proj2
      (getForm_memoizes_success_only Sample.serving Sample.parser "/remote" Sample.remote)))).
    vm_compute. reflexivity.
  - intros st1. split; [vm_compute; reflexivity|].
    destruct (proj2 (proj2 (proj2
      (getForm_memoizes_success_only (Sample.deps []) Sample.parser "/remote" Sample.remote)))
      ltac:(vm_compute; reflexivity) ltac:(vm_compute; reflexivity)) as [_ Hnext].
    destruct (Hnext Sample.remote) as [_ Hd].
    fold st1 in Hd. rewrite (Hd _ eq_refl), length_app.
    vm_compute. reflexivity.
Defined.

(** ** Required fields *)

Lemma join_commaJoined (texts : list string) : join ", " texts = commaJoined texts.
Proof.
  induction texts as [|t rest IH]; [done|].
  destruct rest as [|u rest]; [done|].
  change (join ", " (t :: u :: rest)) with (t +:+ ", " +:+ join ", " (u :: rest)).
  by rewrite IH.
Qed.

Lemma filter_requiredWithoutValue (values : gmap string AppCallValue)
    (fields : list AppField.t) :
  List.filter (fun field => AppField.is_required field
                            && negb (truthy (readValue values (AppField.name field)))) fields
  = requiredWithoutValue values fields.
Proof.
  induction fields as [|f rest IH]; [done|]. simpl. rewrite IH.
  destruct (AppField.is_required f); [|done].
  by destruct (truthy (readValue values (AppField.name f))).
Qed.

Lemma requiredWithoutValue_spec (values : gmap string AppCallValue)
    (fields : list AppField.t) (g : AppField.t) :
  g ∈ requiredWithoutValue values fields
  ↔ g ∈ fields ∧ AppField.is_required g = true
    ∧ truthy (readValue values (AppField.name g)) = false.
Proof.
  rewrite <- filter_requiredWithoutValue, !list_elem_of_In, filter_In.
  rewrite andb_true_iff, negb_true_iff. done.
Qed.

(** The part of C8 that the code keeps.  For every command that parses
    without an error when not completing: if, after the default and
    read-only values were filled in, some field of the form with
    [is_required] set reads as nothing, or as an empty or false value,
    under its name in the values of the parse, [composeCallFromCommand]
    returns no call and the message of missing required fields; the
    message names the labels of the required fields that read so, in the
    order of the form, a comma and a blank between each two.  A required
    field under whose name the values hold nothing of their own and
    [Object.prototype] has nothing reads so; with such a field as the only
    field of the form, the message names its label. *)
Theorem composeCallFromCommand_missing_required (deps : Deps) (st : AppCommandParser.t)
    (command : string) (frm : AppForm.t) (f : AppField.t) :
  let parsed := ParsedCommand.parseForm false
                  (ParsedCommand.matchBinding (AppCommandParser.getForm deps)
                     (getAppsBindings deps) false (ParsedCommand.new command) st).1 in
  let resolved := AppCommandParser.addDefaultAndReadOnlyValues deps parsed in
  let values := ParsedCommand.values resolved in
  let missing := requiredWithoutValue values (AppForm.fields frm) in
  ParsedCommand.state parsed ≠ ParseState.Error →
  ParsedCommand.form resolved = Some frm →
  f ∈ AppForm.fields frm →
  AppField.is_required f = true →
  truthy (readValue values (AppField.name f)) = false
  ∨ values !! AppField.name f = None ∧ inherited (AppField.name f) = false →
  (AppCommandParser.composeCallFromCommand deps command st).1
  = mkCallResult None
      (Some (AppMsg.field_missing
               (commaJoined (List.map (fun g => default "" (AppField.label g)) missing))))
  ∧ f ∈ missing
  ∧ (∀ g, g ∈ missing
          ↔ g ∈ AppForm.fields frm ∧ AppField.is_required g = true
            ∧ truthy (readValue values (AppField.name g)) = false)
  ∧ (AppForm.fields frm = [f] →
     (AppCommandParser.composeCallFromCommand deps command st).1
     = mkCallResult None (Some (AppMsg.field_missing (default "" (AppField.label f))))).
Proof.
  intros parsed resolved values missing Hs Hfrm Hin Hreq Hval.
  assert (truthy (readValue values (AppField.name f)) = false) as Hfalse.
  { destruct Hval as [?|[Hnone Hname]]; [done|].
    by rewrite (readValue_plain _ _ Hname), Hnone. }
  assert (f ∈ missing) as Hmiss by (by apply requiredWithoutValue_spec).
  assert ((AppCommandParser.composeCallFromCommand deps command st).1
          = mkCallResult None
              (Some (AppMsg.field_missing
                       (commaJoined (List.map (fun g => default "" (AppField.label g))
                                       missing))))) as Hres.
  { unfold AppCommandParser.composeCallFromCommand, AppCommandParser.getCommandBindings.
    subst missing values resolved parsed.
    destruct (ParsedCommand.matchBinding _ _ _ _ _) as [parsed1 st1]. simpl in *.
    rewrite bool_decide_eq_false_2 by done.
    unfold AppCommandParser.getMissingFields. rewrite Hfrm.
    rewrite filter_requiredWithoutValue.
    destruct (requiredWithoutValue _ _) as [|g gs] eqn:Hm;
      [by apply elem_of_nil in Hmiss|].
    by rewrite <- join_commaJoined. }
  split; [done|]. split; [done|]. split; [intros g; apply requiredWithoutValue_spec|].
  intros Hone. rewrite Hres. subst missing. rewrite Hone. simpl.
  by rewrite Hreq, Hfalse.
Qed.

Lemma composeCallFromCommand_missing_required_witness :
  (AppCommandParser.composeCallFromCommand (Sample.deps [Sample.cmd Sample.requiredPair])
     "/cmd --note x" Sample.parser).1
  = mkCallResult None (Some (AppMsg.field_missing "first, second")).
Proof.
  refine (proj1
    (composeCallFromCommand_missing_required (Sample.deps [Sample.cmd Sample.requiredPair])
       Sample.parser "/cmd --note x" (Sample.form Sample.requiredPair)
       (Sample.field "second" AppFieldTypes.TEXT None true) _ _ _ eq_refl _)).
  - vm_compute; discriminate.
  - vm_compute; reflexivity.
  - apply list_elem_of_further, list_elem_of_further, list_elem_of_here.
  - left. vm_compute; reflexivity.
Defined.

(** C8, where the code leaves it.  The values of a parse are an object
    literal, and [getMissingFields] reads them with [values[field.name]]:
    under the name of a property of [Object.prototype] that finds the
    inherited property where the values have none of their own.  With a
    required field named [toString] as the only field of the form and the
    command [/cmd], which gives it no value, the parse ends without an
    error, the values are empty after the default and read-only values
    were filled in, no field is found missing, and
    [composeCallFromCommand] returns a call and no message; the call
    carries the empty values.  The same form with the field named
    [summary] gives no call and the message that names the field. *)
Theorem composeCallFromCommand_inherited_name :
  let deps := Sample.deps [Sample.cmd Sample.inheritedName] in
  let parsed := ParsedCommand.parseForm false
                  (ParsedCommand.matchBinding (AppCommandParser.getForm deps)
                     (getAppsBindings deps) false (ParsedCommand.new "/cmd")
                     Sample.parser).1 in
  let resolved := AppCommandParser.addDefaultAndReadOnlyValues deps parsed in
  let r := (AppCommandParser.composeCallFromCommand deps "/cmd" Sample.parser).1 in
  ParsedCommand.state parsed ≠ ParseState.Error
  ∧ ParsedCommand.form resolved = Some (Sample.form Sample.inheritedName)
  ∧ Forall (fun f => AppField.is_required f = true) Sample.inheritedName
  ∧ ParsedCommand.values resolved = ∅
  ∧ AppCommandParser.getMissingFields resolved = []
  ∧ errorMessage r = None
  ∧ (∃ request, call r = Some request ∧ AppCallRequest.values request = Some ∅)
  ∧ (AppCommandParser.composeCallFromCommand (Sample.deps [Sample.cmd Sample.required])
       "/cmd" Sample.parser).1
    = mkCallResult None (Some (AppMsg.field_missing "summary")).
Proof.
  split_and!; try (vm_compute; done).
  - by repeat constructor.
  - eexists. split; vm_compute; reflexivity.
Qed.

(** ** Suggestions *)

Lemma map_eq_nil_iff {A B : Type} (g : A → B) (l : list A) : List.map g l = [] ↔ l = [].
Proof. destruct l; simpl; split; intros; done. Qed.

(** C6, as amended.  [getSuggestions] returns the empty list exactly when
    no error, subcommand or parameter suggestion was gathered and either
    the command can be executed as it stands and the host gives no execute
    suggestion, or it cannot and the field at the cursor is a user or a
    channel.  When the command cannot be executed as it stands, the field
    at the cursor is neither a user nor a channel and nothing was
    gathered, the list is the one placeholder of no matching suggestions,
    completed as every suggestion is. *)
Theorem getSuggestions_empty_iff (deps : Deps) (pretext : string) (st : AppCommandParser.t) :
  let gathered := (AppCommandParser.gatherSuggestions deps pretext st).1.1 in
  let parsed := (AppCommandParser.gatherSuggestions deps pretext st).1.2 in
  let result := (AppCommandParser.getSuggestions deps pretext st).1 in
  (result = []
   ↔ gathered = []
     ∧ (AppCommandParser.executable parsed = true ∧ getExecuteSuggestion deps parsed = None
        ∨ AppCommandParser.executable parsed = false
          ∧ AppCommandParser.awaitsMention parsed = true))
  ∧ (AppCommandParser.executable parsed = false →
     AppCommandParser.awaitsMention parsed = false →
     gathered = [] →
     result = [AppCommandParser.decorateSuggestionComplete deps parsed
                 (mkSuggestion "" (Verbatim "") AppMsg.no_suggestion (Verbatim "") "error")]).
Proof.
  intros gathered parsed result. subst gathered parsed result.
  unfold AppCommandParser.getSuggestions.
  destruct (AppCommandParser.gatherSuggestions deps pretext st) as [[gathered parsed] st'].
  simpl. split.
  - rewrite map_eq_nil_iff.
    destruct (AppCommandParser.executable parsed).
    + destruct (getExecuteSuggestion deps parsed) as [execute|]; split.
      * done.
      * intros [_ [[_ ?]|[? _]]]; done.
      * intros ->. split; [done|]. by left.
      * by intros [-> _].
    + destruct gathered as [|g gs]; simpl.
      * destruct (AppCommandParser.awaitsMention parsed); simpl; split; try done.
        -- intros _. split; [done|]. by right.
        -- intros [_ [[? _]|[_ ?]]]; done.
      * split; [done|]. by intros [? _].
  - intros -> -> ->. done.
Qed.

Lemma getSuggestions_empty_iff_witness :
  (AppCommandParser.getSuggestions (Sample.deps [Sample.cmd Sample.single])
     "/cmd --user a --" Sample.parser).1
  = [mkSuggestion "cmd --user a -" (Verbatim "") AppMsg.no_suggestion (Verbatim "") "error"].
Proof.
  rewrite (proj2 (getSuggestions_empty_iff (Sample.deps [Sample.cmd Sample.single])
                    "/cmd --user a --" Sample.parser));
    vm_compute; reflexivity.
Defined.

(** C6, as stated, fails on a user field with some text typed: nothing is
    suggested for the value, the command cannot be executed yet, and the
    list is empty. *)
Lemma getSuggestions_empty_on_mention :
  (AppCommandParser.getSuggestions (Sample.deps [Sample.cmd Sample.mention])
     "/cmd ab" Sample.parser).1 = [].
Proof. vm_compute. reflexivity. Qed.

(** * Further properties of the parser *)

(** ** The loops and their invariants *)

Lemma matchBinding_loop_invariant (auto : bool)
    (Inv : list AppBinding.t → ParsedCommand.t → Prop) (Post : ParsedCommand.t → Prop) :
  (∀ bs p bs' p', Inv bs p →
     ParsedCommand.matchBinding_turn auto bs p = Again (bs', p') → Inv bs' p') →
  (∀ bs p r, Inv bs p →
     ParsedCommand.matchBinding_turn auto bs p = Done r
     ∨ ParsedCommand.matchBinding_turn auto bs p = Return r → Post r) →
  ∀ n bs p r, Inv bs p →
    ParsedCommand.matchBinding_loop n auto bs p = Some r →
    ∃ p', (r = Done p' ∨ r = Return p') ∧ Post p'.
Proof.
  intros Hstep Hend. induction n as [|n IH]; intros bs p r Hinv Hr; [discriminate|].
  simpl in Hr.
  destruct (ParsedCommand.matchBinding_turn auto bs p) as [[bs' p']|q|q] eqn:Ht.
  - eapply IH; [|done]. eapply Hstep; eauto.
  - simplify_eq. exists q. split; [by left|]. eapply Hend; eauto.
  - simplify_eq. exists q. split; [by right|]. eapply Hend; eauto.
Qed.

Lemma parseForm_loop_invariant (auto : bool) (fields : list AppField.t)
    (Inv : ParsedCommand.Scan → ParsedCommand.t → Prop) (Post : ParsedCommand.t → Prop) :
  (∀ sc p sc' p', Inv sc p →
     ParsedCommand.parseForm_turn auto fields sc p = Again (sc', p') → Inv sc' p') →
  (∀ sc p r, Inv sc p →
     ParsedCommand.parseForm_turn auto fields sc p = Done r
     ∨ ParsedCommand.parseForm_turn auto fields sc p = Return r → Post r) →
  ∀ n sc p r, Inv sc p →
    ParsedCommand.parseForm_loop n auto fields sc p = Some r → Post r.
Proof.
  intros Hstep Hend. induction n as [|n IH]; intros sc p r Hinv Hr; [discriminate|].
  simpl in Hr.
  destruct (ParsedCommand.parseForm_turn auto fields sc p) as [[sc' p']|q|q] eqn:Ht.
  - eapply IH; [|done]. eapply Hstep; eauto.
  - simplify_eq. eapply Hend; eauto.
  - simplify_eq. eapply Hend; eauto.
Qed.

(** ** The token of [matchBinding] *)

Lemma substring_empty (a : nat) (s : string) : String.substring a 0 s = "".
Proof. revert a. induction s as [|c s IH]; intros [|a]; simpl; auto. Qed.

Lemma substring_push (s : string) (a m : nat) (c : ascii) :
  charAt s (a + m) = Some c →
  push (String.substring a m s) c = String.substring a (S m) s.
Proof.
  unfold charAt, push. revert a m.
  induction s as [|d s IH]; intros a m H.
  { by destruct (a + m). }
  destruct a as [|a].
  - destruct m as [|m]; simpl in *.
    + simplify_eq. by rewrite substring_empty.
    + rewrite app_cons. f_equal. apply (IH 0 m H).
  - simpl in *. apply (IH a m H).
Qed.

Lemma matchBinding_loop_result (auto : bool) n bs p r :
  ParsedCommand.matchBinding_loop n auto bs p = Some r → ∀ x, r ≠ Again x.
Proof.
  revert bs p. induction n as [|n IH]; intros bs p H x; [discriminate|].
  simpl in H.
  destruct (ParsedCommand.matchBinding_turn auto bs p) as [[bs' p']|q|q] eqn:Ht;
    [by eapply IH|by simplify_eq..].
Qed.

(** What the statements after the loop of [matchBinding] leave as it is. *)
Lemma matchBinding_finish_cursor {St : Type}
    (getForm : string → AppBinding.t → St → option Fetched * St) p st :
  let r := (ParsedCommand.matchBinding_finish getForm p st).1 in
  ParsedCommand.command r = ParsedCommand.command p
  ∧ ParsedCommand.i r = ParsedCommand.i p
  ∧ ParsedCommand.incomplete r = ParsedCommand.incomplete p
  ∧ ParsedCommand.incompleteStart r = ParsedCommand.incompleteStart p
  ∧ ParsedCommand.binding r = ParsedCommand.binding p
  ∧ ParsedCommand.location r = ParsedCommand.location p
  ∧ ParsedCommand.field r = ParsedCommand.field p
  ∧ ParsedCommand.position r = ParsedCommand.position p
  ∧ ParsedCommand.values r = ParsedCommand.values p
  ∧ (ParsedCommand.state r = ParsedCommand.state p
     ∨ ParsedCommand.state r = ParseState.Error).
Proof.
  unfold ParsedCommand.matchBinding_finish.
  destruct (ParsedCommand.binding p) as [b|] eqn:Hb; [|cursor; rewrite Hb; naive_solver].
  cbn [ParsedCommand.form ParsedCommand.with_form].
  destruct (AppBinding.form b); [cursor; rewrite Hb; naive_solver|].
  cbn [ParsedCommand.location ParsedCommand.with_form].
  destruct (getForm (ParsedCommand.location p) b st) as [fetched st'].
  destruct (fetched ≫= fetched_error); cursor; rewrite Hb; naive_solver.
Qed.

Lemma walkToken_turn (auto : bool) command bs p bs' p' :
  walkToken command p →
  ParsedCommand.matchBinding_turn auto bs p = Again (bs', p') →
  walkToken command p'.
Proof.
  intros [Hcmd Hinv] Ht.
  destruct p as [s cmd n inc st b f fld pos vs loc err].
  unfold ParsedCommand.matchBinding_turn, ParsedCommand.current in Ht.
  unfold walkToken, substring_between in *. cursor. subst cmd.
  destruct s; simpl in *; try done;
    repeat (case_match; simplify_eq/=); try done;
    (split; [done|]); simpl;
    repeat match goal with
           | H : bool_decide _ = true |- _ => apply bool_decide_eq_true in H
           | H : charAt _ _ = Some _ |- _ => pose proof (charAt_lt _ _ _ H); revert H
           end; intros;
    try (destruct Hinv as (? & ? & ->));
    rewrite ?Nat.sub_diag, ?substring_empty;
    try (repeat split; lia).
  repeat split; try lia.
  replace (S n - st) with (S (n - st)) by lia.
  apply substring_push. by replace (st + (n - st)) with n by lia.
Qed.

Lemma walkToken_end (auto : bool) command bs p r :
  walkToken command p →
  ParsedCommand.matchBinding_turn auto bs p = Done r
  ∨ ParsedCommand.matchBinding_turn auto bs p = Return r →
  tokenRead command r.
Proof.
  intros [Hcmd Hinv] Ht.
  destruct p as [s cmd n inc st b f fld pos vs loc err].
  unfold ParsedCommand.matchBinding_turn, ParsedCommand.current in Ht.
  unfold walkToken, tokenRead, substring_between in *. cursor. subst cmd.
  destruct s; simpl in *; try done; destruct Ht as [Ht|Ht];
    repeat (case_match; simplify_eq/=); try done;
    (split; [done|]); simpl;
    try (destruct Hinv as (-> & -> & ->));
    try (destruct Hinv as (H1 & H2 & ->));
    rewrite ?Nat.sub_diag, ?substring_empty;
    repeat split; try lia; try done; set_solver.
Qed.

(** X1.  Whatever the outcome, [matchBinding] leaves in [incomplete] the text
    of the command from [incompleteStart] to [i], both within the
    command, and ends in Command, EndCommand or Error. *)
Theorem matchBinding_token {St : Type}
    (getForm : string → AppBinding.t → St → option Fetched * St)
    (bindings : list AppBinding.t) (auto : bool) (command : string) (st : St) :
  let r := (ParsedCommand.matchBinding getForm bindings auto (ParsedCommand.new command) st).1 in
  ParsedCommand.command r = command
  ∧ (ParsedCommand.incompleteStart r ≤ ParsedCommand.i r)%nat
  ∧ (ParsedCommand.i r ≤ String.length command)%nat
  ∧ ParsedCommand.incomplete r
    = substring_between (ParsedCommand.incompleteStart r) (ParsedCommand.i r) command
  ∧ ParsedCommand.state r
    ∈ [ParseState.Command; ParseState.EndCommand; ParseState.Error].
Proof.
  intros r. subst r. fold (tokenRead command
    (ParsedCommand.matchBinding getForm bindings auto (ParsedCommand.new command) st).1).
  destruct (decide (bindings = [])) as [->|Hbs].
  { unfold ParsedCommand.matchBinding. rewrite bool_decide_eq_true_2 by done.
    unfold tokenRead, substring_between. cursor. rewrite substring_empty.
    repeat split; try lia. set_solver. }
  destruct (matchBinding_unfold getForm bindings auto (ParsedCommand.new command) st Hbs)
    as (r & [n Hn] & ->).
  destruct (matchBinding_loop_invariant auto (fun _ p => walkToken command p)
              (tokenRead command) (walkToken_turn auto command) (walkToken_end auto command)
              n bindings (ParsedCommand.new command) r) as (p' & [->| ->] & Hp'); [|done| |done].
  { unfold walkToken. by cursor. }
  destruct (matchBinding_finish_cursor getForm p' st)
    as (Hc & Hi & Hinc & Hst & _ & _ & _ & _ & _ & Hs).
  destruct Hp' as (H1 & H2 & H3 & H4 & H5).
  unfold tokenRead. rewrite Hc, Hi, Hinc, Hst.
  repeat split; try done.
  destruct Hs as [Hs|Hs]; rewrite Hs; [done|].
  do 2 apply list_elem_of_further. apply list_elem_of_here.
Qed.

Lemma matchBinding_bounds {St : Type}
    (getForm : string → AppBinding.t → St → option Fetched * St)
    (bindings : list AppBinding.t) (auto : bool) (command : string) (st : St) :
  let r := (ParsedCommand.matchBinding getForm bindings auto (ParsedCommand.new command) st).1 in
  ParsedCommand.command r = command
  ∧ (ParsedCommand.incompleteStart r ≤ String.length command)%nat.
Proof.
  intros r. subst r.
  destruct (decide (bindings = [])) as [->|Hbs].
  { unfold ParsedCommand.matchBinding. rewrite bool_decide_eq_true_2 by done.
    cursor. split; [done|lia]. }
  destruct (matchBinding_unfold getForm bindings auto (ParsedCommand.new command) st Hbs)
    as (r & [n Hn] & ->).
  destruct (matchBinding_loop_invariant auto (fun _ p => walkToken command p)
              (tokenRead command) (walkToken_turn auto command) (walkToken_end auto command)
              n bindings (ParsedCommand.new command) r) as (p' & [->| ->] & Hp'); [|done|..].
  { unfold walkToken. by cursor. }
  - destruct (matchBinding_finish_cursor getForm p' st) as (Hc & Hi & Hinc & Hst & _).
    destruct Hp' as (H1 & H2 & H3 & _).
    rewrite Hc, Hst. split; [done|lia].
  - destruct Hp' as (H1 & H2 & H3 & _). simpl. split; [done|lia].
Qed.

(** ** The location of [matchBinding] *)

Lemma bindingPath_snoc (bindings path : list AppBinding.t) (b : AppBinding.t) :
  bindingPath bindings path →
  b ∈ candidatesAfter bindings path →
  bindingPath bindings (path ++ [b]).
Proof.
  unfold candidatesAfter. induction 1 as [bs|bs c rest Hc Hrest IH]; intros Hb.
  - simpl in *. apply path_step; [done|apply path_end].
  - simpl. apply path_step; [done|]. apply IH.
    destruct rest as [|d rest]; simpl in *; [done|].
    destruct (last (d :: rest)) eqn:Hlast; [done|]. by apply last_None in Hlast.
Qed.

Lemma pathLocation_snoc (path : list AppBinding.t) (b : AppBinding.t) :
  pathLocation (path ++ [b]) = pathLocation path +:+ "/" +:+ AppBinding.label b.
Proof. unfold pathLocation. by rewrite foldl_app. Qed.

Lemma findBinding_Some (bindings : list AppBinding.t) (token : string) (b : AppBinding.t) :
  ParsedCommand.findBinding bindings token = Some b →
  b ∈ bindings ∧ toLowerCase (AppBinding.label b) = toLowerCase token.
Proof.
  intros [Hin Heq]%find_some. split; [by apply list_elem_of_In|].
  by apply bool_decide_eq_true in Heq.
Qed.

(** X2.  The binding [matchBinding] ends with is the last of a chain of
    bindings that starts among the command bindings and goes from a
    binding to one of its sub-bindings; the location is made of the labels
    of the chain, each after a slash. *)
Theorem matchBinding_location {St : Type}
    (getForm : string → AppBinding.t → St → option Fetched * St)
    (bindings : list AppBinding.t) (auto : bool) (command : string) (st : St) :
  let r := (ParsedCommand.matchBinding getForm bindings auto (ParsedCommand.new command) st).1 in
  ∃ path, bindingPath bindings path
          ∧ ParsedCommand.binding r = last path
          ∧ ParsedCommand.location r = pathLocation path.
Proof.
  intros r. subst r.
  destruct (decide (bindings = [])) as [->|Hbs].
  { unfold ParsedCommand.matchBinding. rewrite bool_decide_eq_true_2 by done.
    exists []. split; [apply path_end|]. by cursor. }
  destruct (matchBinding_unfold getForm bindings auto (ParsedCommand.new command) st Hbs)
    as (r & [n Hn] & ->).
  set (Post := fun p : ParsedCommand.t =>
         ∃ path, bindingPath bindings path
                 ∧ ParsedCommand.binding p = last path
                 ∧ ParsedCommand.location p = pathLocation path).
  destruct (matchBinding_loop_invariant auto
              (fun bs p => ∃ path, bindingPath bindings path
                                   ∧ bs = candidatesAfter bindings path
                                   ∧ ParsedCommand.binding p = last path
                                   ∧ ParsedCommand.location p = pathLocation path)
              Post) with (n := n) (bs := bindings) (p := ParsedCommand.new command) (r := r)
    as (p' & Hr & Hp'); [| | |done|].
  - intros bs p bs' q (path & Hpath & -> & Hb & Hl) Ht.
    destruct p as [s cmd k inc start b f fld pos vs loc err].
    unfold ParsedCommand.matchBinding_turn, ParsedCommand.current in Ht. cursor.
    destruct s; simpl in *; try done;
      repeat (case_match; simplify_eq/=); try done;
      try (by exists path).
    match goal with H : ParsedCommand.findBinding _ _ = Some ?x |- _ =>
      apply findBinding_Some in H as [Hin _]; exists (path ++ [x]) end.
    split; [by apply bindingPath_snoc|].
    unfold candidatesAfter. by rewrite last_snoc, pathLocation_snoc.
  - intros bs p q (path & Hpath & -> & Hb & Hl) Ht. exists path.
    destruct p as [s cmd k inc start b f fld pos vs loc err].
    unfold ParsedCommand.matchBinding_turn, ParsedCommand.current in Ht. cursor.
    destruct s; simpl in *; destruct Ht as [Ht|Ht];
      repeat (case_match; simplify_eq/=); simplify_eq/=; done.
  - exists []. split; [apply path_end|]. by cursor.
  - destruct (matchBinding_finish_cursor getForm p' st)
      as (_ & _ & _ & _ & Hb & Hl & _).
    destruct Hp' as (path & Hpath & Hb' & Hl'). exists path.
    destruct Hr as [-> | ->]; [|done]. by rewrite Hb, Hl.
Qed.

(** ** Upper and lower case in [matchBinding] *)

Lemma toLowerCaseChar_idem (c : ascii) :
  toLowerCaseChar (toLowerCaseChar c) = toLowerCaseChar c.
Proof. destruct c as [[] [] [] [] [] [] [] []]; vm_compute; reflexivity. Qed.

Lemma toLowerCaseChar_slash (c : ascii) : toLowerCaseChar c = "/"%char ↔ c = "/"%char.
Proof. destruct c as [[] [] [] [] [] [] [] []]; vm_compute; split; congruence. Qed.

Lemma isBlank_toLowerCaseChar (c : ascii) : isBlank (toLowerCaseChar c) = isBlank c.
Proof. destruct c as [[] [] [] [] [] [] [] []]; vm_compute; reflexivity. Qed.

Lemma toLowerCase_idem (s : string) : toLowerCase (toLowerCase s) = toLowerCase s.
Proof. induction s as [|c s IH]; simpl; [done|]. by rewrite toLowerCaseChar_idem, IH. Qed.

Lemma toLowerCase_length (s : string) : String.length (toLowerCase s) = String.length s.
Proof. induction s as [|c s IH]; simpl; [done|]. by rewrite IH. Qed.

Lemma toLowerCase_app (a b : string) :
  toLowerCase (a +:+ b) = toLowerCase a +:+ toLowerCase b.
Proof. induction a as [|c a IH]; simpl; [done|]. by rewrite IH. Qed.

Lemma charAt_toLowerCase (s : string) (n : nat) :
  charAt (toLowerCase s) n = toLowerCaseChar <$> charAt s n.
Proof.
  unfold charAt. revert n. induction s as [|c s IH]; intros [|n]; simpl; try done.
Qed.

Lemma findBinding_toLowerCase (bindings : list AppBinding.t) (token : string) :
  ParsedCommand.findBinding bindings (toLowerCase token)
  = ParsedCommand.findBinding bindings token.
Proof. unfold ParsedCommand.findBinding. by rewrite toLowerCase_idem. Qed.

Lemma matchBinding_turn_lowerCased (auto : bool) bs p :
  ParsedCommand.matchBinding_turn auto bs (lowerCased p)
  = match ParsedCommand.matchBinding_turn auto bs p with
    | Again (bs', p') => Again (bs', lowerCased p')
    | Done r => Done (lowerCased r)
    | Return r => Return (lowerCased r)
    end.
Proof.
  destruct p as [s cmd n inc st b f fld pos vs loc err].
  unfold ParsedCommand.matchBinding_turn, ParsedCommand.current, lowerCased. cursor.
  rewrite charAt_toLowerCase, findBinding_toLowerCase.
  destruct s; simpl; try done.
  - destruct (charAt cmd n) as [c|]; simpl; [|done].
    destruct (decide (c = "/"%char)) as [->|Hc].
    + by rewrite !bool_decide_eq_true_2.
    + rewrite !bool_decide_eq_false_2; [done|..];
        intros [= Heq]; first [done | by apply (proj1 (toLowerCaseChar_slash _)) in Heq].
  - destruct (charAt cmd n) as [c|]; simpl; [|by destruct auto].
    rewrite isBlank_toLowerCaseChar. destruct (isBlank c); [done|].
    simpl. unfold push. by rewrite toLowerCase_app.
  - by destruct (ParsedCommand.findBinding bs inc).
  - destruct (charAt cmd n) as [c|]; simpl; [|done].
    rewrite isBlank_toLowerCaseChar. by destruct (isBlank c).
Qed.

Lemma matchBinding_loop_lowerCased (auto : bool) n bs p :
  ParsedCommand.matchBinding_loop n auto bs (lowerCased p)
  = (fun r => match r with
              | Again (bs', p') => Again (bs', lowerCased p')
              | Done r => Done (lowerCased r)
              | Return r => Return (lowerCased r)
              end) <$> ParsedCommand.matchBinding_loop n auto bs p.
Proof.
  revert bs p. induction n as [|n IH]; intros bs p; [done|].
  simpl. rewrite matchBinding_turn_lowerCased.
  destruct (ParsedCommand.matchBinding_turn auto bs p) as [[bs' p']|r|r]; [apply IH|done..].
Qed.

Lemma matchBinding_finish_lowerCased {St : Type}
    (getForm : string → AppBinding.t → St → option Fetched * St) p st :
  (ParsedCommand.matchBinding_finish getForm (lowerCased p) st).2
  = (ParsedCommand.matchBinding_finish getForm p st).2
  ∧ ParsedCommand.with_error
      (ParsedCommand.error (ParsedCommand.matchBinding_finish getForm p st).1)
      (ParsedCommand.matchBinding_finish getForm (lowerCased p) st).1
    = lowerCased (ParsedCommand.matchBinding_finish getForm p st).1.
Proof.
  destruct p as [s cmd n inc start b f fld pos vs loc err].
  unfold ParsedCommand.matchBinding_finish, lowerCased. cursor.
  destruct b as [b|]; [|done].
  destruct (AppBinding.form b); [done|].
  destruct (getForm loc b st) as [fetched st'].
  by destruct (fetched ≫= fetched_error).
Qed.

(** Up to the error message, [matchBinding] on the command in lower case
    gives the cursor of the command as typed, in lower case. *)
Lemma matchBinding_lowerCased {St : Type}
    (getForm : string → AppBinding.t → St → option Fetched * St)
    (bindings : list AppBinding.t) (auto : bool) (command : string) (st : St) :
  let r := ParsedCommand.matchBinding getForm bindings auto (ParsedCommand.new command) st in
  let r' := ParsedCommand.matchBinding getForm bindings auto
              (ParsedCommand.new (toLowerCase command)) st in
  r'.2 = r.2
  ∧ ParsedCommand.with_error (ParsedCommand.error r.1) r'.1 = lowerCased r.1.
Proof.
  simpl. change (ParsedCommand.new (toLowerCase command))
    with (lowerCased (ParsedCommand.new command)).
  unfold ParsedCommand.matchBinding.
  case_bool_decide; [done|].
  replace (ParsedCommand.matchBinding_fuel (lowerCased (ParsedCommand.new command)))
    with (ParsedCommand.matchBinding_fuel (ParsedCommand.new command)).
  2:{ unfold ParsedCommand.matchBinding_fuel, lowerCased. cursor.
      by rewrite toLowerCase_length. }
  rewrite matchBinding_loop_lowerCased.
  destruct (ParsedCommand.matchBinding_loop _ auto bindings (ParsedCommand.new command))
    as [[[bs' p']|r|r]|]; simpl; try done.
  apply matchBinding_finish_lowerCased.
Qed.

(** X3.  Commands and labels are strings of the code units 0 to 255, where
    [toLowerCase] changes one unit into one unit, whatever stands next to
    it.  Two such commands that differ in upper and lower case alone are
    matched alike: [matchBinding] ends in the same state, with the same
    binding, form and location, at the same place of the command, and
    leaves the forms cache in the same state; the tokens left differ in
    case alone.  Beyond these code units [toLowerCase] may change the
    length of a string, and nothing is said of such commands. *)
Theorem matchBinding_case_insensitive {St : Type}
    (getForm : string → AppBinding.t → St → option Fetched * St)
    (bindings : list AppBinding.t) (auto : bool) (command1 command2 : string) (st : St) :
  toLowerCase command1 = toLowerCase command2 →
  let r1 := ParsedCommand.matchBinding getForm bindings auto (ParsedCommand.new command1) st in
  let r2 := ParsedCommand.matchBinding getForm bindings auto (ParsedCommand.new command2) st in
  r1.2 = r2.2
  ∧ ParsedCommand.state r1.1 = ParsedCommand.state r2.1
  ∧ ParsedCommand.binding r1.1 = ParsedCommand.binding r2.1
  ∧ ParsedCommand.form r1.1 = ParsedCommand.form r2.1
  ∧ ParsedCommand.location r1.1 = ParsedCommand.location r2.1
  ∧ ParsedCommand.i r1.1 = ParsedCommand.i r2.1
  ∧ ParsedCommand.incompleteStart r1.1 = ParsedCommand.incompleteStart r2.1
  ∧ toLowerCase (ParsedCommand.incomplete r1.1) = toLowerCase (ParsedCommand.incomplete r2.1).
Proof.
  intros Heq r1 r2.
  destruct (matchBinding_lowerCased getForm bindings auto command1 st) as [Hst1 H1].
  destruct (matchBinding_lowerCased getForm bindings auto command2 st) as [Hst2 H2].
  rewrite Heq in Hst1, H1. fold r1 in Hst1, H1. fold r2 in Hst2, H2.
  set (r := ParsedCommand.matchBinding getForm bindings auto
              (ParsedCommand.new (toLowerCase command2)) st) in *.
  split; [congruence|].
  apply (f_equal (ParsedCommand.with_error (Verbatim ""))) in H1, H2.
  unfold lowerCased in H1, H2. cursor.
  injection H1 as E1 _ E2 E3 E4 E5 E6 _ _ _ E7.
  injection H2 as F1 _ F2 F3 F4 F5 F6 _ _ _ F7.
  repeat split; congruence.
Qed.

Lemma matchBinding_case_insensitive_witness :
  ParsedCommand.binding
    (ParsedCommand.matchBinding (AppCommandParser.getForm (Sample.deps []))
       [Sample.cmd Sample.positional] true (ParsedCommand.new "/CMD Hello") Sample.parser).1
  = ParsedCommand.binding
      (ParsedCommand.matchBinding (AppCommandParser.getForm (Sample.deps []))
         [Sample.cmd Sample.positional] true (ParsedCommand.new "/cmd hELLO") Sample.parser).1.
Proof.
  apply (matchBinding_case_insensitive (AppCommandParser.getForm (Sample.deps []))
           [Sample.cmd Sample.positional] true "/CMD Hello" "/cmd hELLO" Sample.parser).
  vm_compute. reflexivity.
Defined.

(** ** What [parseForm] keeps *)

Lemma findPositional_Some (fields : list AppField.t) (n : nat) (f : AppField.t) :
  ParsedCommand.findPositional fields n = Some f →
  f ∈ fields ∧ AppField.position f = Some n.
Proof.
  intros [Hin Heq]%find_some. split; [by apply list_elem_of_In|].
  by apply bool_decide_eq_true in Heq.
Qed.

Lemma findFlag_Some (fields : list AppField.t) (token : string) (f : AppField.t) :
  ParsedCommand.findFlag fields token = Some f →
  f ∈ fields ∧ ∃ l, AppField.label f = Some l ∧ toLowerCase l = toLowerCase token.
Proof.
  intros [Hin Heq]%find_some. split; [by apply list_elem_of_In|].
  destruct (AppField.label f) as [l|]; [|done]. exists l. split; [done|].
  by apply bool_decide_eq_true in Heq.
Qed.

Lemma parseableFields_spec (fields : list AppField.t) (f : AppField.t) :
  f ∈ ParsedCommand.parseableFields fields
  ↔ f ∈ fields ∧ AppField.type f ≠ AppFieldTypes.MARKDOWN ∧ AppField.readonly f = false.
Proof.
  unfold ParsedCommand.parseableFields.
  rewrite list_elem_of_In, filter_In, <- list_elem_of_In.
  rewrite andb_true_iff, !negb_true_iff, bool_decide_eq_false. tauto.
Qed.

Lemma elem_of_names (fields : list AppField.t) (f : AppField.t) :
  f ∈ fields → AppField.name f ∈ List.map AppField.name fields.
Proof. intros H. by apply list_elem_of_In, in_map, list_elem_of_In. Qed.

Ltac scan_cases Ht :=
  unfold ParsedCommand.parseForm_turn, ParsedCommand.endOfFlag, ParsedCommand.endOfValue,
    ParsedCommand.current in Ht;
  cursor;
  match type of Ht with
  | context [match ?s with ParseState.Start => _ | _ => _ end] => destruct s
  end;
  simpl in *; try discriminate;
  repeat (case_match; simplify_eq/=); simplify_eq/=; try discriminate;
  repeat match goal with
         | H : ParsedCommand.findPositional _ _ = Some _ |- _ =>
             apply findPositional_Some in H as [? ?]
         | H : ParsedCommand.findFlag _ _ = Some _ |- _ =>
             apply findFlag_Some in H as [? ?]
         end.

Ltac decided :=
  repeat match goal with
         | H : bool_decide _ = true |- _ => apply bool_decide_eq_true in H
         | H : bool_decide _ = false |- _ => apply bool_decide_eq_false in H
         | H : _ && _ = true |- _ => apply andb_true_iff in H as [? ?]
         | H : charAt _ _ = None |- _ => apply charAt_None in H
         end.

Lemma scanFrame_turn (auto : bool) fields p0 sc p sc' p' :
  scanFrame fields p0 p →
  ParsedCommand.parseForm_turn auto fields sc p = Again (sc', p') →
  scanFrame fields p0 p'.
Proof.
  intros (Hc & Hb & Hf & Hl & Hv & Hk) Ht.
  destruct p as [s cmd n inc st b f fld pos vs loc err].
  unfold scanFrame in *. scan_cases Ht;
    try (destruct (Hk eq_refl) as (g & [= <-] & Hg));
    split_and!; try done;
    try (intros _; by eauto);
    intros k Hnot; rewrite lookup_insert_ne by (intros <-; by apply Hnot, elem_of_names);
    by apply Hv.
Qed.

Lemma scanFrame_end (auto : bool) fields p0 sc p r :
  scanFrame fields p0 p →
  ParsedCommand.parseForm_turn auto fields sc p = Done r
  ∨ ParsedCommand.parseForm_turn auto fields sc p = Return r →
  scanFrame fields p0 (ParsedCommand.with_state ParseState.StartParameter r).
Proof.
  intros (Hc & Hb & Hf & Hl & Hv & Hk) [Ht|Ht];
    destruct p as [s cmd n inc st b f fld pos vs loc err];
    unfold scanFrame in *; scan_cases Ht;
    try (destruct (Hk eq_refl) as (g & [= <-] & Hg));
    split_and!; try done;
    intros k Hnot; rewrite lookup_insert_ne by (intros <-; by apply Hnot, elem_of_names);
    by apply Hv.
Qed.

Lemma scanFrame_start fields p : scanFrame fields p (parseForm_start p).
Proof. unfold scanFrame, parseForm_start. cursor. by split_and!. Qed.

Lemma parseForm_keeps (auto : bool) (p : ParsedCommand.t) (frm : AppForm.t) :
  ParsedCommand.form p = Some frm →
  ParsedCommand.state p ≠ ParseState.Error →
  ParsedCommand.binding (ParsedCommand.parseForm auto p) = ParsedCommand.binding p
  ∧ ParsedCommand.form (ParsedCommand.parseForm auto p) = ParsedCommand.form p
  ∧ ParsedCommand.location (ParsedCommand.parseForm auto p) = ParsedCommand.location p
  ∧ ParsedCommand.command (ParsedCommand.parseForm auto p) = ParsedCommand.command p.
Proof.
  intros Hform Hs.
  destruct (parseForm_unfold auto p frm Hform Hs) as [n Hn].
  set (fields := ParsedCommand.parseableFields (AppForm.fields frm)) in *.
  pose proof (parseForm_loop_invariant auto fields
                (fun _ q => scanFrame fields p q)
                (fun r => scanFrame fields p
                            (ParsedCommand.with_state ParseState.StartParameter r))
                (fun sc q sc' q' => scanFrame_turn auto fields p sc q sc' q')
                (fun sc q r => scanFrame_end auto fields p sc q r)
                n _ _ _ (scanFrame_start fields p) Hn)
    as (Hc & Hb & Hf & Hl & _).
  done.
Qed.

Lemma parseForm_command (auto : bool) (p : ParsedCommand.t) :
  ParsedCommand.command (ParsedCommand.parseForm auto p) = ParsedCommand.command p.
Proof.
  destruct (ParsedCommand.form p) as [frm|] eqn:Hform;
    [|by unfold ParsedCommand.parseForm; rewrite Hform].
  destruct (decide (ParsedCommand.state p = ParseState.Error)) as [Hs|Hs].
  - unfold ParsedCommand.parseForm. by rewrite Hform, bool_decide_eq_true_2.
  - by destruct (parseForm_keeps auto p frm Hform Hs) as (_ & _ & _ & Hc).
Qed.

(** X4.  [parseForm] leaves the command, the binding, the form and the location
    of the cursor as they are, and changes the values under the names of
    those fields of the form alone that are neither markdown nor
    read-only. *)
Theorem parseForm_frame (auto : bool) (p : ParsedCommand.t) :
  let r := ParsedCommand.parseForm auto p in
  ParsedCommand.command r = ParsedCommand.command p
  ∧ ParsedCommand.binding r = ParsedCommand.binding p
  ∧ ParsedCommand.form r = ParsedCommand.form p
  ∧ ParsedCommand.location r = ParsedCommand.location p
  ∧ ∀ k, ParsedCommand.values r !! k ≠ ParsedCommand.values p !! k →
      ∃ frm f, ParsedCommand.form p = Some frm
               ∧ f ∈ AppForm.fields frm
               ∧ AppField.name f = k
               ∧ AppField.type f ≠ AppFieldTypes.MARKDOWN
               ∧ AppField.readonly f = false.
Proof.
  intros r. subst r.
  destruct (ParsedCommand.form p) as [frm|] eqn:Hform.
  2:{ unfold ParsedCommand.parseForm. rewrite Hform. by repeat split. }
  destruct (decide (ParsedCommand.state p = ParseState.Error)) as [Hs|Hs].
  { unfold ParsedCommand.parseForm. rewrite Hform, bool_decide_eq_true_2 by done.
    by repeat split. }
  destruct (parseForm_unfold auto p frm Hform Hs) as [n Hn].
  set (fields := ParsedCommand.parseableFields (AppForm.fields frm)) in *.
  pose proof (parseForm_loop_invariant auto fields
                (fun _ q => scanFrame fields p q)
                (fun r => scanFrame fields p
                            (ParsedCommand.with_state ParseState.StartParameter r))
                (fun sc q sc' q' => scanFrame_turn auto fields p sc q sc' q')
                (fun sc q r => scanFrame_end auto fields p sc q r)
                n _ _ _ (scanFrame_start fields p) Hn)
    as (Hc & Hb & Hf & Hl & Hv & _).
  cursor. rewrite Hform in Hf. split_and!; try done.
  intros k Hk. exists frm.
  destruct (decide (k ∈ List.map AppField.name fields)) as [Hin|Hnot].
  - apply list_elem_of_In, in_map_iff in Hin as (f & <- & Hin).
    apply list_elem_of_In, parseableFields_spec in Hin as (Hin & Hty & Hro). by exists f.
  - by destruct Hk; apply Hv.
Qed.

Lemma parseForm_frame_witness :
  ∃ frm f,
    ParsedCommand.form (Sample.matched Sample.flags false "/cmd --user bob") = Some frm
    ∧ f ∈ AppForm.fields frm
    ∧ AppField.name f = "user"
    ∧ AppField.type f ≠ AppFieldTypes.MARKDOWN
    ∧ AppField.readonly f = false.
Proof.
  apply (parseForm_frame false (Sample.matched Sample.flags false "/cmd --user bob")).
  vm_compute. discriminate.
Defined.

(** ** How far [parseForm] reads *)

Lemma scanBounds_turn (auto : bool) fields cmd sc p sc' p' :
  ParsedCommand.command p = cmd
  ∧ (ParsedCommand.i p ≤ String.length cmd)%nat
  ∧ (ParsedCommand.incompleteStart p ≤ String.length cmd)%nat →
  ParsedCommand.parseForm_turn auto fields sc p = Again (sc', p') →
  ParsedCommand.command p' = cmd
  ∧ (ParsedCommand.i p' ≤ String.length cmd)%nat
  ∧ (ParsedCommand.incompleteStart p' ≤ String.length cmd)%nat.
Proof.
  intros (Hc & Hi & Hst) Ht.
  destruct p as [s c n inc st b f fld pos vs loc err].
  scan_cases Ht; decided; scan_facts; split_and!; try done; lia.
Qed.

Lemma scanBounds_end (auto : bool) fields cmd sc p r :
  ParsedCommand.command p = cmd
  ∧ (ParsedCommand.i p ≤ String.length cmd)%nat
  ∧ (ParsedCommand.incompleteStart p ≤ String.length cmd)%nat →
  ParsedCommand.parseForm_turn auto fields sc p = Done r
  ∨ ParsedCommand.parseForm_turn auto fields sc p = Return r →
  ParsedCommand.state r ≠ ParseState.Error →
  ParsedCommand.i r = String.length cmd.
Proof.
  intros (Hc & Hi & Hst) [Ht|Ht] Hs;
    destruct p as [s c n inc st b f fld pos vs loc err];
    scan_cases Ht; decided; try done; lia.
Qed.

(** A cursor whose token starts within the command: if [parseForm] scans
    it and does not end in the Error state, it has read the command to
    its end. *)
Lemma parseForm_reads_to_the_end (auto : bool) (p : ParsedCommand.t) (frm : AppForm.t) :
  ParsedCommand.form p = Some frm →
  (ParsedCommand.incompleteStart p ≤ String.length (ParsedCommand.command p))%nat →
  ParsedCommand.state (ParsedCommand.parseForm auto p) ≠ ParseState.Error →
  ParsedCommand.i (ParsedCommand.parseForm auto p) = String.length (ParsedCommand.command p).
Proof.
  intros Hform Hst Hr.
  assert (ParsedCommand.state p ≠ ParseState.Error) as Hs.
  { intros Hs. apply Hr. unfold ParsedCommand.parseForm.
    by rewrite Hform, bool_decide_eq_true_2. }
  destruct (parseForm_unfold auto p frm Hform Hs) as [n Hn].
  revert Hr.
  eapply (parseForm_loop_invariant auto _
            (fun _ q => ParsedCommand.command q = ParsedCommand.command p
                        ∧ (ParsedCommand.i q ≤ String.length (ParsedCommand.command p))%nat
                        ∧ (ParsedCommand.incompleteStart q
                           ≤ String.length (ParsedCommand.command p))%nat)
            (fun r => ParsedCommand.state r ≠ ParseState.Error →
                      ParsedCommand.i r = String.length (ParsedCommand.command p)));
    [| |..|exact Hn].
  - intros sc q sc' q'. apply scanBounds_turn.
  - intros sc q r. apply scanBounds_end.
  - unfold parseForm_start. by cursor.
Qed.

(** X5.  When [matchBinding] has found a form and [parseForm] then does not end
    in the Error state, the whole command has been read: [i] is the length
    of the command. *)
Theorem parseForm_reads_the_command {St : Type}
    (getForm : string → AppBinding.t → St → option Fetched * St)
    (bindings : list AppBinding.t) (auto : bool) (command : string) (st : St)
    (frm : AppForm.t) :
  let matched :=
    (ParsedCommand.matchBinding getForm bindings auto (ParsedCommand.new command) st).1 in
  ParsedCommand.form matched = Some frm →
  ParsedCommand.state (ParsedCommand.parseForm auto matched) ≠ ParseState.Error →
  ParsedCommand.i (ParsedCommand.parseForm auto matched) = String.length command.
Proof.
  intros matched Hform Hr.
  destruct (matchBinding_bounds getForm bindings auto command st) as (Hc & Hst).
  fold matched in Hc, Hst.
  transitivity (String.length (ParsedCommand.command matched)); [|by rewrite Hc].
  apply (parseForm_reads_to_the_end auto matched frm); [done| |done].
  rewrite Hc. lia.
Qed.

Lemma parseForm_reads_the_command_witness :
  ParsedCommand.i
    (ParsedCommand.parseForm false (Sample.matched Sample.flags false "/cmd --done --user bob"))
  = 22.
Proof.
  apply (parseForm_reads_the_command (AppCommandParser.getForm (Sample.deps []))
           [Sample.cmd Sample.flags] false "/cmd --done --user bob" Sample.parser
           (Sample.form Sample.flags)).
  - vm_compute. reflexivity.
  - vm_compute. discriminate.
Defined.

(** ** Reading a token *)

Lemma remaining_cons (p : ParsedCommand.t) (c : ascii) (r : string) :
  remaining p = String c r →
  ParsedCommand.current p = Some c
  ∧ ∀ p', ParsedCommand.command p' = ParsedCommand.command p →
          ParsedCommand.i p' = S (ParsedCommand.i p) → remaining p' = r.
Proof.
  unfold remaining, ParsedCommand.current. intros H.
  destruct (charAt (ParsedCommand.command p) (ParsedCommand.i p)) as [d|] eqn:Hc.
  - rewrite (substring_from_cons _ _ _ Hc) in H. simplify_eq. split; [done|].
    intros p' -> ->. done.
  - by rewrite (substring_from_end _ _ Hc) in H.
Qed.

Lemma remaining_nil (p : ParsedCommand.t) :
  remaining p = "" → ParsedCommand.current p = None.
Proof.
  unfold remaining, ParsedCommand.current. intros H.
  destruct (charAt (ParsedCommand.command p) (ParsedCommand.i p)) as [d|] eqn:Hc; [|done].
  by rewrite (substring_from_cons _ _ _ Hc) in H.
Qed.

Lemma remaining_length (p : ParsedCommand.t) :
  (ParsedCommand.i p ≤ String.length (ParsedCommand.command p))%nat →
  ParsedCommand.i p + String.length (remaining p) = String.length (ParsedCommand.command p).
Proof.
  unfold remaining, substring_from.
  generalize (ParsedCommand.i p) (ParsedCommand.command p). clear p.
  intros n s. revert n. induction s as [|c s IH]; intros [|n] H; simpl in *; try lia.
  - f_equal. specialize (IH 0). simpl in IH. rewrite Nat.sub_0_r in IH. apply IH. lia.
  - f_equal. apply IH. lia.
Qed.

Lemma advanced_nil (p : ParsedCommand.t) : advanced "" "" p = p.
Proof.
  destruct p. unfold advanced. cursor. by rewrite Nat.add_0_r, app_empty_r.
Qed.

Lemma app_assoc_string (a b c : string) : (a +:+ b) +:+ c = a +:+ (b +:+ c).
Proof. induction a as [|d a IH]; [done|]. by rewrite !app_cons, IH. Qed.

Lemma app_length_string (a b : string) :
  String.length (a +:+ b) = String.length a + String.length b.
Proof. induction a as [|d a IH]; [done|]. rewrite app_cons. simpl. by rewrite IH. Qed.

(** A state that adds the characters that pass [keep] to [incomplete]
    reads a token of such characters to its end. *)
Lemma scan_token (auto : bool) fields (s : ParseState.t) (keep : ascii → bool) :
  (∀ sc p c, ParsedCommand.state p = s → ParsedCommand.current p = Some c → keep c = true →
     ParsedCommand.parseForm_turn auto fields sc p
     = Again (sc, ParsedCommand.with_i (S (ParsedCommand.i p))
                    (ParsedCommand.with_incomplete (push (ParsedCommand.incomplete p) c) p))) →
  ∀ token sc p tail,
    ParsedCommand.state p = s →
    remaining p = token +:+ tail →
    allChars keep token = true →
    scanReaches auto fields (sc, p) (sc, advanced token token p)
    ∧ remaining (advanced token token p) = tail.
Proof.
  intros Hturn token. induction token as [|c token IH]; intros sc p tail Hs Hrest Hkeep.
  { rewrite advanced_nil. split; [apply scan_here|done]. }
  simpl in Hkeep. apply andb_true_iff in Hkeep as [Hc Hkeep].
  rewrite app_cons in Hrest. apply remaining_cons in Hrest as [Hcur Hnext].
  set (p1 := ParsedCommand.with_i (S (ParsedCommand.i p))
               (ParsedCommand.with_incomplete (push (ParsedCommand.incomplete p) c) p)).
  destruct (IH sc p1 tail) as [Hreach Hrem]; [by cursor|by apply Hnext|done|].
  assert (advanced token token p1 = advanced (String c token) (String c token) p) as Heq.
  { destruct p. unfold advanced, p1. cursor. f_equal; [lia|apply push_app]. }
  rewrite Heq in Hreach, Hrem. split; [|done].
  eapply scan_turn; [by apply Hturn|done].
Qed.

Lemma flag_turn (auto : bool) fields sc p c :
  ParsedCommand.state p = ParseState.Flag →
  ParsedCommand.current p = Some c → flagChar c = true →
  ParsedCommand.parseForm_turn auto fields sc p
  = Again (sc, ParsedCommand.with_i (S (ParsedCommand.i p))
                 (ParsedCommand.with_incomplete (push (ParsedCommand.incomplete p) c) p)).
Proof.
  intros Hs Hc Hk. unfold ParsedCommand.parseForm_turn. rewrite Hs, Hc.
  unfold flagChar in Hk. apply negb_true_iff in Hk. by rewrite Hk.
Qed.





(** ** Values between delimiters *)

(** Compare two cursors field by field. *)
Ltac cursor_eq :=
  lazy beta iota zeta
    delta [ParsedCommand.asError ParsedCommand.setValue ParsedCommand.with_state
           ParsedCommand.with_i ParsedCommand.with_incomplete ParsedCommand.with_incompleteStart
           ParsedCommand.with_binding ParsedCommand.with_form ParsedCommand.with_field
           ParsedCommand.with_position ParsedCommand.with_values ParsedCommand.with_location
           ParsedCommand.with_error
           ParsedCommand.state ParsedCommand.command ParsedCommand.i ParsedCommand.incomplete
           ParsedCommand.incompleteStart ParsedCommand.binding ParsedCommand.form
           ParsedCommand.field ParsedCommand.position ParsedCommand.values
           ParsedCommand.location ParsedCommand.error
           advanced closedValue boundValue flagRead flagSelected plainValue];
  f_equal.





(** ** Flags *)

Lemma flag_scan (auto : bool) fields sc q dashes name tail :
  ParsedCommand.state q = ParseState.StartParameter →
  remaining q = dashes +:+ name +:+ tail →
  dashes = "--" ∨ dashes = "-" ∧ charAt (name +:+ tail) 0 ≠ Some "-"%char →
  allChars flagChar name = true →
  scanReaches auto fields (sc, q)
    (ParsedCommand.mkScan false (ParsedCommand.escaped sc),
     flagRead (String.length (dashes +:+ name)) name q)
  ∧ remaining (flagRead (String.length (dashes +:+ name)) name q) = tail.
Proof.
  intros Hs Hrest Hd Hname.
  set (p1 := ParsedCommand.with_i (S (ParsedCommand.i q))
               (ParsedCommand.with_state ParseState.Flag1 q)).
  assert (∃ rest0, remaining q = String "-"%char rest0
                   ∧ (dashes = "--" ∧ rest0 = String "-"%char (name +:+ tail)
                      ∨ dashes = "-" ∧ rest0 = name +:+ tail
                        ∧ charAt (name +:+ tail) 0 ≠ Some "-"%char))
    as (rest0 & Hrest0 & Hcase).
  { destruct Hd as [-> | [-> Hno]]; rewrite Hrest; eexists; (split; [reflexivity|]); auto. }
  apply remaining_cons in Hrest0 as [Hcur Hnext].
  assert (ParsedCommand.parseForm_turn auto fields sc q = Again (sc, p1)) as Hturn1.
  { unfold ParsedCommand.parseForm_turn. by rewrite Hs, Hcur. }
  assert (remaining p1 = rest0) as Hrest1 by (by apply Hnext).
  set (sc2 := ParsedCommand.mkScan false (ParsedCommand.escaped sc)).
  assert (∃ p2, ParsedCommand.parseForm_turn auto fields sc p1 = Again (sc2, p2)
                ∧ remaining p2 = name +:+ tail
                ∧ advanced name name p2 = flagRead (String.length (dashes +:+ name)) name q)
    as (p2 & Hturn2 & Hrest2 & Heq).
  { destruct Hcase as [[-> ->] | (-> & -> & Hno)].
    - apply remaining_cons in Hrest1 as [Hcur1 Hnext1].
      exists (ParsedCommand.with_incompleteStart (S (S (ParsedCommand.i q)))
                (ParsedCommand.with_incomplete ""
                   (ParsedCommand.with_state ParseState.Flag
                      (ParsedCommand.with_i (S (S (ParsedCommand.i q))) p1)))).
      split_and!.
      + unfold ParsedCommand.parseForm_turn.
        change (ParsedCommand.state p1) with ParseState.Flag1. cbv beta iota.
        by rewrite Hcur1, bool_decide_eq_true_2.
      + by apply Hnext1.
      + rewrite app_length_string. unfold p1. destruct q. cursor_eq; simpl; lia.
    - exists (ParsedCommand.with_incompleteStart (S (ParsedCommand.i q))
                (ParsedCommand.with_incomplete ""
                   (ParsedCommand.with_state ParseState.Flag p1))).
      split_and!.
      + unfold ParsedCommand.parseForm_turn.
        change (ParsedCommand.state p1) with ParseState.Flag1. cbv beta iota.
        rewrite bool_decide_eq_false_2; [done|].
        intros Hdash. destruct (name +:+ tail) as [|c r] eqn:Hnt.
        * apply remaining_nil in Hrest1. congruence.
        * apply remaining_cons in Hrest1 as [Hcur1 _].
          rewrite Hcur1 in Hdash. by simplify_eq.
      + done.
      + rewrite app_length_string. unfold p1. destruct q. cursor_eq; simpl; lia. }
  destruct (scan_token auto fields ParseState.Flag flagChar (flag_turn auto fields)
              name sc2 p2 tail) as [Hreach3 Hrest3]; [|done|done|].
  { apply (f_equal ParsedCommand.state) in Heq. done. }
  rewrite Heq in Hreach3, Hrest3. split; [|done].
  eapply scan_turn; [exact Hturn1|]. eapply scan_turn; [exact Hturn2|]. done.
Qed.

Lemma flag_end_turn (auto : bool) fields sc p :
  ParsedCommand.state p = ParseState.Flag →
  ParsedCommand.current p = None ∧ auto = false
  ∨ (∃ c, ParsedCommand.current p = Some c ∧ flagChar c = false) →
  ParsedCommand.parseForm_turn auto fields sc p = ParsedCommand.endOfFlag fields sc p.
Proof.
  intros Hs [[Hc ->]|(c & Hc & Hk)]; unfold ParsedCommand.parseForm_turn; rewrite Hs, Hc.
  - done.
  - unfold flagChar in Hk. apply negb_false_iff in Hk. by rewrite Hk.
Qed.

Lemma first_char (s : string) (c : ascii) :
  charAt s 0 = Some c → ∃ r, s = String c r.
Proof. destruct s as [|d r]; [done|]. intros [= ->]. by exists r. Qed.

Lemma separator_blanks (auto : bool) fields :
  ∀ blanks sc p tail,
    ParsedCommand.state p = ParseState.FlagValueSeparator →
    remaining p = blanks +:+ tail →
    allChars isBlank blanks = true →
    ∃ start,
      let p' := ParsedCommand.with_incompleteStart start
                  (ParsedCommand.with_i (ParsedCommand.i p + String.length blanks) p) in
      scanReaches auto fields (sc, p) (sc, p') ∧ remaining p' = tail.
Proof.
  intros blanks. induction blanks as [|c blanks IH]; intros sc p tail Hs Hrest Hb.
  { exists (ParsedCommand.incompleteStart p).
    assert (ParsedCommand.with_incompleteStart (ParsedCommand.incompleteStart p)
              (ParsedCommand.with_i (ParsedCommand.i p + String.length "") p) = p) as ->.
    { destruct p. cursor_eq. simpl. lia. }
    split; [apply scan_here|done]. }
  simpl in Hb. apply andb_true_iff in Hb as [Hc Hb].
  rewrite app_cons in Hrest. apply remaining_cons in Hrest as [Hcur Hnext].
  set (p1 := ParsedCommand.with_i (S (ParsedCommand.i p))
               (ParsedCommand.with_incompleteStart (ParsedCommand.i p) p)).
  destruct (IH sc p1 tail) as (start & Hreach & Hrem); [done|by apply Hnext|done|].
  exists start.
  assert (ParsedCommand.with_incompleteStart start
            (ParsedCommand.with_i (ParsedCommand.i p1 + String.length blanks) p1)
          = ParsedCommand.with_incompleteStart start
              (ParsedCommand.with_i (ParsedCommand.i p + String.length (String c blanks)) p))
    as Heq.
  { unfold p1. destruct p. cursor_eq. simpl. lia. }
  cbv zeta in *. rewrite Heq in Hreach, Hrem. split; [|done].
  eapply scan_turn; [|exact Hreach].
  unfold ParsedCommand.parseForm_turn. by rewrite Hs, Hcur, Hc.
Qed.

Lemma separator_leave (auto : bool) fields sc p :
  ParsedCommand.state p = ParseState.FlagValueSeparator →
  ParsedCommand.current p = None ∧ auto = false
  ∨ (∃ c, ParsedCommand.current p = Some c ∧ flagChar c = true) →
  ParsedCommand.parseForm_turn auto fields sc p
  = Again (sc, ParsedCommand.with_state ParseState.StartValue
                 (ParsedCommand.with_incompleteStart (ParsedCommand.i p) p)).
Proof.
  intros Hs [[Hc ->]|(c & Hc & Hk)]; unfold ParsedCommand.parseForm_turn; rewrite Hs, Hc.
  - done.
  - unfold flagChar in Hk. apply negb_true_iff, orb_false_iff in Hk as [Hb He].
    by rewrite Hb, He.
Qed.

Lemma equals_not_blank : isBlank "="%char = false.
Proof. reflexivity. Qed.

(** From the separator state with the equals sign not yet used, over a
    separator, to the start of the value. *)
Lemma separator_scan (auto : bool) fields sc p sep rest :
  ParsedCommand.state p = ParseState.FlagValueSeparator →
  ParsedCommand.flagEqualsUsed sc = false →
  remaining p = sep +:+ rest →
  separator sep →
  rest = "" ∧ auto = false ∨ (∃ c, charAt rest 0 = Some c ∧ flagChar c = true) →
  let p' := ParsedCommand.with_state ParseState.StartValue
              (ParsedCommand.with_incompleteStart (ParsedCommand.i p + String.length sep)
                 (ParsedCommand.with_i (ParsedCommand.i p + String.length sep) p)) in
  ∃ sc', scanReaches auto fields (sc, p) (sc', p') ∧ remaining p' = rest.
Proof.
  intros Hs Hused Hrest (before & after & Hb & Ha & Hsep) Hend p'.
  assert (∀ sc1 p1, ParsedCommand.state p1 = ParseState.FlagValueSeparator →
            remaining p1 = rest →
            ParsedCommand.parseForm_turn auto fields sc1 p1
            = Again (sc1, ParsedCommand.with_state ParseState.StartValue
                            (ParsedCommand.with_incompleteStart (ParsedCommand.i p1) p1)))
    as Hleave.
  { intros sc1 p1 Hs1 Hr1. apply separator_leave; [done|].
    destruct Hend as [[-> ->]|(c & Hc & Hk)].
    - left. split; [by apply remaining_nil|done].
    - right. exists c. apply first_char in Hc as [r ->].
      by apply remaining_cons in Hr1 as [-> _]. }
  destruct Hsep as [-> | ->].
  - destruct (separator_blanks auto fields before sc p rest Hs Hrest Hb)
      as (start & Hreach & Hrem). cbv zeta in *.
    exists sc. split.
    + eapply scanReaches_trans; [exact Hreach|].
      eapply scan_turn; [by apply Hleave|].
      match goal with |- scanReaches _ _ (_, ?a) (_, ?b) => assert (a = b) as -> end;
        [|apply scan_here].
      unfold p'. destruct p. cursor_eq.
    + rewrite <- Hrem. unfold p', remaining. by cursor_fields.
  - rewrite app_assoc_string, app_cons in Hrest.
    destruct (separator_blanks auto fields before sc p _ Hs Hrest Hb)
      as (start & Hreach & Hrem). cbv zeta in *.
    set (p1 := ParsedCommand.with_incompleteStart start
                 (ParsedCommand.with_i (ParsedCommand.i p + String.length before) p)) in *.
    apply remaining_cons in Hrem as [Hcur Hnext].
    set (p2 := ParsedCommand.with_i (S (ParsedCommand.i p1))
                 (ParsedCommand.with_incompleteStart (ParsedCommand.i p1) p1)).
    set (sc2 := ParsedCommand.mkScan true (ParsedCommand.escaped sc)).
    assert (ParsedCommand.parseForm_turn auto fields sc p1 = Again (sc2, p2)) as Hturn.
    { unfold ParsedCommand.parseForm_turn.
      change (ParsedCommand.state p1) with (ParsedCommand.state p).
      rewrite Hs, Hcur, equals_not_blank, bool_decide_eq_true_2, Hused by done. done. }
    destruct (separator_blanks auto fields after sc2 p2 rest) as (start' & Hreach' & Hrem');
      [done|by apply Hnext|done|]. cbv zeta in *.
    exists sc2. split.
    + eapply scanReaches_trans; [exact Hreach|].
      eapply scan_turn; [exact Hturn|].
      eapply scanReaches_trans; [exact Hreach'|].
      eapply scan_turn; [by apply Hleave|].
      match goal with |- scanReaches _ _ (_, ?a) (_, ?b) => assert (a = b) as -> end;
        [|apply scan_here].
      unfold p', p2, p1. rewrite app_length_string. destruct p. cursor_eq; simpl; lia.
    + rewrite <- Hrem'. unfold p', p2, p1, remaining. cursor_fields.
      rewrite app_length_string. simpl. do 2 f_equal. lia.
Qed.

Lemma separator_first (sep : string) (c : ascii) (r : string) :
  separator sep → sep = String c r → flagChar c = false.
Proof.
  intros (before & after & Hb & Ha & Hsep) ->. unfold flagChar. apply negb_false_iff.
  destruct before as [|d before].
  - destruct Hsep as [Hsep|Hsep]; [done|]. rewrite app_empty_l in Hsep. by simplify_eq.
  - simpl in Hb. apply andb_true_iff in Hb as [Hd _].
    destruct Hsep as [Hsep|Hsep]; rewrite ?app_cons in Hsep; simplify_eq; by rewrite Hd.
Qed.

Lemma findFlag_None (fields : list AppField.t) (name : string) :
  (∀ g l, g ∈ fields → AppField.label g = Some l → toLowerCase l ≠ toLowerCase name) →
  ParsedCommand.findFlag fields name = None.
Proof.
  intros H. unfold ParsedCommand.findFlag.
  induction fields as [|g fields IH]; [done|]. simpl.
  destruct (AppField.label g) as [l|] eqn:Hl.
  - unfold eqb_string. rewrite bool_decide_eq_false_2.
    + apply IH. intros g' l' Hin. apply H. by apply list_elem_of_further.
    + eapply H; [apply list_elem_of_here|done].
  - apply IH. intros g' l' Hin. apply H. by apply list_elem_of_further.
Qed.

(** The cursor after a flag has been read and looked up. *)
Lemma flag_lookup (auto : bool) fields sc q dashes name tail :
  ParsedCommand.state q = ParseState.StartParameter →
  remaining q = dashes +:+ name +:+ tail →
  dashes = "--" ∨ dashes = "-" ∧ charAt (name +:+ tail) 0 ≠ Some "-"%char →
  allChars flagChar name = true →
  tail = "" ∧ auto = false ∨ (∃ c, charAt tail 0 = Some c ∧ flagChar c = false) →
  let read := flagRead (String.length (dashes +:+ name)) name q in
  let sc' := ParsedCommand.mkScan false (ParsedCommand.escaped sc) in
  scanReaches auto fields (sc, q) (sc', read)
  ∧ remaining read = tail
  ∧ ParsedCommand.parseForm_turn auto fields sc' read
    = match ParsedCommand.findFlag fields name with
      | None => Return (ParsedCommand.asError (Msg.unexpected_flag name) read)
      | Some f =>
          Again (sc', ParsedCommand.with_incomplete ""
                        (ParsedCommand.with_field (Some f)
                           (ParsedCommand.with_state ParseState.FlagValueSeparator read)))
      end.
Proof.
  intros Hs Hrest Hd Hname Hend read sc'.
  destruct (flag_scan auto fields sc q dashes name tail Hs Hrest Hd Hname) as [Hreach Hrem].
  fold read sc' in Hreach, Hrem. split_and!; [done..|].
  rewrite flag_end_turn; [done|done|].
  destruct Hend as [[-> ->]|(c & Hc & Hk)].
  - left. split; [by apply remaining_nil|done].
  - right. exists c. apply first_char in Hc as [r ->].
    by apply remaining_cons in Hrem as [-> _].
Qed.

Lemma flag_selection (auto : bool) (p : ParsedCommand.t) (frm : AppForm.t)
    (sc : ParsedCommand.Scan) (q : ParsedCommand.t) (dashes name sep rest : string)
    (f : AppField.t) :
  let fields := ParsedCommand.parseableFields (AppForm.fields frm) in
  let selected := flagSelected f (String.length (dashes +:+ name +:+ sep)) q in
  ParsedCommand.form p = Some frm →
  ParsedCommand.state p ≠ ParseState.Error →
  scanReaches auto fields (ParsedCommand.mkScan false false, parseForm_start p) (sc, q) →
  ParsedCommand.state q = ParseState.StartParameter →
  remaining q = dashes +:+ name +:+ sep +:+ rest →
  dashes = "--" ∨ dashes = "-" ∧ charAt (name +:+ sep +:+ rest) 0 ≠ Some "-"%char →
  allChars flagChar name = true →
  separator sep →
  rest = "" ∧ auto = false
  ∨ sep ≠ "" ∧ (∃ c, charAt rest 0 = Some c ∧ flagChar c = true) →
  ParsedCommand.findFlag fields name = Some f →
  (∃ sc', scanReaches auto fields (ParsedCommand.mkScan false false, parseForm_start p)
            (sc', selected))
  ∧ remaining selected = rest
  ∧ ParsedCommand.state selected = ParseState.StartValue
  ∧ ParsedCommand.field selected = Some f
  ∧ ParsedCommand.values selected = ParsedCommand.values q
  ∧ f ∈ AppForm.fields frm
  ∧ AppField.readonly f = false
  ∧ ∃ l, AppField.label f = Some l ∧ toLowerCase l = toLowerCase name.
Proof.
  intros fields selected Hform Hstate Hreach Hs Hrest Hd Hname Hsep Hend Hfind.
  assert (sep +:+ rest = "" ∧ auto = false
          ∨ (∃ c, charAt (sep +:+ rest) 0 = Some c ∧ flagChar c = false)) as Hterm.
  { destruct sep as [|c sep].
    - destruct Hend as [[-> ->]|[? _]]; [by left|done].
    - right. exists c. split; [done|]. by eapply separator_first. }
  destruct (flag_lookup auto fields sc q dashes name (sep +:+ rest) Hs Hrest Hd Hname Hterm)
    as (Hread & Hrem & Hturn).
  rewrite Hfind in Hturn.
  set (read := flagRead (String.length (dashes +:+ name)) name q) in *.
  set (sc2 := ParsedCommand.mkScan false (ParsedCommand.escaped sc)) in *.
  set (p4 := ParsedCommand.with_incomplete ""
               (ParsedCommand.with_field (Some f)
                  (ParsedCommand.with_state ParseState.FlagValueSeparator read))) in *.
  destruct (separator_scan auto fields sc2 p4 sep rest) as (sc' & Hscan & Hrest');
    [done|done|done|done| |].
  { destruct Hend as [?|[_ ?]]; auto. }
  assert (ParsedCommand.with_state ParseState.StartValue
            (ParsedCommand.with_incompleteStart (ParsedCommand.i p4 + String.length sep)
               (ParsedCommand.with_i (ParsedCommand.i p4 + String.length sep) p4))
          = selected) as Heq.
  { unfold selected, p4, read. rewrite <- app_assoc_string, (app_length_string _ sep).
    destruct q. cursor_eq; lia. }
  rewrite Heq in Hscan, Hrest'.
  apply findFlag_Some in Hfind as (Hin & l & Hl & Hlow).
  apply parseableFields_spec in Hin as (Hin & _ & Hro).
  split_and!; try done; [|by exists l].
  exists sc'. eapply scanReaches_trans; [exact Hreach|].
  eapply scanReaches_trans; [exact Hread|].
  eapply scan_turn; [exact Hturn|exact Hscan].
Qed.

(** X7.  In every parse that comes to the start of a parameter where one or two
    dashes, a name and a separator (blanks, with at most one equals sign
    among them) are followed by the text of a value: if a field parsed by
    the form has the name, upper and lower case aside, as its label, the
    scan comes to the start of the value with the first such field as the
    field at hand.  The values bound so far are as before. *)
Theorem flag_selects_field (auto : bool) (p : ParsedCommand.t) (frm : AppForm.t)
    (sc : ParsedCommand.Scan) (q : ParsedCommand.t) (dashes name sep rest : string)
    (f : AppField.t) :
  let fields := ParsedCommand.parseableFields (AppForm.fields frm) in
  let selected := flagSelected f (String.length (dashes +:+ name +:+ sep)) q in
  ParsedCommand.form p = Some frm →
  ParsedCommand.state p ≠ ParseState.Error →
  scanReaches auto fields (ParsedCommand.mkScan false false, parseForm_start p) (sc, q) →
  ParsedCommand.state q = ParseState.StartParameter →
  remaining q = dashes +:+ name +:+ sep +:+ rest →
  dashes = "--" ∨ dashes = "-" ∧ charAt (name +:+ sep +:+ rest) 0 ≠ Some "-"%char →
  allChars flagChar name = true →
  separator sep →
  rest = "" ∧ auto = false
  ∨ sep ≠ "" ∧ (∃ c, charAt rest 0 = Some c ∧ flagChar c = true) →
  ParsedCommand.findFlag fields name = Some f →
  (∃ sc', scanReaches auto fields (ParsedCommand.mkScan false false, parseForm_start p)
            (sc', selected))
  ∧ remaining selected = rest
  ∧ ParsedCommand.state selected = ParseState.StartValue
  ∧ ParsedCommand.field selected = Some f
  ∧ ParsedCommand.values selected = ParsedCommand.values q
  ∧ f ∈ AppForm.fields frm
  ∧ AppField.readonly f = false
  ∧ ∃ l, AppField.label f = Some l ∧ toLowerCase l = toLowerCase name.
Proof. apply flag_selection. Qed.

Lemma flag_selects_field_witness :
  ∃ sc', scanReaches false (ParsedCommand.parseableFields Sample.flags)
           (ParsedCommand.mkScan false false,
            parseForm_start (Sample.matched Sample.flags false "/cmd -USER = bob"))
           (sc', flagSelected (Sample.field "user" AppFieldTypes.TEXT None false) 8
                   (parseForm_start (Sample.matched Sample.flags false "/cmd -USER = bob"))).
Proof.
  refine (proj1 (flag_selects_field false (Sample.matched Sample.flags false "/cmd -USER = bob")
                   (Sample.form Sample.flags) _ _ "-" "USER" " = " "bob" _
                   eq_refl ltac:(vm_compute; discriminate) (scan_here _ _ _) eq_refl
                   ltac:(vm_compute; reflexivity) _ eq_refl _ _ _)).
  - right. split; [done|]. vm_compute. discriminate.
  - exists " ", " ". split_and!; [done..|]. by right.
  - right. split; [done|]. exists "b"%char. split; reflexivity.
  - vm_compute. reflexivity.
Defined.

(** X8.  In every parse that comes to the start of a parameter where one or two
    dashes and a name are followed by a blank, an equals sign or, when not
    completing, the end of the command: if every field of the form that
    has the name as its label, upper and lower case aside, is markdown or
    read-only, [parseForm] ends in the Error state with the message of the
    flag that is not accepted, the name in it as typed, and [i] after the
    name. *)
Theorem flag_unknown_refused (auto : bool) (p : ParsedCommand.t) (frm : AppForm.t)
    (sc : ParsedCommand.Scan) (q : ParsedCommand.t) (dashes name tail : string) :
  let fields := ParsedCommand.parseableFields (AppForm.fields frm) in
  let r := ParsedCommand.parseForm auto p in
  ParsedCommand.form p = Some frm →
  ParsedCommand.state p ≠ ParseState.Error →
  scanReaches auto fields (ParsedCommand.mkScan false false, parseForm_start p) (sc, q) →
  ParsedCommand.state q = ParseState.StartParameter →
  remaining q = dashes +:+ name +:+ tail →
  dashes = "--" ∨ dashes = "-" ∧ charAt (name +:+ tail) 0 ≠ Some "-"%char →
  allChars flagChar name = true →
  tail = "" ∧ auto = false ∨ (∃ c, charAt tail 0 = Some c ∧ flagChar c = false) →
  (∀ g l, g ∈ AppForm.fields frm → AppField.label g = Some l →
          toLowerCase l = toLowerCase name →
          AppField.type g = AppFieldTypes.MARKDOWN ∨ AppField.readonly g = true) →
  ParsedCommand.state r = ParseState.Error
  ∧ ParsedCommand.error r = Msg.unexpected_flag name
  ∧ ParsedCommand.i r = ParsedCommand.i q + String.length (dashes +:+ name)
  ∧ ParsedCommand.values r = ParsedCommand.values q.
Proof.
  intros fields r Hform Hstate Hreach Hs Hrest Hd Hname Hend Hnone.
  destruct (flag_lookup auto fields sc q dashes name tail Hs Hrest Hd Hname Hend)
    as (Hread & Hrem & Hturn).
  rewrite findFlag_None in Hturn.
  2:{ intros g l [Hin [Hty Hro]]%parseableFields_spec Hl Hlow.
      destruct (Hnone g l Hin Hl Hlow) as [?|?]; [done|congruence]. }
  assert (r = ParsedCommand.asError (Msg.unexpected_flag name)
                (flagRead (String.length (dashes +:+ name)) name q)) as ->.
  { eapply (parseForm_from auto p frm _ _ 1); [done|done| |].
    - eapply scanReaches_trans; [exact Hreach|exact Hread].
    - by apply parseForm_loop_return. }
  done.
Qed.

Lemma flag_unknown_refused_witness :
  ParsedCommand.error
    (ParsedCommand.parseForm true (Sample.matched Sample.flags true "/cmd --Nope=1"))
  = Msg.unexpected_flag "Nope".
Proof.
  refine (proj1 (proj2 (flag_unknown_refused true
                          (Sample.matched Sample.flags true "/cmd --Nope=1")
                          (Sample.form Sample.flags) _ _ "--" "Nope" "=1"
                          eq_refl ltac:(vm_compute; discriminate) (scan_here _ _ _) eq_refl
                          ltac:(vm_compute; reflexivity) (or_introl eq_refl) eq_refl
                          _ _))).
  - right. exists "="%char. split; reflexivity.
  - intros g l Hin Hl Hlow.
    apply elem_of_cons in Hin as [->|Hin%list_elem_of_singleton]; subst;
      vm_compute in Hl; simplify_eq; vm_compute in Hlow; discriminate.
Defined.

(** X9.  In every parse that comes to the start of a parameter where a flag of
    the form is followed by blanks, an equals sign, blanks and a second
    equals sign: [parseForm] ends in the Error state with the message of
    the several equals signs, [i] at the second of them. *)
Theorem flag_second_equals_refused (auto : bool) (p : ParsedCommand.t) (frm : AppForm.t)
    (sc : ParsedCommand.Scan) (q : ParsedCommand.t)
    (dashes name before between rest : string) (f : AppField.t) :
  let fields := ParsedCommand.parseableFields (AppForm.fields frm) in
  let r := ParsedCommand.parseForm auto p in
  let sep := before +:+ String "="%char between in
  ParsedCommand.form p = Some frm →
  ParsedCommand.state p ≠ ParseState.Error →
  scanReaches auto fields (ParsedCommand.mkScan false false, parseForm_start p) (sc, q) →
  ParsedCommand.state q = ParseState.StartParameter →
  remaining q = dashes +:+ name +:+ sep +:+ String "="%char rest →
  dashes = "--"
  ∨ dashes = "-" ∧ charAt (name +:+ sep +:+ String "="%char rest) 0 ≠ Some "-"%char →
  allChars flagChar name = true →
  allChars isBlank before = true →
  allChars isBlank between = true →
  ParsedCommand.findFlag fields name = Some f →
  ParsedCommand.state r = ParseState.Error
  ∧ ParsedCommand.error r = Msg.multiple_equal
  ∧ ParsedCommand.i r = ParsedCommand.i q + String.length (dashes +:+ name +:+ sep)
  ∧ ParsedCommand.values r = ParsedCommand.values q.
Proof.
  intros fields r sep Hform Hstate Hreach Hs Hrest Hd Hname Hb Hbt Hfind.
  assert (∃ c, charAt (sep +:+ String "="%char rest) 0 = Some c ∧ flagChar c = false)
    as Hterm.
  { unfold sep. destruct before as [|c before].
    - exists "="%char. by rewrite app_empty_l.
    - exists c. split; [done|]. simpl in Hb. apply andb_true_iff in Hb as [Hc _].
      unfold flagChar. by rewrite Hc. }
  destruct (flag_lookup auto fields sc q dashes name (sep +:+ String "="%char rest)
              Hs Hrest Hd Hname (or_intror Hterm)) as (Hread & Hrem & Hturn).
  rewrite Hfind in Hturn.
  set (read := flagRead (String.length (dashes +:+ name)) name q) in *.
  set (sc2 := ParsedCommand.mkScan false (ParsedCommand.escaped sc)) in *.
  set (p4 := ParsedCommand.with_incomplete ""
               (ParsedCommand.with_field (Some f)
                  (ParsedCommand.with_state ParseState.FlagValueSeparator read))) in *.
  assert (remaining p4 = before +:+ String "="%char (between +:+ String "="%char rest))
    as Hrem4.
  { change (remaining p4) with (remaining read). rewrite Hrem. unfold sep.
    by rewrite app_assoc_string, app_cons. }
  destruct (separator_blanks auto fields before sc2 p4 _ eq_refl Hrem4 Hb)
    as (start & Hreach5 & Hrem5). cbv zeta in *.
  set (p5 := ParsedCommand.with_incompleteStart start
               (ParsedCommand.with_i (ParsedCommand.i p4 + String.length before) p4)) in *.
  apply remaining_cons in Hrem5 as [Hcur5 Hnext5].
  set (p6 := ParsedCommand.with_i (S (ParsedCommand.i p5))
               (ParsedCommand.with_incompleteStart (ParsedCommand.i p5) p5)).
  set (sc6 := ParsedCommand.mkScan true (ParsedCommand.escaped sc2)).
  assert (ParsedCommand.parseForm_turn auto fields sc2 p5 = Again (sc6, p6)) as Hturn5.
  { unfold ParsedCommand.parseForm_turn.
    change (ParsedCommand.state p5) with ParseState.FlagValueSeparator. cbv beta iota.
    by rewrite Hcur5, equals_not_blank, bool_decide_eq_true_2. }
  destruct (separator_blanks auto fields between sc6 p6 (String "="%char rest))
    as (start' & Hreach7 & Hrem7); [done|by apply Hnext5|done|]. cbv zeta in *.
  set (p7 := ParsedCommand.with_incompleteStart start'
               (ParsedCommand.with_i (ParsedCommand.i p6 + String.length between) p6)) in *.
  apply remaining_cons in Hrem7 as [Hcur7 _].
  assert (ParsedCommand.parseForm_turn auto fields sc6 p7
          = Return (ParsedCommand.asError Msg.multiple_equal
                      (ParsedCommand.with_incompleteStart (ParsedCommand.i p7) p7))) as Hturn7.
  { unfold ParsedCommand.parseForm_turn.
    change (ParsedCommand.state p7) with ParseState.FlagValueSeparator. cbv beta iota.
    by rewrite Hcur7, equals_not_blank, bool_decide_eq_true_2. }
  assert (r = ParsedCommand.asError Msg.multiple_equal
                (ParsedCommand.with_incompleteStart (ParsedCommand.i p7) p7)) as ->.
  { apply (parseForm_from auto p frm sc6 p7 1); [done|done| |].
    - eapply scanReaches_trans; [exact Hreach|].
      eapply scanReaches_trans; [exact Hread|].
      eapply scan_turn; [exact Hturn|].
      eapply scanReaches_trans; [exact Hreach5|].
      eapply scan_turn; [exact Hturn5|exact Hreach7].
    - by apply parseForm_loop_return. }
  split_and!; try done.
  unfold p7, p6, p5, p4, read, sep. cursor_fields.
  rewrite <- !app_assoc_string, !app_length_string. simpl. lia.
Qed.

Lemma flag_second_equals_refused_witness :
  ParsedCommand.error
    (ParsedCommand.parseForm false (Sample.matched Sample.flags false "/cmd --user = =bob"))
  = Msg.multiple_equal.
Proof.
  refine (proj1 (proj2 (flag_second_equals_refused false
                          (Sample.matched Sample.flags false "/cmd --user = =bob")
                          (Sample.form Sample.flags) _ _ "--" "user" " " " " "bob"
                          (Sample.field "user" AppFieldTypes.TEXT None false)
                          eq_refl ltac:(vm_compute; discriminate) (scan_here _ _ _) eq_refl
                          ltac:(vm_compute; reflexivity) (or_introl eq_refl)
                          eq_refl eq_refl eq_refl ltac:(vm_compute; reflexivity)))).
Defined.

(** ** Values without delimiters *)







(** ** The forms cache over the life of a parser *)

(** X12.  A form the cache holds for a location stays there, unchanged, whatever
    is done with the parser afterwards: fetching other forms, composing
    calls, asking for suggestions, moving to another channel or thread. *)
Theorem forms_cache_keeps (deps : Deps) (ops : list Operation) (st : AppCommandParser.t)
    (location : string) (form : AppForm.t) :
  AppCommandParser.forms st !! location = Some form →
  AppCommandParser.forms (session deps ops st) !! location = Some form.
Proof. intros H. eapply lookup_weaken; [exact H|apply session_forms_grow]. Qed.

Lemma forms_cache_keeps_witness :
  AppCommandParser.forms
    (session Sample.serving
       [SetChannelContext "elsewhere" "thread"; GetSuggestions "/remote x";
        ComposeCallFromCommand "/remote y"]
       (AppCommandParser.getForm Sample.serving "/remote" Sample.remote Sample.parser).2)
  !! "/remote" = Some (Sample.form Sample.positional).
Proof.
  apply (forms_cache_keeps Sample.serving). vm_compute. reflexivity.
Defined.

(** ** The result of composing a call *)

Lemma composeCallFromParsed_result (deps : Deps) parsed st :
  let r := (AppCommandParser.composeCallFromParsed deps parsed st).1 in
  call r = None ∧ is_Some (errorMessage r) ∨ is_Some (call r) ∧ errorMessage r = None.
Proof.
  unfold AppCommandParser.composeCallFromParsed.
  destruct (ParsedCommand.binding parsed) as [b|]; [|left; eauto].
  destruct (match ParsedCommand.form parsed ≫= AppForm.call with
            | Some c => Some c
            | None => AppBinding.call b
            end) as [c|]; [|left; eauto].
  destruct (AppCommandParser.expandOptions deps parsed) as [[e|] parsed'];
    simpl; [left|right]; eauto.
Qed.

(** X13.  [composeCallFromCommand] gives a call or an error message, never both
    and never neither. *)
Theorem composeCallFromCommand_call_or_error (deps : Deps) (command : string)
    (st : AppCommandParser.t) :
  let r := (AppCommandParser.composeCallFromCommand deps command st).1 in
  call r = None ∧ is_Some (errorMessage r) ∨ is_Some (call r) ∧ errorMessage r = None.
Proof.
  unfold AppCommandParser.composeCallFromCommand.
  destruct (ParsedCommand.matchBinding _ _ _ _ _) as [parsed1 st1].
  case_bool_decide; [left; eauto|].
  destruct (AppCommandParser.getMissingFields _) as [|g gs]; [|left; eauto].
  apply composeCallFromParsed_result.
Qed.

Lemma foldl_invariant {A B : Type} (step : A → B → A) (P : A → Prop) (l : list B) (a : A) :
  P a → (∀ a x, x ∈ l → P a → P (step a x)) → P (foldl step a l).
Proof.
  revert a. induction l as [|x l IH]; intros a Ha Hstep; simpl; [done|].
  apply IH.
  - apply Hstep; [apply list_elem_of_here|done].
  - intros b y Hy. apply Hstep. by apply list_elem_of_further.
Qed.

Lemma insert_truthy (values : gmap string AppCallValue) (name k : string) (v : AppCallValue) :
  truthy v = true →
  truthy (readValue values k) = true →
  truthy (readValue (<[name := v]> values) k) = true.
Proof. intros Hv Hk. rewrite readValue_insert. by case_decide. Qed.

Lemma expandOption_start_truthy deps f acc k :
  truthy (readValue acc.1.1 k) = true →
  truthy (readValue (AppCommandParser.expandOption_start deps f acc).1.1 k) = true.
Proof.
  destruct acc as [[values errors] pending]. unfold AppCommandParser.expandOption_start.
  simpl. intros Hk.
  repeat case_match; simpl; try done; apply insert_truthy; try done;
    unfold AppCommandParser.channelOption; by case_match.
Qed.

Lemma expandOption_resume_truthy acc pd k :
  truthy (readValue acc.1 k) = true →
  truthy (readValue (AppCommandParser.expandOption_resume acc pd).1 k) = true.
Proof.
  destruct acc as [values errors]. unfold AppCommandParser.expandOption_resume.
  simpl. intros Hk.
  repeat case_match; simpl; try done; apply insert_truthy; try done;
    unfold AppCommandParser.channelOption; by case_match.
Qed.

(** [expandOptions] changes the values alone, and leaves a value that
    counts as given a value that counts as given. *)
Lemma expandOptions_keeps deps parsed :
  let parsed' := (AppCommandParser.expandOptions deps parsed).2 in
  ParsedCommand.command parsed' = ParsedCommand.command parsed
  ∧ ParsedCommand.binding parsed' = ParsedCommand.binding parsed
  ∧ ParsedCommand.form parsed' = ParsedCommand.form parsed
  ∧ ParsedCommand.state parsed' = ParsedCommand.state parsed
  ∧ ∀ k, truthy (readValue (ParsedCommand.values parsed) k) = true →
         truthy (readValue (ParsedCommand.values parsed') k) = true.
Proof.
  unfold AppCommandParser.expandOptions.
  destruct (ParsedCommand.form parsed) as [frm|] eqn:Hform; [|done].
  destruct (foldl _ _ (AppForm.fields frm)) as [[values1 errors1] pending] eqn:H1.
  destruct (foldl _ (values1, errors1) pending) as [values2 errors2] eqn:H2.
  assert (∀ k, truthy (readValue (ParsedCommand.values parsed) k) = true →
               truthy (readValue values2 k) = true) as Hv.
  { intros k Hk.
    change values2 with (@fst _ (list (string * Message)) (values2, errors2)).
    rewrite <- H2. apply (foldl_invariant _ (fun acc => truthy (readValue acc.1 k) = true)).
    - change values1 with (values1, errors1, pending).1.1. rewrite <- H1.
      by apply (foldl_invariant _ (fun acc => truthy (readValue acc.1.1 k) = true));
        [|intros; apply expandOption_start_truthy].
    - intros; by apply expandOption_resume_truthy. }
  by destruct errors2.
Qed.

Lemma getForm_context deps location b st :
  AppCommandParser.channelID (AppCommandParser.getForm deps location b st).2
  = AppCommandParser.channelID st
  ∧ AppCommandParser.rootPostID (AppCommandParser.getForm deps location b st).2
    = AppCommandParser.rootPostID st.
Proof.
  unfold AppCommandParser.getForm, AppCommandParser.fetchForm, AppCommandParser.dispatchCall.
  repeat case_match; simplify_eq/=; done.
Qed.

Lemma matchBinding_context deps bs (auto : bool) p st :
  AppCommandParser.channelID
    (ParsedCommand.matchBinding (AppCommandParser.getForm deps) bs auto p st).2
  = AppCommandParser.channelID st
  ∧ AppCommandParser.rootPostID
      (ParsedCommand.matchBinding (AppCommandParser.getForm deps) bs auto p st).2
    = AppCommandParser.rootPostID st.
Proof.
  unfold ParsedCommand.matchBinding.
  case_bool_decide; [done|].
  destruct (ParsedCommand.matchBinding_loop _ _ _ _) as [[[bs' p']|p'|p']|]; try done.
  unfold ParsedCommand.matchBinding_finish.
  destruct (ParsedCommand.binding p') as [b|]; [|done].
  destruct (ParsedCommand.form _); [done|].
  pose proof (getForm_context deps
                (ParsedCommand.location
                   (ParsedCommand.with_form (AppBinding.form b) p')) b st) as Hctx.
  destruct (AppCommandParser.getForm _ _ _ _) as [fetched st'].
  by destruct (fetched ≫= fetched_error).
Qed.

Lemma getAppContext_context deps appID st st' :
  AppCommandParser.channelID st' = AppCommandParser.channelID st →
  AppCommandParser.rootPostID st' = AppCommandParser.rootPostID st →
  AppCommandParser.getAppContext deps appID st' = AppCommandParser.getAppContext deps appID st.
Proof. unfold AppCommandParser.getAppContext. by intros -> ->. Qed.

Lemma getMissingFields_nil parsed frm f :
  AppCommandParser.getMissingFields parsed = [] →
  ParsedCommand.form parsed = Some frm →
  f ∈ AppForm.fields frm →
  AppField.is_required f = true →
  truthy (readValue (ParsedCommand.values parsed) (AppField.name f)) = true.
Proof.
  unfold AppCommandParser.getMissingFields. intros Hnil Hfrm Hin Hreq.
  rewrite Hfrm in Hnil.
  destruct (truthy _) eqn:Ht; [done|].
  assert (f ∈ @nil AppField.t) as Habs; [|by apply elem_of_nil in Habs].
  rewrite <- Hnil. apply list_elem_of_In, filter_In. split; [by apply list_elem_of_In|].
  by rewrite Hreq, Ht.
Qed.

Lemma addDefaultAndReadOnlyValues_cursor deps parsed :
  let parsed' := AppCommandParser.addDefaultAndReadOnlyValues deps parsed in
  ParsedCommand.command parsed' = ParsedCommand.command parsed
  ∧ ParsedCommand.binding parsed' = ParsedCommand.binding parsed
  ∧ ParsedCommand.form parsed' = ParsedCommand.form parsed
  ∧ ParsedCommand.state parsed' = ParsedCommand.state parsed.
Proof.
  unfold AppCommandParser.addDefaultAndReadOnlyValues.
  destruct (ParsedCommand.form parsed) eqn:Hf; cursor_fields; by rewrite ?Hf.
Qed.

(** X14.  The call [composeCallFromCommand] gives, when it gives one: the parse
    of the command has matched a binding and has not ended in the Error
    state; the call goes to the target of the form or else of the binding,
    in the context of the channel and thread of the parser, with the
    command as typed, without a selected field or a query; and under the
    name of every required field of the form its values read as a value
    that is true, their own or the one inherited from
    [Object.prototype].  Where the name is not one of [Object.prototype],
    the values themselves hold a value that is true under it; under a
    name such as [toString] they need not hold any. *)
Theorem composeCallFromCommand_call (deps : Deps) (command : string)
    (st : AppCommandParser.t) (request : AppCallRequest.t) :
  let parsed :=
    ParsedCommand.parseForm false
      (ParsedCommand.matchBinding (AppCommandParser.getForm deps) (getAppsBindings deps)
         false (ParsedCommand.new command) st).1 in
  call (AppCommandParser.composeCallFromCommand deps command st).1 = Some request →
  ParsedCommand.state parsed ≠ ParseState.Error
  ∧ ∃ b values,
      ParsedCommand.binding parsed = Some b
      ∧ Some (AppCallRequest.call request)
        = match ParsedCommand.form parsed ≫= AppForm.call with
          | Some c => Some c
          | None => AppBinding.call b
          end
      ∧ AppCallRequest.context request
        = AppCommandParser.getAppContext deps (AppBinding.app_id b) st
      ∧ AppCallRequest.raw_command request = Some command
      ∧ AppCallRequest.selected_field request = None
      ∧ AppCallRequest.query request = None
      ∧ AppCallRequest.values request = Some values
      ∧ ∀ frm f, ParsedCommand.form parsed = Some frm →
                 f ∈ AppForm.fields frm →
                 AppField.is_required f = true →
                 truthy (readValue values (AppField.name f)) = true
                 ∧ (inherited (AppField.name f) = false →
                    ∃ v, values !! AppField.name f = Some v ∧ truthy v = true).
Proof.
  intros parsed. subst parsed.
  unfold AppCommandParser.composeCallFromCommand, AppCommandParser.getCommandBindings.
  pose proof (matchBinding_context deps (getAppsBindings deps) false
                (ParsedCommand.new command) st) as [Hch Hroot].
  pose proof (matchBinding_bounds (AppCommandParser.getForm deps) (getAppsBindings deps) false
                command st) as [Hcmd _].
  destruct (ParsedCommand.matchBinding _ _ _ _ _) as [parsed1 st1]. simpl in *.
  pose proof (parseForm_command false parsed1) as Hcmd2.
  set (parsed2 := ParsedCommand.parseForm false parsed1) in *.
  case_bool_decide as Hstate; [done|].
  pose proof (addDefaultAndReadOnlyValues_cursor deps parsed2) as (Hc3 & Hb3 & Hf3 & _).
  set (parsed3 := AppCommandParser.addDefaultAndReadOnlyValues deps parsed2) in *.
  destruct (AppCommandParser.getMissingFields parsed3) as [|g gs] eqn:Hmiss; [|done].
  unfold AppCommandParser.composeCallFromParsed. rewrite Hb3, Hf3.
  destruct (ParsedCommand.binding parsed2) as [b|]; [|done].
  destruct (match ParsedCommand.form parsed2 ≫= AppForm.call with
            | Some c => Some c
            | None => AppBinding.call b
            end) as [c|] eqn:Hcall; [|done].
  pose proof (expandOptions_keeps deps parsed3) as (Hc4 & _ & _ & _ & Hv4).
  destruct (AppCommandParser.expandOptions deps parsed3) as [[e|] parsed4]; [done|].
  simpl in *. intros [= <-]. split; [done|].
  exists b, (ParsedCommand.values parsed4). split_and!; try done.
  - by apply getAppContext_context.
  - simpl. congruence.
  - intros frm f Hfrm Hin Hreq.
    assert (truthy (readValue (ParsedCommand.values parsed4) (AppField.name f)) = true) as Ht.
    { apply Hv4. eapply getMissingFields_nil; [done| |done|done]. by rewrite Hf3. }
    split; [done|]. intros Hname. rewrite (readValue_plain _ _ Hname) in Ht.
    destruct (ParsedCommand.values parsed4 !! AppField.name f) as [v|]; [by exists v|done].
Qed.

Lemma composeCallFromCommand_call_witness :
  ∃ request,
    call (AppCommandParser.composeCallFromCommand (Sample.deps [Sample.cmd Sample.required])
            "/cmd --summary done" Sample.parser).1 = Some request
    ∧ AppCallRequest.raw_command request = Some "/cmd --summary done"
    ∧ AppCallRequest.selected_field request = None.
Proof.
  assert (∃ request,
            call (AppCommandParser.composeCallFromCommand
                    (Sample.deps [Sample.cmd Sample.required])
                    "/cmd --summary done" Sample.parser).1 = Some request)
    as [request Hrequest].
  { eexists. vm_compute. reflexivity. }
  exists request. split; [exact Hrequest|].
  destruct (composeCallFromCommand_call _ _ _ _ Hrequest)
    as (_ & b & values & _ & _ & _ & Hraw & Hsel & _).
  split; [exact Hraw|exact Hsel].
Defined.

(** ** Default values *)

Lemma defaultsOnly_insert fields orig values name v :
  defaultsOnly fields orig values →
  values !! name = None →
  hasDefault fields name →
  defaultsOnly fields orig (<[name := v]> values).
Proof.
  intros [Hkeep Hnew] Hnone Hsrc. split.
  - intros k w Hk. rewrite lookup_insert_ne; [by apply Hkeep|].
    intros <-. apply Hkeep in Hk. congruence.
  - intros k Hk. destruct (decide (k = name)) as [->|Hne]; [done|].
    rewrite lookup_insert_ne in Hk by done. by apply Hnew.
Qed.

Lemma defaultValue_start_only deps fields orig f acc :
  f ∈ fields →
  defaultsOnly fields orig acc.1
  ∧ Forall (fun pd => orig !! defaultName pd = None ∧ hasDefault fields (defaultName pd)) acc.2 →
  defaultsOnly fields orig (AppCommandParser.defaultValue_start deps f acc).1
  ∧ Forall (fun pd => orig !! defaultName pd = None ∧ hasDefault fields (defaultName pd))
      (AppCommandParser.defaultValue_start deps f acc).2.
Proof.
  destruct acc as [values pending]. simpl. intros Hin [Hv Hp].
  unfold AppCommandParser.defaultValue_start.
  destruct (truthy (AppField.value f)) eqn:Ht; simpl; [|done].
  destruct (AppField.readonly f) eqn:Hro; simpl; [|done].
  destruct (hasProperty values (AppField.name f)) eqn:Hhas; simpl; [done|].
  assert (values !! AppField.name f = None) as Hnone.
  { unfold hasProperty in Hhas. apply orb_false_iff in Hhas as [Hsome _].
    apply bool_decide_eq_false in Hsome.
    destruct (values !! AppField.name f) eqn:E; [|done]. destruct Hsome. eauto. }
  assert (hasDefault fields (AppField.name f)) as Hsrc by (by exists f).
  assert (orig !! AppField.name f = None) as Horig.
  { destruct (orig !! AppField.name f) eqn:E; [|done].
    apply Hv in E. congruence. }
  destruct (AppField.type f); simpl; try done;
    repeat case_match; simpl;
    try (split; [by apply defaultsOnly_insert|done]);
    (split; [done|]); apply Forall_app; split; try done; by apply Forall_singleton.
Qed.

Lemma defaultValue_resume_only fields orig values pd :
  orig !! defaultName pd = None ∧ hasDefault fields (defaultName pd) →
  defaultsOnly fields orig values →
  defaultsOnly fields orig (AppCommandParser.defaultValue_resume values pd).
Proof.
  intros [Hnone Hsrc] [Hkeep Hnew].
  assert (∀ v, defaultsOnly fields orig (<[defaultName pd := v]> values)) as Hins.
  { intros v. split.
    - intros k w Hk. rewrite lookup_insert_ne; [by apply Hkeep|]. intros <-. congruence.
    - intros k Hk. destruct (decide (k = defaultName pd)) as [->|Hne]; [done|].
      rewrite lookup_insert_ne in Hk by done. by apply Hnew. }
  destruct pd as [name [|user]|name [|channel]]; simpl; try done; apply Hins.
Qed.

(** X15.  [addDefaultAndReadOnlyValues] changes the values alone; it leaves
    every value that is there as it is, and what it adds is under the name
    of a read-only field of the form that has a default value. *)
Theorem addDefaultAndReadOnlyValues_keeps (deps : Deps) (parsed : ParsedCommand.t) :
  let parsed' := AppCommandParser.addDefaultAndReadOnlyValues deps parsed in
  ParsedCommand.with_values (ParsedCommand.values parsed) parsed' = parsed
  ∧ (∀ k v, ParsedCommand.values parsed !! k = Some v →
            ParsedCommand.values parsed' !! k = Some v)
  ∧ (∀ k, ParsedCommand.values parsed' !! k ≠ ParsedCommand.values parsed !! k →
          ∃ frm f, ParsedCommand.form parsed = Some frm
                   ∧ f ∈ AppForm.fields frm
                   ∧ AppField.name f = k
                   ∧ AppField.readonly f = true
                   ∧ truthy (AppField.value f) = true).
Proof.
  unfold AppCommandParser.addDefaultAndReadOnlyValues.
  destruct (ParsedCommand.form parsed) as [frm|] eqn:Hform.
  2:{ split_and!; [by destruct parsed|done|done]. }
  assert (defaultsOnly (AppForm.fields frm) (ParsedCommand.values parsed)
            (AppCommandParser.defaultValues deps (AppForm.fields frm)
               (ParsedCommand.values parsed))) as [Hkeep Hnew].
  { unfold AppCommandParser.defaultValues.
    pose proof (foldl_invariant (fun acc f => AppCommandParser.defaultValue_start deps f acc)
                  (fun acc =>
                     defaultsOnly (AppForm.fields frm) (ParsedCommand.values parsed) acc.1
                     ∧ Forall (fun pd => ParsedCommand.values parsed !! defaultName pd = None
                                         ∧ hasDefault (AppForm.fields frm) (defaultName pd))
                         acc.2)
                  (AppForm.fields frm) (ParsedCommand.values parsed, [])) as Hstart.
    destruct (foldl _ _ (AppForm.fields frm)) as [values' pending].
    destruct Hstart as [Hv Hp].
    { split; [by split|done]. }
    { intros acc f Hin Hacc. by apply (defaultValue_start_only deps). }
    simpl in *. apply foldl_invariant; [done|].
    intros values pd Hin. apply defaultValue_resume_only.
    by apply (proj1 (Forall_forall _ _) Hp). }
  split_and!.
  - by destruct parsed.
  - done.
  - intros k Hk. destruct (Hnew k Hk) as (f & Hin & Hname & Hro & Ht). by exists frm, f.
Qed.

Lemma addDefaultAndReadOnlyValues_keeps_witness :
  ∃ frm f,
    ParsedCommand.form (Sample.matched [Sample.preset] false "/cmd") = Some frm
    ∧ f ∈ AppForm.fields frm
    ∧ AppField.name f = "team"
    ∧ AppField.readonly f = true
    ∧ truthy (AppField.value f) = true.
Proof.
  apply (addDefaultAndReadOnlyValues_keeps (Sample.deps [])
           (Sample.matched [Sample.preset] false "/cmd")).
  vm_compute. discriminate.
Defined.

(** ** Suggestions for a command that does not parse *)

Lemma getValueSuggestions_cursor deps parsed d st :
  let parsed' := (AppCommandParser.getValueSuggestions deps parsed d st).1.2 in
  ParsedCommand.state parsed' = ParsedCommand.state parsed
  ∧ ParsedCommand.command parsed' = ParsedCommand.command parsed.
Proof.
  unfold AppCommandParser.getValueSuggestions.
  destruct (ParsedCommand.field parsed) as [f|]; [|done].
  destruct (AppField.type f); try done.
  unfold AppCommandParser.getDynamicSelectSuggestions, AppCommandParser.composeCallFromParsed.
  pose proof (expandOptions_keeps deps parsed) as (Hc & _ & _ & Hs & _).
  destruct (AppCommandParser.expandOptions deps parsed) as [e parsed'].
  unfold AppCommandParser.dispatchCall.
  repeat case_match; simplify_eq/=; done.
Qed.

Lemma getParameterSuggestions_cursor deps parsed st :
  let parsed' := (AppCommandParser.getParameterSuggestions deps parsed st).1.2 in
  ParsedCommand.state parsed' = ParsedCommand.state parsed
  ∧ ParsedCommand.command parsed' = ParsedCommand.command parsed.
Proof.
  unfold AppCommandParser.getParameterSuggestions.
  destruct (ParsedCommand.state parsed) eqn:Hs; try done;
    try (rewrite <- Hs; apply getValueSuggestions_cursor).
  destruct (ParsedCommand.form parsed ≫= _) as [positional|]; [|done].
  rewrite <- Hs.
  apply (getValueSuggestions_cursor deps
           (ParsedCommand.with_field (Some positional) parsed) None st).
Qed.

Lemma decorate_error deps parsed hint description icon :
  AppCommandParser.decorateSuggestionComplete deps parsed
    (mkSuggestion "" (Verbatim "") hint description icon)
  = mkSuggestion
      (substring_from 1
         (substring_to (ParsedCommand.incompleteStart parsed - 1)
            (ParsedCommand.command parsed)))
      (Verbatim "") hint description icon.
Proof.
  unfold AppCommandParser.decorateSuggestionComplete. simpl. by rewrite app_empty_r.
Qed.

(** X16.  When the text typed does not parse, that is when the cursor
    [getSuggestions] has gathered its suggestions from is in the Error
    state, the one suggestion returned is the parsing error: the message
    of the error as its description, an empty completion in front of
    which the text before the token is put, and no offer to execute. *)
Theorem getSuggestions_parse_error (deps : Deps) (pretext : string)
    (st : AppCommandParser.t) :
  let parsed := (AppCommandParser.gatherSuggestions deps pretext st).1.2 in
  ParsedCommand.state parsed = ParseState.Error →
  AppCommandParser.getSuggestions deps pretext st
  = ([mkSuggestion
        (substring_from 1
           (substring_to (ParsedCommand.incompleteStart parsed - 1) pretext))
        (Verbatim "") AppMsg.parser_error (ParsedCommand.error parsed) "error"],
     (AppCommandParser.gatherSuggestions deps pretext st).2).
Proof.
  intros parsed Hstate.
  assert (ParsedCommand.command parsed = pretext
          ∧ (AppCommandParser.gatherSuggestions deps pretext st).1.1
            = AppCommandParser.getErrorSuggestion parsed) as [Hcmd Hgather].
  { subst parsed. revert Hstate. unfold AppCommandParser.gatherSuggestions.
    pose proof (matchBinding_bounds (AppCommandParser.getForm deps)
                  (AppCommandParser.getCommandBindings deps) true pretext st) as [Hc _].
    destruct (ParsedCommand.matchBinding _ _ _ _ _) as [parsed1 st1]. simpl in Hc.
    destruct (bool_decide _ || negb _); simpl.
    - pose proof (parseForm_command true parsed1) as Hc2.
      pose proof (getParameterSuggestions_cursor deps (ParsedCommand.parseForm true parsed1)
                    st1) as [Hs3 Hc3].
      destruct (AppCommandParser.getParameterSuggestions deps _ st1)
        as [[args parsed3] st3] eqn:Hg.
      simpl in *. intros Hstate. rewrite Hstate in Hs3.
      unfold AppCommandParser.getParameterSuggestions in Hg. rewrite <- Hs3 in Hg.
      simplify_eq. rewrite bool_decide_eq_true_2 by done. split; [congruence|done].
    - intros Hs. rewrite (bool_decide_eq_true_2 _ Hs).
      rewrite bool_decide_eq_false_2 by congruence. done. }
  unfold AppCommandParser.getSuggestions.
  destruct (AppCommandParser.gatherSuggestions deps pretext st) as [[suggestions parsed'] st'].
  simpl in *. subst parsed suggestions.
  assert (AppCommandParser.executable parsed' = false) as ->.
  { unfold AppCommandParser.executable. rewrite Hstate. done. }
  simpl. unfold AppCommandParser.getErrorSuggestion. simpl.
  by rewrite decorate_error, Hcmd.
Qed.

Lemma getSuggestions_parse_error_witness :
  (AppCommandParser.getSuggestions (Sample.deps [Sample.cmd Sample.flags])
     "/cmd --nope " Sample.parser).1
  = [mkSuggestion "cmd -" (Verbatim "") AppMsg.parser_error (Msg.unexpected_flag "nope")
       "error"].
Proof.
  rewrite (getSuggestions_parse_error (Sample.deps [Sample.cmd Sample.flags])
             "/cmd --nope " Sample.parser); [|vm_compute; reflexivity].
  vm_compute. reflexivity.
Defined.

(** ** What a completion puts in front of a suggestion *)

Lemma substring_whole (s : string) : String.substring 0 (String.length s) s = s.
Proof. induction s as [|c s IH]; simpl; [done|]. by rewrite IH. Qed.

Lemma substring_from_one (c : ascii) (s : string) : substring_from 1 (String c s) = s.
Proof. unfold substring_from. simpl. rewrite Nat.sub_0_r. apply substring_whole. Qed.

Lemma substring_to_cons (n : nat) (c : ascii) (s : string) :
  substring_to (S n) (String c s) = String c (substring_to n s).
Proof. reflexivity. Qed.

(** X17.  [decorateSuggestionComplete] keeps a suggestion that executes the
    command as it is.  In any other suggestion it changes the completion
    alone.  Under a completion that is not empty, for a command that is
    not empty and [incompleteStart] at least 1, the first character of the
    command followed by the new completion is the text of the command
    before [incompleteStart] followed by the completion of the
    suggestion; with [incompleteStart] at 0 the new completion is the
    completion of the suggestion without its first character.  Under an
    empty completion, for a command that is not empty and
    [incompleteStart] at least 2, the first character of the command
    followed by the new completion is the text of the command before
    [incompleteStart - 1]; with [incompleteStart] at most 1 the new
    completion is empty. *)
Theorem decorateSuggestionComplete_prefix (deps : Deps) (parsed : ParsedCommand.t)
    (choice : AutocompleteSuggestion) :
  let decorated := AppCommandParser.decorateSuggestionComplete deps parsed choice in
  let start := ParsedCommand.incompleteStart parsed in
  let command := ParsedCommand.command parsed in
  Suggestion decorated = Suggestion choice
  ∧ Hint decorated = Hint choice
  ∧ Description decorated = Description choice
  ∧ IconData decorated = IconData choice
  ∧ (Complete choice ≠ "" →
     endsWith (Complete choice) (EXECUTE_CURRENT_COMMAND_ITEM_ID deps) = true →
     decorated = choice)
  ∧ (Complete choice ≠ "" →
     endsWith (Complete choice) (EXECUTE_CURRENT_COMMAND_ITEM_ID deps) = false →
     command ≠ "" → (1 ≤ start)%nat →
     substring_to 1 command +:+ Complete decorated
     = substring_to start command +:+ Complete choice)
  ∧ (Complete choice = "" → command ≠ "" → (2 ≤ start)%nat →
     substring_to 1 command +:+ Complete decorated = substring_to (start - 1) command)
  ∧ (Complete choice ≠ "" →
     endsWith (Complete choice) (EXECUTE_CURRENT_COMMAND_ITEM_ID deps) = false →
     start = 0 →
     Complete decorated = substring_from 1 (Complete choice))
  ∧ (Complete choice = "" → (start ≤ 1)%nat → Complete decorated = "").
Proof.
  intros decorated start command. subst decorated start command.
  unfold AppCommandParser.decorateSuggestionComplete, eqb_string.
  destruct (decide (Complete choice = "")) as [Hempty|Hfull].
  - rewrite !bool_decide_eq_true_2 by done. simpl. split_and!; try done.
    + intros _ Hcmd Hstart. rewrite Hempty, app_empty_r.
      destruct (ParsedCommand.command parsed) as [|c s]; [done|].
      destruct (ParsedCommand.incompleteStart parsed) as [|[|n]]; [lia..|].
      simpl. rewrite !substring_to_cons, substring_from_one.
      unfold substring_to at 1. by rewrite substring_empty.
    + intros _ Hstart. rewrite Hempty, app_empty_r.
      replace (ParsedCommand.incompleteStart parsed - 1) with 0 by lia.
      unfold substring_to. by rewrite substring_empty.
  - rewrite !bool_decide_eq_false_2 by done. simpl.
    destruct (endsWith _ _) eqn:Hends; split_and!; try done.
    + intros _ _ Hcmd Hstart.
      destruct (ParsedCommand.command parsed) as [|c s]; [done|].
      destruct (ParsedCommand.incompleteStart parsed) as [|n]; [lia|].
      simpl. rewrite !substring_to_cons, !app_cons, substring_from_one.
      unfold substring_to at 1. by rewrite substring_empty.
    + intros _ _ ->. rewrite Nat.sub_0_r. unfold substring_to at 1.
      by rewrite substring_empty, app_empty_l.
Qed.

Lemma decorateSuggestionComplete_prefix_witness :
  substring_to 1 (ParsedCommand.command Sample.dashed)
  +:+ Complete (AppCommandParser.decorateSuggestionComplete (Sample.deps []) Sample.dashed
                  (mkSuggestion "-user" (Verbatim "--user") (Verbatim "") (Verbatim "") ""))
  = substring_to (ParsedCommand.incompleteStart Sample.dashed)
      (ParsedCommand.command Sample.dashed) +:+ "-user".
Proof.
  apply (decorateSuggestionComplete_prefix (Sample.deps []) Sample.dashed
           (mkSuggestion "-user" (Verbatim "--user") (Verbatim "") (Verbatim "") "")).
  - discriminate.
  - vm_compute. reflexivity.
  - vm_compute. discriminate.
  - vm_compute. lia.
Defined.

(** ** The dashes of a flag suggestion *)





(** ** Upper case in the label of a command *)

Lemma prefix_nil (s : string) : String.prefix "" s = true.
Proof. by destruct s. Qed.

Lemma prefix_cons (a b : ascii) (p s : string) :
  String.prefix (String a p) (String b s) = true ↔ a = b ∧ String.prefix p s = true.
Proof.
  simpl. destruct (Ascii.ascii_dec a b) as [->|Hne]; [tauto|].
  split; [done|]. by intros [? _].
Qed.

Lemma prefix_toLowerCase (p s : string) :
  String.prefix p (toLowerCase s) = true → toLowerCase p = p.
Proof.
  revert s. induction p as [|a p IH]; intros s H; [done|].
  destruct s as [|b s]; [done|].
  change (toLowerCase (String b s)) with (String (toLowerCaseChar b) (toLowerCase s)) in H.
  apply prefix_cons in H as [-> H]. simpl.
  by rewrite toLowerCaseChar_idem, (IH s H).
Qed.

Lemma toLowerCase_app_l (a b : string) :
  toLowerCase (a +:+ b) = a +:+ b → toLowerCase a = a.
Proof.
  induction a as [|c a IH]; [done|]. rewrite app_cons. simpl.
  intros [= Hc Ha]. by rewrite Hc, (IH Ha).
Qed.

Lemma toLowerCase_withSlash (l : string) :
  toLowerCase (AppCommandParser.withSlash l) = AppCommandParser.withSlash l ↔ toLowerCase l = l.
Proof.
  unfold AppCommandParser.withSlash. destruct l as [|c l]; [done|].
  case_bool_decide; [done|]. simpl. split; [by intros [= -> ->]|by intros [= -> ->]].
Qed.

Lemma isAppCommand_lower_case (deps : Deps) (pretext : string) :
  AppCommandParser.isAppCommand deps pretext = true →
  ∃ b, b ∈ getAppsBindings deps
       ∧ AppBinding.label b ≠ ""
       ∧ toLowerCase (AppBinding.label b) = AppBinding.label b
       ∧ startsWith (toLowerCase pretext)
           (AppCommandParser.withSlash (AppBinding.label b) +:+ " ") = true.
Proof.
  unfold AppCommandParser.isAppCommand, AppCommandParser.getCommandBindings.
  intros (b & Hin & Hb)%existsb_exists. exists b.
  unfold eqb_string in Hb. case_bool_decide as Hl; [done|].
  split_and!; [by apply list_elem_of_In|done| |done].
  apply prefix_toLowerCase, toLowerCase_app_l in Hb. by apply toLowerCase_withSlash.
Qed.

(** X19.  [isAppCommand] compares the text typed, in lower case, with the labels
    as they are: when every label has an upper-case letter, no text is an
    app command. *)
Theorem isAppCommand_upper_case_label (deps : Deps) (pretext : string) :
  (∀ b, b ∈ getAppsBindings deps → toLowerCase (AppBinding.label b) ≠ AppBinding.label b) →
  AppCommandParser.isAppCommand deps pretext = false.
Proof.
  intros Hupper. destruct (AppCommandParser.isAppCommand deps pretext) eqn:H; [|done].
  apply isAppCommand_lower_case in H as (b & Hin & _ & Hlow & _).
  by destruct (Hupper b Hin).
Qed.

Lemma isAppCommand_upper_case_label_witness :
  AppCommandParser.isAppCommand (Sample.deps [Sample.jira]) "/Jira create" = false
  ∧ ParsedCommand.binding
      (ParsedCommand.matchBinding (AppCommandParser.getForm (Sample.deps [Sample.jira]))
         [Sample.jira] true (ParsedCommand.new "/Jira create") Sample.parser).1
    = Some Sample.jira.
Proof.
  split; [|vm_compute; reflexivity].
  apply isAppCommand_upper_case_label.
  intros b Hb. apply list_elem_of_singleton in Hb as ->. vm_compute. discriminate.
Defined.

(** ** The suggestions for the base commands *)

Lemma prefix_refl (s : string) : String.prefix s s = true.
Proof. induction s as [|c s IH]; [done|]. by apply prefix_cons. Qed.

Lemma prefix_length (p s : string) :
  String.prefix p s = true → (String.length p ≤ String.length s)%nat.
Proof.
  revert s. induction p as [|a p IH]; intros s H; simpl; [lia|].
  destruct s as [|b s]; [done|]. apply prefix_cons in H as [_ H].
  apply IH in H. simpl. lia.
Qed.

Lemma prefix_same_length (p s : string) :
  String.prefix p s = true → String.length p = String.length s → p = s.
Proof.
  revert s. induction p as [|a p IH]; intros s H Hlen.
  - by destruct s.
  - destruct s as [|b s]; [done|]. apply prefix_cons in H as [-> H].
    f_equal. apply IH; [done|]. simpl in Hlen. lia.
Qed.

Lemma getSuggestionsBase_fold (command : string) (bindings : list AppBinding.t)
    (result : list AutocompleteSuggestion) :
  foldl
    (fun result binding =>
       let base := AppBinding.label binding in
       if eqb_string base "" then result
       else if startsWith (AppCommandParser.withSlash base) command
       then result ++ [mkSuggestion (AppBinding.label binding)
                         (Verbatim (AppCommandParser.withSlash base))
                         (Verbatim (AppBinding.hint binding))
                         (Verbatim (AppBinding.description binding))
                         (AppBinding.icon binding)]
       else result)
    result bindings
  = result ++ List.map baseSuggestion (List.filter (offeredAsBase command) bindings).
Proof.
  revert result. induction bindings as [|b bindings IH]; intros result; simpl.
  { by rewrite app_nil_r. }
  rewrite IH. unfold offeredAsBase at 2.
  destruct (eqb_string (AppBinding.label b) ""); simpl; [done|].
  destruct (startsWith _ command); simpl; [|done].
  by rewrite <- app_assoc.
Qed.

(** X20.  [getSuggestionsBase] makes a suggestion, in the order of the bindings,
    of every command whose label is not empty and, with its slash, begins
    with the text typed in lower case.  The label is taken as it is: a
    command typed in full is suggested only if its label has no upper-case
    letter.  And a command the text has gone beyond, so that
    [isAppCommand] holds by it, is no longer suggested. *)
Theorem getSuggestionsBase_offers (deps : Deps) (pretext : string) :
  AppCommandParser.getSuggestionsBase deps pretext
  = List.map baseSuggestion
      (List.filter (offeredAsBase (toLowerCase pretext)) (getAppsBindings deps))
  ∧ (∀ b, b ∈ getAppsBindings deps → AppBinding.label b ≠ "" →
       (baseSuggestion b
        ∈ AppCommandParser.getSuggestionsBase deps
            (AppCommandParser.withSlash (AppBinding.label b))
        ↔ toLowerCase (AppBinding.label b) = AppBinding.label b))
  ∧ (∀ b, startsWith (toLowerCase pretext)
            (AppCommandParser.withSlash (AppBinding.label b) +:+ " ") = true →
          offeredAsBase (toLowerCase pretext) b = false).
Proof.
  assert (∀ text, AppCommandParser.getSuggestionsBase deps text
                  = List.map baseSuggestion
                      (List.filter (offeredAsBase (toLowerCase text)) (getAppsBindings deps)))
    as Hspec.
  { intros text. unfold AppCommandParser.getSuggestionsBase,
      AppCommandParser.getCommandBindings.
    by rewrite getSuggestionsBase_fold. }
  split_and!; [apply Hspec| |].
  - intros b Hin Hlabel. rewrite Hspec.
    assert (offeredAsBase (toLowerCase (AppCommandParser.withSlash (AppBinding.label b))) b
            = true ↔ toLowerCase (AppBinding.label b) = AppBinding.label b) as Hoffer.
    { unfold offeredAsBase, eqb_string. rewrite bool_decide_eq_false_2 by done. simpl.
      rewrite <- toLowerCase_withSlash. unfold startsWith. split.
      - intros H. apply prefix_same_length; [done|apply toLowerCase_length].
      - intros ->. apply prefix_refl. }
    rewrite <- Hoffer, list_elem_of_In, in_map_iff. split.
    + intros (b' & Heq & [_ Hb']%filter_In).
      assert (AppBinding.label b' = AppBinding.label b) as Hsame
        by (by injection Heq).
      unfold offeredAsBase in *. by rewrite Hsame in Hb'.
    + intros H. exists b. split; [done|]. apply filter_In. split; [by apply list_elem_of_In|done].
  - intros b H. unfold offeredAsBase. apply andb_false_iff. right.
    unfold startsWith in *.
    destruct (String.prefix (toLowerCase pretext)
                (AppCommandParser.withSlash (AppBinding.label b))) eqn:H'; [|done].
    apply prefix_length in H, H'. rewrite app_length_string in H. simpl in H. lia.
Qed.

Lemma getSuggestionsBase_offers_witness :
  baseSuggestion (Sample.cmd Sample.flags)
  ∈ AppCommandParser.getSuggestionsBase (Sample.deps [Sample.cmd Sample.flags])
      (AppCommandParser.withSlash (AppBinding.label (Sample.cmd Sample.flags))).
Proof.
  exact (proj2 (proj1 (proj2 (getSuggestionsBase_offers
                                (Sample.deps [Sample.cmd Sample.flags]) ""))
                  (Sample.cmd Sample.flags) ltac:(apply list_elem_of_here)
                  ltac:(discriminate))
           eq_refl).
Defined.

(** ** Options that are not offered *)








(** ** Values without a suggestion *)

(** X22.  [getValueSuggestions] has no suggestion to make when there is no field
    at hand, when the field is a user or a channel and something other
    than blanks has been typed, and when the field is a boolean and what
    has been typed begins neither true nor false; in every other case it
    makes one at least. *)
Theorem getValueSuggestions_empty (deps : Deps) (parsed : ParsedCommand.t)
    (delimiter : option ascii) (st : AppCommandParser.t) :
  (AppCommandParser.getValueSuggestions deps parsed delimiter st).1.1 = []
  ↔ match ParsedCommand.field parsed with
    | None => True
    | Some f =>
        (AppField.type f = AppFieldTypes.USER ∨ AppField.type f = AppFieldTypes.CHANNEL)
        ∧ trimIsEmpty (ParsedCommand.incomplete parsed) = false
        ∨ AppField.type f = AppFieldTypes.BOOL
          ∧ startsWith "true" (ParsedCommand.incomplete parsed) = false
          ∧ startsWith "false" (ParsedCommand.incomplete parsed) = false
    end.
Proof.
  unfold AppCommandParser.getValueSuggestions.
  destruct (ParsedCommand.field parsed) as [f|]; [|done].
  destruct (AppField.type f) eqn:Hty.
  - simpl. intuition congruence.
  - unfold AppCommandParser.getBooleanSuggestions. cbv zeta.
    destruct (startsWith "true" (ParsedCommand.incomplete parsed)),
      (startsWith "false" (ParsedCommand.incomplete parsed));
      cbn [fst snd app]; intuition congruence.
  - unfold AppCommandParser.getUserSuggestions.
    destruct (trimIsEmpty _); cbn [fst snd]; intuition congruence.
  - unfold AppCommandParser.getChannelSuggestions.
    destruct (trimIsEmpty _); cbn [fst snd]; intuition congruence.
  - unfold AppCommandParser.getStaticSelectSuggestions.
    destruct (List.filter _ _); simpl; intuition congruence.
  - unfold AppCommandParser.getDynamicSelectSuggestions,
      AppCommandParser.makeDynamicSelectSuggestionError, AppCommandParser.dispatchCall.
    repeat case_match; simplify_eq/=; intuition congruence.
  - simpl. intuition congruence.
Qed.

(** ** A command line written from its arguments *)













(** ** Expansion in place *)









(** ** Completing and executing *)

Lemma matchBinding_turn_modes bs p :
  (ParsedCommand.state p = ParseState.Command → ParsedCommand.current p ≠ None) →
  ParsedCommand.matchBinding_turn true bs p = ParsedCommand.matchBinding_turn false bs p.
Proof.
  intros H. unfold ParsedCommand.matchBinding_turn.
  destruct (ParsedCommand.state p) eqn:Hs; try done.
  destruct (ParsedCommand.current p); [done|]. by destruct H.
Qed.

Lemma matchBinding_turn_followed (auto : bool) bs p bs' p' :
  (∀ n c, charAt (ParsedCommand.command p) n = Some c → isBlank c = false →
          charAt (ParsedCommand.command p) (S n) ≠ None) →
  ParsedCommand.matchBinding_turn auto bs p = Again (bs', p') →
  ParsedCommand.command p' = ParsedCommand.command p
  ∧ (ParsedCommand.state p' = ParseState.Command → ParsedCommand.current p' ≠ None).
Proof.
  intros Hfollow Ht. unfold ParsedCommand.matchBinding_turn, ParsedCommand.current in *.
  destruct p as [s cmd n inc start b f fld pos vs loc err]. cursor.
  destruct s; simplify_eq/=.
  - case_bool_decide; simplify_eq/=. split; [done|]. intros _.
    by apply (Hfollow n "/"%char).
  - destruct (charAt cmd n) as [ch|] eqn:Hc.
    + destruct (isBlank ch) eqn:Hb; simplify_eq/=; split; try done.
      intros _. by apply (Hfollow n ch).
    + destruct auto; simplify_eq/=. done.
  - destruct (ParsedCommand.findBinding bs inc); simplify_eq/=. done.
  - destruct (charAt cmd n) as [ch|] eqn:Hc; [|done].
    destruct (isBlank ch) eqn:Hb; simplify_eq/=; split; try done.
    intros _. by rewrite Hc.
Qed.

Lemma matchBinding_loop_modes p :
  (∀ n c, charAt (ParsedCommand.command p) n = Some c → isBlank c = false →
          charAt (ParsedCommand.command p) (S n) ≠ None) →
  ∀ fuel bs p',
    ParsedCommand.command p' = ParsedCommand.command p →
    (ParsedCommand.state p' = ParseState.Command → ParsedCommand.current p' ≠ None) →
    ParsedCommand.matchBinding_loop fuel true bs p'
    = ParsedCommand.matchBinding_loop fuel false bs p'.
Proof.
  intros Hfollow fuel. induction fuel as [|fuel IH]; intros bs' p' Hc Hinv; [done|].
  simpl. rewrite (matchBinding_turn_modes bs' p' Hinv).
  destruct (ParsedCommand.matchBinding_turn false bs' p') as [[bs2 p2]|r|r] eqn:Ht; try done.
  destruct (matchBinding_turn_followed false bs' p' bs2 p2) as [Hc2 Hinv2]; [|done|].
  - by rewrite Hc.
  - apply IH; [by rewrite Hc2|done].
Qed.

(** X25.  When the command ends with a blank, [matchBinding] does the same when
    completing and when executing: the same cursor and the same state of
    the forms cache.  (Without a blank at the end the last word is left
    as the token to complete in one case and matched in the other.) *)
Theorem matchBinding_modes_agree {St : Type}
    (getForm : string → AppBinding.t → St → option Fetched * St)
    (bindings : list AppBinding.t) (body : string) (c : ascii) (st : St) :
  isBlank c = true →
  let command := body +:+ String c "" in
  ParsedCommand.matchBinding getForm bindings true (ParsedCommand.new command) st
  = ParsedCommand.matchBinding getForm bindings false (ParsedCommand.new command) st.
Proof.
  intros Hblank command. unfold ParsedCommand.matchBinding.
  rewrite (matchBinding_loop_modes (ParsedCommand.new command)); try done.
  intros n d Hd Hd'. rewrite charAt_None.
  apply charAt_lt in Hd as Hlt.
  assert (String.length command = S (String.length body)) as Hlen.
  { unfold command. rewrite app_length_string. simpl. lia. }
  assert (n ≠ String.length body); [|simpl in *; lia].
  intros ->. unfold command in Hd.
  assert (charAt (body +:+ String c "") (String.length body) = Some c) as Hlast.
  { clear. induction body as [|a body IH]; [done|]. rewrite app_cons. exact IH. }
  change (charAt (body +:+ String c "") (String.length body) = Some d) in Hd. congruence.
Qed.

Lemma matchBinding_modes_agree_witness :
  ParsedCommand.matchBinding (AppCommandParser.getForm (Sample.deps []))
    [Sample.cmd Sample.flags] true (ParsedCommand.new ("/cmd" +:+ " ")) Sample.parser
  = ParsedCommand.matchBinding (AppCommandParser.getForm (Sample.deps []))
      [Sample.cmd Sample.flags] false (ParsedCommand.new ("/cmd" +:+ " ")) Sample.parser.
Proof.
  exact (matchBinding_modes_agree (AppCommandParser.getForm (Sample.deps []))
           [Sample.cmd Sample.flags] "/cmd" " "%char Sample.parser eq_refl).
Defined.

(** ** Completions that are read back *)


Lemma includesChar_false (c : ascii) (s : string) :
  includesChar c s = false → allChars (fun d => negb (bool_decide (d = c))) s = true.
Proof.
  induction s as [|d s IH]; [done|]. cbn [includesChar allChars].
  destruct (ascii_dec c d) as [->|Hne]; [done|]. intros H.
  rewrite bool_decide_eq_false_2 by congruence. by apply IH.
Qed.






(** ** A command written from words *)

Lemma walkReaches_trans (auto : bool) x y z :
  walkReaches auto x y → walkReaches auto y z → walkReaches auto x z.
Proof. induction 1; [done|]. intros. eapply walk_turn; eauto. Qed.

(** The Command state reads a word to its end. *)
Lemma walk_word (auto : bool) bs :
  ∀ token p tail,
    ParsedCommand.state p = ParseState.Command →
    remaining p = token +:+ tail →
    allChars valueChar token = true →
    walkReaches auto (bs, p) (bs, advanced token token p)
    ∧ remaining (advanced token token p) = tail.
Proof.
  intros token. induction token as [|c token IH]; intros p tail Hs Hrest Hkeep.
  { rewrite advanced_nil. split; [apply walk_here|done]. }
  cbn [allChars] in Hkeep. apply andb_true_iff in Hkeep as [Hc Hkeep].
  rewrite app_cons in Hrest. apply remaining_cons in Hrest as [Hcur Hnext].
  set (p1 := ParsedCommand.with_i (S (ParsedCommand.i p))
               (ParsedCommand.with_incomplete (push (ParsedCommand.incomplete p) c) p)).
  destruct (IH p1 tail) as [Hreach Hrem]; [done|by apply Hnext|done|].
  assert (advanced token token p1 = advanced (String c token) (String c token) p) as Heq.
  { destruct p. unfold advanced, p1. cursor. f_equal; [lia|apply push_app]. }
  rewrite Heq in Hreach, Hrem. split; [|done].
  eapply walk_turn; [|exact Hreach].
  unfold ParsedCommand.matchBinding_turn. rewrite Hs, Hcur.
  unfold valueChar in Hc. apply negb_true_iff in Hc. by rewrite Hc.
Qed.

(** The CommandSeparator state passes over blanks. *)
Lemma walk_blanks (auto : bool) bs :
  ∀ blanks p tail,
    ParsedCommand.state p = ParseState.CommandSeparator →
    remaining p = blanks +:+ tail →
    allChars isBlank blanks = true →
    walkReaches auto (bs, p)
      (bs, ParsedCommand.with_i (ParsedCommand.i p + String.length blanks) p)
    ∧ remaining (ParsedCommand.with_i (ParsedCommand.i p + String.length blanks) p) = tail.
Proof.
  intros blanks. induction blanks as [|c blanks IH]; intros p tail Hs Hrest Hb.
  { assert (ParsedCommand.with_i (ParsedCommand.i p + String.length "") p = p) as ->.
    { destruct p. cursor_eq. simpl. lia. }
    split; [apply walk_here|done]. }
  cbn [allChars] in Hb. apply andb_true_iff in Hb as [Hc Hb].
  rewrite app_cons in Hrest. apply remaining_cons in Hrest as [Hcur Hnext].
  set (p1 := ParsedCommand.with_i (S (ParsedCommand.i p)) p).
  destruct (IH p1 tail) as [Hreach Hrem]; [done|by apply Hnext|done|].
  assert (ParsedCommand.with_i (ParsedCommand.i p1 + String.length blanks) p1
          = ParsedCommand.with_i (ParsedCommand.i p + String.length (String c blanks)) p)
    as Heq.
  { unfold p1. destruct p. cursor_eq. simpl. lia. }
  rewrite Heq in Hreach, Hrem. split; [|done].
  eapply walk_turn; [|exact Hreach].
  unfold ParsedCommand.matchBinding_turn. by rewrite Hs, Hcur, Hc.
Qed.

(** After the last word of a chain: over the blanks and the word that
    follow, to the end of the loop. *)
Lemma walk_tail (auto : bool) bs p blanks w more :
  ParsedCommand.state p = ParseState.CommandSeparator →
  remaining p = blanks +:+ w +:+ more →
  allChars isBlank blanks = true →
  allChars valueChar w = true →
  (more = "" ∨ ∃ c, charAt more 0 = Some c ∧ isBlank c = true) →
  (w = "" → more = "") →
  (w ≠ "" → auto = false ∨ more ≠ "" → ParsedCommand.findBinding bs w = None) →
  ∃ q r,
    walkReaches auto (bs, p) (bs, q)
    ∧ ParsedCommand.matchBinding_turn auto bs q = Done r
    ∧ ParsedCommand.command r = ParsedCommand.command p
    ∧ ParsedCommand.binding r = ParsedCommand.binding p
    ∧ ParsedCommand.location r = ParsedCommand.location p
    ∧ ParsedCommand.incomplete r = w
    ∧ ParsedCommand.incompleteStart r = ParsedCommand.i p + String.length blanks
    ∧ ParsedCommand.i r = ParsedCommand.i p + String.length (blanks +:+ w)
    ∧ ParsedCommand.state r = wordState auto w more.
Proof.
  intros Hs Hrest Hb Hw Hmore Hwm Hfind.
  destruct (walk_blanks auto bs blanks p (w +:+ more) Hs Hrest Hb) as [Hr1 Hrem1].
  set (p1 := ParsedCommand.with_i (ParsedCommand.i p + String.length blanks) p) in *.
  assert (ParsedCommand.state p1 = ParseState.CommandSeparator) as Hs1 by done.
  destruct w as [|c w].
  - rewrite (Hwm eq_refl) in *. apply remaining_nil in Hrem1.
    exists p1, (ParsedCommand.with_state ParseState.Command
                  (ParsedCommand.with_incompleteStart (ParsedCommand.i p1)
                     (ParsedCommand.with_incomplete "" p1))).
    split_and!; try done.
    + unfold ParsedCommand.matchBinding_turn. by rewrite Hs1, Hrem1.
    + rewrite app_empty_r. done.
  - cbn [allChars] in Hw. apply andb_true_iff in Hw as [Hc Hw].
    rewrite app_cons in Hrem1. pose proof Hrem1 as Hrem1'.
    apply remaining_cons in Hrem1 as [Hcur _].
    set (p2 := ParsedCommand.with_state ParseState.Command
                 (ParsedCommand.with_incompleteStart (ParsedCommand.i p1)
                    (ParsedCommand.with_incomplete "" p1))).
    assert (ParsedCommand.matchBinding_turn auto bs p1 = Again (bs, p2)) as Ht2.
    { unfold ParsedCommand.matchBinding_turn. rewrite Hs1, Hcur.
      unfold valueChar in Hc. apply negb_true_iff in Hc. by rewrite Hc. }
    destruct (walk_word auto bs (String c w) p2 more) as [Hr3 Hrem3];
      [done|by rewrite app_cons|by cbn [allChars]; rewrite Hc, Hw|].
    set (p3 := advanced (String c w) (String c w) p2) in *.
    assert (ParsedCommand.state p3 = ParseState.Command) as Hs3 by done.
    assert (walkReaches auto (bs, p) (bs, p3)) as Hreach3.
    { eapply walkReaches_trans; [exact Hr1|]. eapply walk_turn; [exact Ht2|exact Hr3]. }
    assert (ParsedCommand.i p3 = ParsedCommand.i p + String.length (blanks +:+ String c w))
      as Hi3.
    { rewrite app_length_string. unfold p3, p2, p1, advanced. cursor_fields. lia. }
    assert (ParsedCommand.matchBinding_turn auto bs (ParsedCommand.with_state ParseState.EndCommand p3)
            = Done (ParsedCommand.with_state ParseState.EndCommand p3) ↔
            ParsedCommand.findBinding bs (String c w) = None) as Hend.
    { unfold ParsedCommand.matchBinding_turn.
      change (ParsedCommand.state (ParsedCommand.with_state ParseState.EndCommand p3))
        with ParseState.EndCommand.
      change (ParsedCommand.incomplete (ParsedCommand.with_state ParseState.EndCommand p3))
        with (String c w).
      cbv beta iota. destruct (ParsedCommand.findBinding bs (String c w)); split; done. }
    destruct (decide (more = "")) as [->|Hne].
    + apply remaining_nil in Hrem3. destruct auto.
      * exists p3, p3. split_and!; try done.
        unfold ParsedCommand.matchBinding_turn. by rewrite Hs3, Hrem3.
      * exists (ParsedCommand.with_state ParseState.EndCommand p3),
          (ParsedCommand.with_state ParseState.EndCommand p3).
        split_and!; try done.
        -- eapply walkReaches_trans; [exact Hreach3|].
           eapply walk_turn; [|apply walk_here].
           unfold ParsedCommand.matchBinding_turn. by rewrite Hs3, Hrem3.
        -- apply Hend, Hfind; [done|by left].
    + destruct Hmore as [->|(c' & Hc' & Hb')]; [done|].
      apply first_char in Hc' as [r ->]. apply remaining_cons in Hrem3 as [Hcur3 _].
      exists (ParsedCommand.with_state ParseState.EndCommand p3),
        (ParsedCommand.with_state ParseState.EndCommand p3).
      split_and!; try done.
      * eapply walkReaches_trans; [exact Hreach3|].
        eapply walk_turn; [|apply walk_here].
        unfold ParsedCommand.matchBinding_turn. by rewrite Hs3, Hcur3, Hb'.
      * apply Hend, Hfind; [done|by right].
      * unfold wordState. by destruct auto.
Qed.

Lemma candidatesAfter_cons bs (b : AppBinding.t) path :
  candidatesAfter bs (b :: path) = candidatesAfter (AppBinding.bindings b) path.
Proof.
  unfold candidatesAfter. destruct path as [|c path]; simpl; [done|].
  destruct (last (c :: path)) eqn:Hlast; [done|]. by apply last_None in Hlast.
Qed.

Lemma isWord_first (w : string) :
  isWord w = true → ∃ c r, w = String c r ∧ isBlank c = false ∧ allChars valueChar w = true.
Proof.
  unfold isWord. intros H. apply andb_true_iff in H as [Hne Hw].
  destruct w as [|c r]; [done|]. exists c, r. split_and!; [done| |done].
  cbn [allChars] in Hw. apply andb_true_iff in Hw as [Hc _]. by apply negb_true_iff in Hc.
Qed.

(** The loop of [matchBinding], from the start of a word over the words
    of a chain and what follows them. *)
Lemma walk_words (auto : bool) blanks w more :
  allChars isBlank blanks = true →
  allChars valueChar w = true →
  (more = "" ∨ ∃ c, charAt more 0 = Some c ∧ isBlank c = true) →
  (blanks = "" → auto = false ∧ w = "") →
  (w = "" → more = "") →
  ∀ words bs p path,
    ParsedCommand.state p = ParseState.Command →
    ParsedCommand.incomplete p = "" →
    words ≠ [] →
    forallb isWord words = true →
    remaining p = joinWords words +:+ blanks +:+ w +:+ more →
    walkWords bs words = Some path →
    (w ≠ "" → auto = false ∨ more ≠ "" →
     ParsedCommand.findBinding (candidatesAfter bs path) w = None) →
    ∃ bs' q r,
      walkReaches auto (bs, p) (bs', q)
      ∧ ParsedCommand.matchBinding_turn auto bs' q = Done r
      ∧ ParsedCommand.command r = ParsedCommand.command p
      ∧ ParsedCommand.binding r = last path
      ∧ ParsedCommand.location r
        = foldl (fun acc b => acc +:+ "/" +:+ AppBinding.label b) (ParsedCommand.location p) path
      ∧ ParsedCommand.incomplete r = w
      ∧ ParsedCommand.incompleteStart r
        = ParsedCommand.i p + String.length (joinWords words +:+ blanks)
      ∧ ParsedCommand.i r
        = ParsedCommand.i p + String.length (joinWords words +:+ blanks +:+ w)
      ∧ ParsedCommand.state r = wordState auto w more.
Proof.
  intros Hb Hw Hmore Hglued Hwm words.
  induction words as [|w1 rest IH]; intros bs p path Hs Hinc Hne Hwords Hrest Hwalk Hfind;
    [done|].
  cbn [forallb] in Hwords. apply andb_true_iff in Hwords as [Hw1 Hwords].
  destruct (isWord_first w1 Hw1) as (c1 & r1 & Hw1eq & Hc1 & Hw1chars).
  cbn [walkWords] in Hwalk.
  destruct (ParsedCommand.findBinding bs w1) as [b|] eqn:Hfb; [|done].
  destruct (walkWords (AppBinding.bindings b) rest) as [path'|] eqn:Hwalk'; [|done].
  injection Hwalk as <-. rewrite candidatesAfter_cons in Hfind.
  set (tail := match rest with [] => "" | _ :: _ => " " +:+ joinWords rest end
               +:+ blanks +:+ w +:+ more).
  assert (remaining p = w1 +:+ tail) as Hrest1.
  { rewrite Hrest. unfold tail. cbn [joinWords]. by rewrite !app_assoc_string. }
  destruct (walk_word auto bs w1 p tail Hs Hrest1 Hw1chars) as [Hr1 Hrem1].
  set (p1 := advanced w1 w1 p) in *.
  assert (ParsedCommand.state p1 = ParseState.Command) as Hs1 by done.
  assert (ParsedCommand.incomplete p1 = w1) as Hinc1.
  { unfold p1, advanced. cursor_fields. by rewrite Hinc. }
  set (p2 := ParsedCommand.with_state ParseState.EndCommand p1).
  assert (ParsedCommand.matchBinding_turn auto bs p1 = Again (bs, p2)) as Ht2.
  { unfold ParsedCommand.matchBinding_turn. rewrite Hs1.
    destruct rest as [|w2 rest].
    - unfold tail in Hrem1. rewrite app_empty_l in Hrem1.
      destruct blanks as [|cb blanks].
      + destruct (Hglued eq_refl) as [-> ->]. rewrite (Hwm eq_refl) in Hrem1.
        apply remaining_nil in Hrem1. by rewrite Hrem1.
      + rewrite app_cons in Hrem1. apply remaining_cons in Hrem1 as [-> _].
        cbn [allChars] in Hb. apply andb_true_iff in Hb as [-> _]. done.
    - unfold tail in Hrem1. rewrite !app_cons in Hrem1.
      apply remaining_cons in Hrem1 as [-> _]. done. }
  set (p3 := ParsedCommand.with_state ParseState.CommandSeparator
               (ParsedCommand.with_location
                  (ParsedCommand.location p2 +:+ "/" +:+ AppBinding.label b)
                  (ParsedCommand.with_binding (Some b) p2))).
  assert (ParsedCommand.matchBinding_turn auto bs p2 = Again (AppBinding.bindings b, p3))
    as Ht3.
  { unfold ParsedCommand.matchBinding_turn.
    change (ParsedCommand.state p2) with ParseState.EndCommand.
    change (ParsedCommand.incomplete p2) with (ParsedCommand.incomplete p1).
    cbv beta iota. by rewrite Hinc1, Hfb. }
  assert (walkReaches auto (bs, p) (AppBinding.bindings b, p3)) as Hreach3.
  { eapply walkReaches_trans; [exact Hr1|].
    eapply walk_turn; [exact Ht2|]. eapply walk_turn; [exact Ht3|apply walk_here]. }
  assert (remaining p3 = tail) as Hrem3 by exact Hrem1.
  assert (ParsedCommand.i p3 = ParsedCommand.i p + String.length w1) as Hi3 by done.
  destruct rest as [|w2 rest].
  - cbn [walkWords] in Hwalk'. injection Hwalk' as <-.
    unfold tail in Hrem3. rewrite app_empty_l in Hrem3.
    destruct (walk_tail auto (AppBinding.bindings b) p3 blanks w more)
      as (q & r & Hr4 & Hdone & Hcmd & Hbind & Hloc & Hincr & Hstart & Hi & Hstate);
      try done.
    exists (AppBinding.bindings b), q, r. split_and!; try done.
    + eapply walkReaches_trans; [exact Hreach3|exact Hr4].
    + rewrite Hstart, Hi3. cbn [joinWords]. rewrite app_empty_r, !app_length_string. lia.
    + rewrite Hi, Hi3. cbn [joinWords]. rewrite app_empty_r, !app_length_string. lia.
  - unfold tail in Hrem3. rewrite !app_cons, app_empty_l in Hrem3.
    pose proof Hrem3 as Hrem3'. apply remaining_cons in Hrem3 as [Hcur3 Hnext3].
    set (p4 := ParsedCommand.with_i (S (ParsedCommand.i p3)) p3).
    assert (ParsedCommand.matchBinding_turn auto (AppBinding.bindings b) p3
            = Again (AppBinding.bindings b, p4)) as Ht4.
    { unfold ParsedCommand.matchBinding_turn.
      change (ParsedCommand.state p3) with ParseState.CommandSeparator.
      by rewrite Hcur3. }
    assert (remaining p4 = joinWords (w2 :: rest) +:+ blanks +:+ w +:+ more) as Hrem4
      by (by apply Hnext3).
    cbn [forallb] in Hwords. apply andb_true_iff in Hwords as [Hw2 Hwords].
    destruct (isWord_first w2 Hw2) as (c2 & r2 & -> & Hc2 & _).
    set (p5 := ParsedCommand.with_state ParseState.Command
                 (ParsedCommand.with_incompleteStart (ParsedCommand.i p4)
                    (ParsedCommand.with_incomplete "" p4))).
    assert (ParsedCommand.matchBinding_turn auto (AppBinding.bindings b) p4
            = Again (AppBinding.bindings b, p5)) as Ht5.
    { pose proof Hrem4 as Hrem4'. cbn [joinWords] in Hrem4'. rewrite !app_cons in Hrem4'.
      apply remaining_cons in Hrem4' as [Hcur4 _].
      unfold ParsedCommand.matchBinding_turn.
      change (ParsedCommand.state p4) with ParseState.CommandSeparator.
      by rewrite Hcur4, Hc2. }
    destruct (IH (AppBinding.bindings b) p5 path')
      as (bs' & q & r & Hr6 & Hdone & Hcmd & Hbind & Hloc & Hincr & Hstart & Hi & Hstate);
      try done.
    { cbn [forallb]. by rewrite Hw2, Hwords. }
    exists bs', q, r. split_and!; try done.
    + eapply walkReaches_trans; [exact Hreach3|].
      eapply walk_turn; [exact Ht4|]. eapply walk_turn; [exact Ht5|exact Hr6].
    + rewrite Hbind. cbn [walkWords] in Hwalk'.
      destruct (ParsedCommand.findBinding (AppBinding.bindings b) (String c2 r2)); [|done].
      destruct (walkWords _ rest); [|done]. by injection Hwalk' as <-.
    + rewrite Hstart.
      change (ParsedCommand.i p5) with (S (ParsedCommand.i p + String.length w1)).
      cbn [joinWords]. rewrite !app_length_string. cbn [String.length]. lia.
    + rewrite Hi.
      change (ParsedCommand.i p5) with (S (ParsedCommand.i p + String.length w1)).
      cbn [joinWords]. rewrite !app_length_string. cbn [String.length]. lia.
Qed.

Lemma substring_from_app (a b : string) : substring_from (String.length a) (a +:+ b) = b.
Proof.
  unfold substring_from. induction a as [|c a IH].
  - simpl. rewrite Nat.sub_0_r. apply substring_whole.
  - rewrite app_cons. exact IH.
Qed.

Lemma walk_turn_keeps (auto : bool) bs p :
  match ParsedCommand.matchBinding_turn auto bs p with
  | Again (_, p') | Done p' =>
      ParsedCommand.form p' = ParsedCommand.form p
      ∧ ParsedCommand.field p' = ParsedCommand.field p
      ∧ ParsedCommand.position p' = ParsedCommand.position p
      ∧ ParsedCommand.values p' = ParsedCommand.values p
  | Return _ => True
  end.
Proof.
  unfold ParsedCommand.matchBinding_turn.
  destruct (ParsedCommand.state p); try done; repeat case_match; simplify_eq; done.
Qed.

Lemma walkReaches_keeps (auto : bool) x y :
  walkReaches auto x y →
  ParsedCommand.form y.2 = ParsedCommand.form x.2
  ∧ ParsedCommand.field y.2 = ParsedCommand.field x.2
  ∧ ParsedCommand.position y.2 = ParsedCommand.position x.2
  ∧ ParsedCommand.values y.2 = ParsedCommand.values x.2.
Proof.
  induction 1 as [x|bs p [bs' p'] y Ht _ IH]; [done|].
  pose proof (walk_turn_keeps auto bs p) as Hk. rewrite Ht in Hk. simpl in *.
  destruct Hk as (Hf & Hd & Hp & Hv), IH as (Hf' & Hd' & Hp' & Hv').
  split_and!; congruence.
Qed.

(** [matchBinding] on a command written from the words of a chain: the
    cursor its loop ends with. *)
Lemma matchBinding_words {St : Type}
    (getForm : string → AppBinding.t → St → option Fetched * St)
    (bindings : list AppBinding.t) (auto : bool) (words : list string)
    (path : list AppBinding.t) (blanks w more : string) (st : St) :
  let command := "/" +:+ joinWords words +:+ blanks +:+ w +:+ more in
  words ≠ [] →
  forallb isWord words = true →
  walkWords bindings words = Some path →
  allChars isBlank blanks = true →
  allChars valueChar w = true →
  (more = "" ∨ ∃ c, charAt more 0 = Some c ∧ isBlank c = true) →
  (blanks = "" → auto = false ∧ w = "") →
  (w = "" → more = "") →
  (w ≠ "" → auto = false ∨ more ≠ "" →
   ParsedCommand.findBinding (candidatesAfter bindings path) w = None) →
  ∃ r,
    ParsedCommand.matchBinding getForm bindings auto (ParsedCommand.new command) st
    = ParsedCommand.matchBinding_finish getForm r st
    ∧ ParsedCommand.command r = command
    ∧ ParsedCommand.binding r = last path
    ∧ ParsedCommand.location r = pathLocation path
    ∧ ParsedCommand.incomplete r = w
    ∧ ParsedCommand.incompleteStart r = String.length ("/" +:+ joinWords words +:+ blanks)
    ∧ ParsedCommand.i r = String.length ("/" +:+ joinWords words +:+ blanks +:+ w)
    ∧ ParsedCommand.state r = wordState auto w more
    ∧ ParsedCommand.form r = None
    ∧ ParsedCommand.position r = 0
    ∧ ParsedCommand.values r = ∅.
Proof.
  intros command Hne Hwords Hwalk Hb Hw Hmore Hglued Hwm Hfind.
  assert (bindings ≠ []) as Hbs.
  { intros ->. destruct words; [done|]. discriminate. }
  set (p0 := ParsedCommand.new command).
  set (p1 := ParsedCommand.with_state ParseState.Command
               (ParsedCommand.with_incompleteStart 1
                  (ParsedCommand.with_incomplete "" (ParsedCommand.with_i 1 p0)))).
  assert (ParsedCommand.matchBinding_turn auto bindings p0 = Again (bindings, p1)) as Ht1
    by done.
  destruct (walk_words auto blanks w more Hb Hw Hmore Hglued Hwm words bindings p1 path)
    as (bs' & q & r & Hreach & Hdone & Hcmd & Hbind & Hloc & Hinc & Hstart & Hi & Hstate);
    try done.
  { unfold remaining. apply substring_from_one. }
  assert (walkReaches auto (bindings, p0) (bs', q)) as Hreach0
    by (eapply walk_turn; [exact Ht1|exact Hreach]).
  destruct (walkReaches_loop auto _ _ Hreach0 1 (Done r)) as [m Hm].
  { simpl. by rewrite Hdone. }
  destruct (matchBinding_unfold getForm bindings auto p0 st Hbs) as (res & [n Hn] & Heq).
  simpl in Hm. rewrite (matchBinding_loop_det auto n m bindings p0 res (Done r) Hn Hm) in Heq.
  pose proof (walkReaches_keeps auto _ _ Hreach0) as (Hf & _ & Hp & Hv).
  pose proof (walk_turn_keeps auto bs' q) as Hk. rewrite Hdone in Hk.
  destruct Hk as (Hf' & _ & Hp' & Hv'). simpl in Hf, Hp, Hv.
  exists r. split_and!; try done.
  - by rewrite Hf', Hf.
  - by rewrite Hp', Hp.
  - by rewrite Hv', Hv.
Qed.

(** X27.  A command written from words is matched word by word.  When the
    command is a slash, the words of a chain of bindings with one blank
    between two of them, then blanks, a further word and more text: the
    binding [matchBinding] ends with is the last of the chain and the
    location that of the chain; the token left is the further word, found
    at its place in the command, with [i] after it; and, unless the fetch
    of the form fails, the state is Command when there is no further word
    or the command that is being completed ends with it, EndCommand when
    the word is the label of no sub-binding. *)
Theorem matchBinding_reads_words {St : Type}
    (getForm : string → AppBinding.t → St → option Fetched * St)
    (bindings : list AppBinding.t) (auto : bool) (words : list string)
    (path : list AppBinding.t) (blanks w more : string) (st : St) :
  let command := "/" +:+ joinWords words +:+ blanks +:+ w +:+ more in
  let r := (ParsedCommand.matchBinding getForm bindings auto (ParsedCommand.new command) st).1 in
  words ≠ [] →
  forallb isWord words = true →
  walkWords bindings words = Some path →
  allChars isBlank blanks = true →
  allChars valueChar w = true →
  (more = "" ∨ ∃ c, charAt more 0 = Some c ∧ isBlank c = true) →
  (blanks = "" → auto = false ∧ w = "") →
  (w = "" → more = "") →
  (w ≠ "" → auto = false ∨ more ≠ "" →
   ParsedCommand.findBinding (candidatesAfter bindings path) w = None) →
  ParsedCommand.binding r = last path
  ∧ ParsedCommand.location r = pathLocation path
  ∧ ParsedCommand.incomplete r = w
  ∧ ParsedCommand.incompleteStart r = String.length ("/" +:+ joinWords words +:+ blanks)
  ∧ ParsedCommand.i r = String.length ("/" +:+ joinWords words +:+ blanks +:+ w)
  ∧ substring_from (ParsedCommand.incompleteStart r) (ParsedCommand.command r) = w +:+ more
  ∧ (ParsedCommand.state r = wordState auto w more
     ∨ ParsedCommand.state r = ParseState.Error).
Proof.
  intros command r Hne Hwords Hwalk Hb Hw Hmore Hglued Hwm Hfind.
  destruct (matchBinding_words getForm bindings auto words path blanks w more st)
    as (r' & Heq & Hcmd & Hbind & Hloc & Hinc & Hstart & Hi & Hstate & _); try done.
  pose proof (matchBinding_finish_cursor getForm r' st)
    as (Hc' & Hi' & Hinc' & Hstart' & Hbind' & Hloc' & _ & _ & _ & Hstate').
  cbv zeta in *. subst r command. rewrite Heq.
  rewrite Hbind', Hloc', Hinc', Hstart', Hi', Hc', Hbind, Hloc, Hinc, Hstart, Hi, Hcmd.
  split_and!; try done.
  - rewrite !app_cons, !app_empty_l.
    replace (String "/" (joinWords words +:+ blanks +:+ w +:+ more))
      with (String "/" (joinWords words +:+ blanks) +:+ w +:+ more).
    + apply substring_from_app.
    + rewrite app_cons. by rewrite !app_assoc_string.
  - rewrite <- Hstate. exact Hstate'.
Qed.

Lemma matchBinding_reads_words_witness :
  ParsedCommand.binding
    (ParsedCommand.matchBinding (AppCommandParser.getForm (Sample.deps [])) [Sample.tree] false
       (ParsedCommand.new ("/" +:+ joinWords ["Issue"; "create"] +:+ "  " +:+ "hello" +:+ ""))
       Sample.parser).1
  = last [Sample.tree; Sample.leaf].
Proof.
  apply (matchBinding_reads_words (AppCommandParser.getForm (Sample.deps [])) [Sample.tree]
           false ["Issue"; "create"] [Sample.tree; Sample.leaf] "  " "hello" "" Sample.parser).
  - discriminate.
  - reflexivity.
  - reflexivity.
  - reflexivity.
  - reflexivity.
  - by left.
  - discriminate.
  - discriminate.
  - reflexivity.
Defined.

(** ** A command line written from words and arguments *)





(** ** Accepting the suggestion of a sub-command *)

Lemma findBinding_finds (bindings : list AppBinding.t) (b : AppBinding.t) :
  b ∈ bindings → ∃ b', ParsedCommand.findBinding bindings (AppBinding.label b) = Some b'.
Proof.
  intros Hin. unfold ParsedCommand.findBinding.
  destruct (List.find _ bindings) as [b'|] eqn:Hfind; [by exists b'|].
  apply list_elem_of_In in Hin. apply (find_none _ _ Hfind) in Hin.
  unfold eqb_string in Hin. by rewrite bool_decide_eq_true_2 in Hin.
Qed.

Lemma walkWords_snoc (w : string) (b' : AppBinding.t) :
  ∀ words bindings path,
    walkWords bindings words = Some path →
    ParsedCommand.findBinding (candidatesAfter bindings path) w = Some b' →
    walkWords bindings (words ++ [w]) = Some (path ++ [b']).
Proof.
  intros words. induction words as [|w1 words IH]; intros bindings path Hwalk Hfind.
  - injection Hwalk as <-. simpl in *. unfold candidatesAfter in Hfind. simpl in Hfind.
    by rewrite Hfind.
  - cbn [walkWords app] in *.
    destruct (ParsedCommand.findBinding bindings w1) as [b|]; [|done].
    destruct (walkWords (AppBinding.bindings b) words) as [path'|] eqn:Hwalk'; [|done].
    injection Hwalk as <-. rewrite candidatesAfter_cons in Hfind.
    by rewrite (IH _ _ Hwalk' Hfind).
Qed.

(** X29.  The suggestions of [getCommandSuggestions] after the words of a chain
    are the sub-commands of the last binding of the chain whose label
    begins with what has been typed of the next word, upper and lower
    case aside; and accepting one that is a word gives a command that
    [matchBinding] matches down to a sub-command of that label: the chain
    is one binding longer. *)
Theorem subcommand_suggestion_accepted {St : Type}
    (getForm : string → AppBinding.t → St → option Fetched * St)
    (bindings : list AppBinding.t) (words : list string) (path : list AppBinding.t)
    (b0 : AppBinding.t) (partial : string) (s : AutocompleteSuggestion) (st st' : St) :
  let pretext := "/" +:+ joinWords words +:+ " " +:+ partial in
  let parsed := (ParsedCommand.matchBinding getForm bindings true (ParsedCommand.new pretext) st).1 in
  words ≠ [] →
  forallb isWord words = true →
  walkWords bindings words = Some path →
  last path = Some b0 →
  allChars valueChar partial = true →
  s ∈ AppCommandParser.getCommandSuggestions parsed →
  ∃ b, b ∈ AppBinding.bindings b0
       ∧ startsWith (toLowerCase (AppBinding.label b)) (toLowerCase partial) = true
       ∧ Complete s = AppBinding.label b
       ∧ (isWord (AppBinding.label b) = true →
          ∃ b', b' ∈ AppBinding.bindings b0
                ∧ toLowerCase (AppBinding.label b') = toLowerCase (AppBinding.label b)
                ∧ let accepted :=
                    (ParsedCommand.matchBinding getForm bindings false
                       (ParsedCommand.new ("/" +:+ joinWords (words ++ [Complete s]))) st').1 in
                  ParsedCommand.binding accepted = Some b'
                  ∧ ParsedCommand.location accepted = pathLocation (path ++ [b'])).
Proof.
  intros pretext parsed Hne Hwords Hwalk Hlast Hpartial Hin.
  destruct (matchBinding_words getForm bindings true words path " " partial "" st)
    as (r & Heq & _ & Hbind & _ & Hinc & _); try done.
  { by left. }
  { by intros _ [|]. }
  pose proof (matchBinding_finish_cursor getForm r st)
    as (_ & _ & Hinc' & _ & Hbind' & _).
  cbv zeta in Hinc', Hbind'.
  assert (ParsedCommand.binding parsed = Some b0) as Hb0.
  { unfold parsed, pretext. rewrite app_empty_r in Heq. by rewrite Heq, Hbind', Hbind. }
  assert (ParsedCommand.incomplete parsed = partial) as Hp.
  { unfold parsed, pretext. rewrite app_empty_r in Heq. by rewrite Heq, Hinc', Hinc. }
  unfold AppCommandParser.getCommandSuggestions in Hin. rewrite Hb0, Hp in Hin.
  apply list_elem_of_In, in_map_iff in Hin as (b & <- & Hin).
  apply filter_In in Hin as [Hin Hstarts]. apply list_elem_of_In in Hin.
  exists b. split_and!; [done|done|done|]. intros Hword. cbn [Complete].
  destruct (findBinding_finds _ _ Hin) as [b' Hfind].
  destruct (findBinding_Some _ _ _ Hfind) as [Hin' Hlabel].
  exists b'. split; [done|]. split; [done|].
  assert (walkWords bindings (words ++ [AppBinding.label b]) = Some (path ++ [b'])) as Hwalk2.
  { apply walkWords_snoc; [done|]. unfold candidatesAfter. by rewrite Hlast. }
  destruct (matchBinding_words getForm bindings false (words ++ [AppBinding.label b])
              (path ++ [b']) "" "" "" st')
    as (r2 & Heq2 & _ & Hbind2 & Hloc2 & _); try done.
  { by destruct words. }
  { rewrite forallb_app, Hwords. cbn [forallb]. by rewrite Hword. }
  { by left. }
  pose proof (matchBinding_finish_cursor getForm r2 st')
    as (_ & _ & _ & _ & Hbind2' & Hloc2' & _).
  cbv zeta in *. rewrite !app_empty_r in Heq2.
  rewrite Heq2, Hbind2', Hloc2', Hbind2, Hloc2, last_snoc. done.
Qed.

Lemma subcommand_suggestion_accepted_witness :
  ParsedCommand.binding
    (ParsedCommand.matchBinding (AppCommandParser.getForm (Sample.deps [])) [Sample.tree] false
       (ParsedCommand.new ("/" +:+ joinWords (["issue"] ++ ["create"]))) Sample.parser).1
  = Some Sample.leaf.
Proof.
  destruct (subcommand_suggestion_accepted (AppCommandParser.getForm (Sample.deps []))
              [Sample.tree] ["issue"] [Sample.tree] Sample.tree "cr"
              (mkSuggestion "create" (Verbatim "create") (Verbatim "") (Verbatim "") "")
              Sample.parser Sample.parser
              ltac:(discriminate) eq_refl eq_refl eq_refl eq_refl
              ltac:(vm_compute; apply list_elem_of_here))
    as (b & Hb & _ & Hc & Hacc).
  apply list_elem_of_singleton in Hb as ->.
  destruct (Hacc eq_refl) as (b' & Hb' & _ & Hbind & _).
  apply list_elem_of_singleton in Hb' as ->. exact Hbind.
Defined.

(** ** The call of a written command *)





